(** * trivy-db-updater: a shallow embedding of [trivy-db-updater.go]

    The program keeps a Trivy vulnerability database cache fresh: it reads
    [<cacheDir>/db/metadata.json], decides whether a refresh is due, and if so
    copies the cache to [/tmp/trivy_save], runs [trivy --download-db-only],
    and copies the backup over the cache again when the tool fails.

    The Go functions are embedded as state-passing computations over a
    [World] (filesystem, clock readings taken so far, lines printed so far).
    What the program does not define itself is an explicit environment
    [Env]: which system calls fail, what the clock reads, what
    [encoding/json] does on the [MetadataJSON] struct and what the external
    [trivy] process does to the filesystem. *)

From stdpp Require Import base option list gmap strings sorting.
From Stdlib Require Import ZArith Lia Ascii.

Open Scope string_scope.
Open Scope list_scope.

(** ** Time ([time.Time], as far as the program uses it) *)

(** An instant in nanoseconds since the Unix epoch, and the zone offset the
    value prints with, in minutes east of UTC. *)
Record time_Time := mkTime { unix_ns : Z; zone_min : Z }.

Definition time_Hour : Z := 3600 * 1000000000.

(** [t.After(u)]: the instant [t] is strictly later than the instant [u]. *)
Definition time_After (t u : time_Time) : bool := (unix_ns u <? unix_ns t)%Z.

(** [t.Add(d)]. *)
Definition time_Add (t : time_Time) (d : Z) : time_Time :=
  {| unix_ns := unix_ns t + d; zone_min := zone_min t |}.

(** ** The metadata record (lines 15-20) *)

Record MetadataJSON := mkMetadata {
  Version : Z;
  NextUpdate : time_Time;
  UpdatedAt : time_Time;
  DownloadedAt : time_Time;
}.

(** The assignment [metadata.NextUpdate = t] of line 100. *)
Definition set_NextUpdate (t : time_Time) (m : MetadataJSON) : MetadataJSON :=
  {| Version := Version m; NextUpdate := t;
     UpdatedAt := UpdatedAt m; DownloadedAt := DownloadedAt m |}.

(** ** The filesystem

    A path is its list of components below the root; the root itself is a
    directory that is always there and is not stored.  A file is its bytes;
    modes, owners, times and links are not modelled. *)

Abbreviation path := (list string).

Inductive inode :=
| IFile (data : string)
| IDir.

#[global] Instance inode_eq_dec : EqDecision inode.
Proof. solve_decision. Defined.

Abbreviation FS := (gmap path inode).

Definition is_dir (i : inode) : bool :=
  match i with IDir => true | IFile _ => false end.

Definition stat (fs : FS) (p : path) : option inode :=
  match p with
  | [] => Some IDir
  | _ => fs !! p
  end.

Definition parent (p : path) : path := take (length p - 1) p.

(** [child_of p k] is the name [n] when [k = p ++ [n]]. *)
Definition child_of (p k : path) : option string :=
  match last k with
  | Some n => if decide (k = p ++ [n]) then Some n else None
  | None => None
  end.

(** Directory entries as [os.ReadDir] returns them: name and [IsDir()],
    sorted by file name. *)
Definition name_le (a b : string * bool) : Prop := String.leb a.1 b.1 = true.

#[global] Instance name_le_dec : RelDecision name_le :=
  λ a b, decide (String.leb a.1 b.1 = true).

Definition dir_entries (fs : FS) (p : path) : list (string * bool) :=
  merge_sort name_le
    (omap (λ kv : path * inode, (λ n, (n, is_dir kv.2)) <$> child_of p kv.1)
          (map_to_list fs)).

(** The tree below [p] is gone, [p] included. *)
Definition remove_tree (p : path) (fs : FS) : FS :=
  filter (λ kv : path * inode, ¬ p `prefix_of` kv.1) fs.

(** The error codes of the model; [EIO] is what a refused call reports. *)
Inductive errno := ENOENT | ENOTDIR | EISDIR | ENAMETOOLONG | EIO.

(** [mkdir_from pre rest fs] creates the missing directories
    [pre ++ take i rest], the shortest first; a file in the way is
    [ENOTDIR]. *)
Fixpoint mkdir_from (pre rest : path) (fs : FS) : errno + FS :=
  match rest with
  | [] => inr fs
  | n :: rest' =>
      let q := pre ++ [n] in
      match fs !! q with
      | Some IDir => mkdir_from q rest' fs
      | Some (IFile _) => inl ENOTDIR
      | None => mkdir_from q rest' (<[q := IDir]> fs)
      end
  end.

(** ** Errors and printed lines *)

Inductive syscall :=
| SysReadFile (p : path)
| SysWriteFile (p : path)
| SysRemoveAll (p : path)
| SysMkdirAll (p : path)
| SysReadDir (p : path)
| SysOpen (p : path)
| SysCreate (p : path)
| SysCopy (dst src : path)
| SysExec (cacheDir : path).

Definition syscall_path (c : syscall) : path :=
  match c with
  | SysReadFile p | SysWriteFile p | SysRemoveAll p | SysMkdirAll p
  | SysReadDir p | SysOpen p | SysCreate p => p
  | SysCopy _ _ | SysExec _ => []
  end.

(** Go [error] values: what a system call reports, what the libraries
    report, and [fmt.Errorf("<msg>: %v", err)]. *)
Inductive error :=
| PathError (op : syscall) (code : errno)
| SyntaxError
| MarshalError
| ExitError
| StackExhausted
| Errorf (msg : string) (cause : error).

(** The functions whose calls the trace records. *)
Inductive callee := FnBackup | FnRunTrivy | FnRestore | FnStamp.

#[global] Instance callee_eq_dec : EqDecision callee.
Proof. solve_decision. Defined.

(** One constructor per print statement of the program; [EvCall] marks the
    entry of a function and prints nothing. *)
Inductive event :=
| EvCall (f : callee)
| ErrorReadingMetadata (err : error)        (* line 154 *)
| ExecutingDownload                         (* line 155 *)
| ErrorBackingUp (err : error)              (* lines 157, 178 *)
| ToolError (err : error)                   (* lines 161, 182 *)
| UpdateFailedRestoring                     (* lines 162, 183 *)
| ErrorRestoring (err : error)              (* lines 164, 185 *)
| NextUpdateAt (t : time_Time)              (* lines 170, 192, 196 *)
| UpdatingDB                                (* line 176 *)
| UpdateComplete                            (* line 189 *)
| UpToDate                                  (* line 195 *)
| BackedUp (cacheDir backupDir : path)      (* line 90 *)
| DelayNextUpdate (t : time_Time)           (* line 111 *)
| Restored (cacheDir backupDir : path).     (* line 131 *)

(** ** The environment and the world *)

Record Env := mkEnv {
  (** the system calls that are refused with an I/O error whatever the
      filesystem holds; a refused call changes nothing *)
  fault : syscall → bool;
  (** the deepest path the system accepts, in components *)
  path_max : nat;
  (** what the [n]-th call of [time.Now()] returns *)
  clock : nat → time_Time;
  (** [json.Unmarshal(file, &metadata)] on a zero [MetadataJSON] *)
  json_Unmarshal : string → option MetadataJSON;
  (** [json.Marshal(metadata)] *)
  json_Marshal : MetadataJSON → option string;
  (** [trivy image --cache-dir <dir> --download-db-only]: whether it exits
      with status zero, and the filesystem it leaves *)
  trivy : path → FS → bool * FS;
}.

Record World := mkWorld {
  fs : FS;
  ticks : nat;
  out : list event;
}.

Definition with_fs (f : FS) (w : World) : World :=
  {| fs := f; ticks := ticks w; out := out w |}.

(** ** Computations: state and error *)

Inductive result (A : Type) :=
| Ok (a : A)
| Err (e : error).
Arguments Ok {A} a.
Arguments Err {A} e.

Definition M (A : Type) : Type := World → result A * World.

Definition ret {A} (a : A) : M A := λ w, (Ok a, w).
Definition throw {A} (e : error) : M A := λ w, (Err e, w).
Definition bind {A B} (c : M A) (k : A → M B) : M B :=
  λ w, match c w with
       | (Ok a, w') => k a w'
       | (Err e, w') => (Err e, w')
       end.

(** [x, err := c]: the error is a value the caller inspects. *)
Definition try {A} (c : M A) : M (result A) :=
  λ w, let '(r, w') := c w in (Ok r, w').

(** [if err != nil { return fmt.Errorf("<msg>: %v", err) }]. *)
Definition wrap {A} (msg : string) (c : M A) : M A :=
  λ w, match c w with
       | (Ok a, w') => (Ok a, w')
       | (Err e, w') => (Err (Errorf msg e), w')
       end.

Definition emit (e : event) : M unit :=
  λ w, (Ok tt, {| fs := fs w; ticks := ticks w; out := out w ++ [e] |}).

Notation "'let*' x ':=' c 'in' k" := (bind c (λ x, k))
  (at level 10, x pattern, c at level 100, k at level 200).
Notation "c ';;;' k" := (bind c (λ _, k))
  (at level 100, k at level 200, right associativity).

(** [for _, x := range xs { if err := body(x); err != nil { return err } }]. *)
Fixpoint forM_ {A} (xs : list A) (body : A → M unit) : M unit :=
  match xs with
  | [] => ret tt
  | x :: xs' => body x ;;; forM_ xs' body
  end.

Section Program.

Variable E : Env.

(** ** System calls *)

(** The error a call fails with before it looks at the filesystem. *)
Definition denied (c : syscall) : option errno :=
  if fault E c then Some EIO
  else if decide (path_max E < length (syscall_path c)) then Some ENAMETOOLONG
  else None.

Definition sys {A} (c : syscall) (f : FS → errno + (A * FS)) : M A :=
  λ w, match denied c with
       | Some code => (Err (PathError c code), w)
       | None =>
           match f (fs w) with
           | inl code => (Err (PathError c code), w)
           | inr (a, fs') => (Ok a, with_fs fs' w)
           end
       end.

Definition os_ReadFile (p : path) : M string :=
  sys (SysReadFile p) (λ fs,
    match stat fs p with
    | Some (IFile data) => inr (data, fs)
    | Some IDir => inl EISDIR
    | None => inl ENOENT
    end).

(** Create or truncate, then write. *)
Definition os_WriteFile (p : path) (data : string) : M unit :=
  sys (SysWriteFile p) (λ fs,
    match stat fs p with
    | Some (IFile _) => inr (tt, <[p := IFile data]> fs)
    | Some IDir => inl EISDIR
    | None =>
        match stat fs (parent p) with
        | Some IDir => inr (tt, <[p := IFile data]> fs)
        | Some (IFile _) => inl ENOTDIR
        | None => inl ENOENT
        end
    end).

Definition os_RemoveAll (p : path) : M unit :=
  sys (SysRemoveAll p) (λ fs, inr (tt, remove_tree p fs)).

Definition os_MkdirAll (p : path) : M unit :=
  sys (SysMkdirAll p) (λ fs,
    match mkdir_from [] p fs with
    | inl code => inl code
    | inr fs' => inr (tt, fs')
    end).

Definition os_ReadDir (p : path) : M (list (string * bool)) :=
  sys (SysReadDir p) (λ fs,
    match stat fs p with
    | Some IDir => inr (dir_entries fs p, fs)
    | Some (IFile _) => inl ENOTDIR
    | None => inl ENOENT
    end).

(** An open file is named by its path: nothing renames or removes a file
    between its [os.Open] and the [io.Copy] that reads it. *)
Definition os_Open (p : path) : M path :=
  sys (SysOpen p) (λ fs,
    match stat fs p with
    | Some _ => inr (p, fs)
    | None => inl ENOENT
    end).

Definition os_Create (p : path) : M path :=
  sys (SysCreate p) (λ fs,
    match stat fs p with
    | Some (IFile _) => inr (p, <[p := IFile ""]> fs)
    | Some IDir => inl EISDIR
    | None =>
        match stat fs (parent p) with
        | Some IDir => inr (p, <[p := IFile ""]> fs)
        | Some (IFile _) => inl ENOTDIR
        | None => inl ENOENT
        end
    end).

Definition io_Copy (dstFile srcFile : path) : M unit :=
  sys (SysCopy dstFile srcFile) (λ fs,
    match stat fs srcFile with
    | Some (IFile data) => inr (tt, <[dstFile := IFile data]> fs)
    | Some IDir => inl EISDIR
    | None => inl ENOENT
    end).

Definition time_Now : M time_Time :=
  λ w, (Ok (clock E (ticks w)),
        {| fs := fs w; ticks := S (ticks w); out := out w |}).

(** [cmd.Run()] of line 141. *)
Definition cmd_Run (cacheDir : path) : M unit :=
  λ w, if fault E (SysExec cacheDir) then (Err ExitError, w)
       else let '(ok, fs') := trivy E cacheDir (fs w) in
            (if ok then Ok tt else Err ExitError, with_fs fs' w).

(** ** The program *)

(** Lines 22-34. *)
Definition readMetadata (metadataPath : path) : M MetadataJSON :=
  let* file := wrap "failed to read metadata file" (os_ReadFile metadataPath) in
  match json_Unmarshal E file with
  | None => throw (Errorf "failed to parse metadata JSON" SyntaxError)
  | Some metadata => ret metadata
  end.

(** Lines 37-75.  [depth] bounds the nesting of the recursive calls; see
    [copyDir]. *)
Fixpoint copyDir_rec (depth : nat) (src dst : path) : M unit :=
  match depth with
  | 0 => throw StackExhausted
  | S depth' =>
      os_MkdirAll dst ;;;
      let* entries := os_ReadDir src in
      forM_ entries (λ entry,
        let srcPath := src ++ [entry.1] in
        let dstPath := dst ++ [entry.1] in
        if entry.2 then
          copyDir_rec depth' srcPath dstPath
        else
          let* srcFile := os_Open srcPath in
          let* dstFile := os_Create dstPath in
          io_Copy dstFile srcFile)
  end.

(** Every call starts with [os.MkdirAll(dst)] and recurses on a destination
    one component longer, so the nesting never exceeds [path_max]
    ([copyDir_rec_total] below). *)
Definition copyDir (src dst : path) : M unit :=
  copyDir_rec (S (S (path_max E))) src dst.

Definition backupDir : path := ["tmp"; "trivy_save"].

(** Lines 77-92. *)
Definition backupTrivyDB (cacheDir : path) : M unit :=
  emit (EvCall FnBackup) ;;;
  try (os_RemoveAll backupDir) ;;;
  wrap "failed to create backup directory" (os_MkdirAll backupDir) ;;;
  wrap "failed to copy directory" (copyDir cacheDir backupDir) ;;;
  emit (BackedUp cacheDir backupDir).

(** Lines 94-113. *)
Definition updateMetadataNextUpdate (metadataPath : path) : M unit :=
  emit (EvCall FnStamp) ;;;
  let* metadata := readMetadata metadataPath in
  let* now := time_Now in
  let metadata := set_NextUpdate (time_Add now (4 * time_Hour)) metadata in
  match json_Marshal E metadata with
  | None => throw (Errorf "failed to marshal updated metadata" MarshalError)
  | Some updatedData =>
      wrap "failed to write updated metadata" (os_WriteFile metadataPath updatedData) ;;;
      emit (DelayNextUpdate (NextUpdate metadata))
  end.

(** Lines 115-133. *)
Definition restoreTrivyDB (cacheDir : path) : M unit :=
  emit (EvCall FnRestore) ;;;
  wrap "failed to remove current directory" (os_RemoveAll cacheDir) ;;;
  wrap "failed to restore from backup" (copyDir backupDir cacheDir) ;;;
  let metadataPath := cacheDir ++ ["db"; "metadata.json"] in
  wrap "failed to update metadata timestamp" (updateMetadataNextUpdate metadataPath) ;;;
  emit (Restored cacheDir backupDir).

(** Lines 135-145. *)
Definition runTrivyUpdateCommand (cacheDir : path) : M unit :=
  emit (EvCall FnRunTrivy) ;;;
  wrap "trivy command failed" (cmd_Run cacheDir).

(** Lines 147-198.  [main] returns nothing: every error ends in a printed
    line. *)
Definition main (cacheDir : path) : M unit :=
  let metadataFile := cacheDir ++ ["db"; "metadata.json"] in
  let* r := try (readMetadata metadataFile) in
  match r with
  | Err err =>
      emit (ErrorReadingMetadata err) ;;;
      emit ExecutingDownload ;;;
      let* b := try (backupTrivyDB cacheDir) in
      match b with
      | Err err => emit (ErrorBackingUp err)
      | Ok _ =>
          let* t := try (runTrivyUpdateCommand cacheDir) in
          match t with
          | Err err =>
              emit (ToolError err) ;;;
              emit UpdateFailedRestoring ;;;
              let* rs := try (restoreTrivyDB cacheDir) in
              match rs with
              | Err restoreErr => emit (ErrorRestoring restoreErr)
              | Ok _ => ret tt
              end
          | Ok _ =>
              let* n := try (readMetadata metadataFile) in
              match n with
              | Ok newMetadata => emit (NextUpdateAt (NextUpdate newMetadata))
              | Err _ => ret tt
              end
          end
      end
  | Ok metadata =>
      let* now := time_Now in
      if time_After now (NextUpdate metadata) then
        emit UpdatingDB ;;;
        let* b := try (backupTrivyDB cacheDir) in
        match b with
        | Err err => emit (ErrorBackingUp err)
        | Ok _ =>
            let* t := try (runTrivyUpdateCommand cacheDir) in
            match t with
            | Err err =>
                emit (ToolError err) ;;;
                emit UpdateFailedRestoring ;;;
                let* rs := try (restoreTrivyDB cacheDir) in
                match rs with
                | Err restoreErr => emit (ErrorRestoring restoreErr)
                | Ok _ => ret tt
                end
            | Ok _ =>
                emit UpdateComplete ;;;
                let* n := try (readMetadata metadataFile) in
                match n with
                | Ok newMetadata => emit (NextUpdateAt (NextUpdate newMetadata))
                | Err _ => ret tt
                end
            end
        end
      else
        emit UpToDate ;;;
        emit (NextUpdateAt (NextUpdate metadata))
  end.

End Program.

(** ** [encoding/json] on [MetadataJSON], on a fragment of JSON

    [GoJSON.Marshal] is what [json.Marshal] prints for the struct.
    [GoJSON.Unmarshal] reads an object whose member values are integers,
    strings without escapes, [null], [true] or [false], with white space
    between the tokens; member names match the struct's fields as
    [encoding/json] matches them (ASCII case folded), a later member
    overwrites an earlier one, unknown members are skipped and [null] leaves
    a field as it is.  Everything else (nested values, escapes, fractions,
    exponents) is outside the fragment and rejected. *)

Module GoJSON.

Local Open Scope Z_scope.

Definition digit_of (c : ascii) : option Z :=
  let n := Z.of_N (N_of_ascii c) in
  if decide (48 ≤ n ≤ 57) then Some (n - 48) else None.

Definition digit_char (d : Z) : ascii := ascii_of_N (Z.to_N (48 + d mod 10)).

(** The [k] low decimal digits of [n], most significant first. *)
Fixpoint pad (k : nat) (n : Z) : list ascii :=
  match k with
  | O => []
  | S k' => pad k' (n / 10) ++ [digit_char n]
  end.

Fixpoint decimal_rec (fuel : nat) (n : Z) : list ascii :=
  match fuel with
  | O => []
  | S fuel' =>
      if decide (n < 10) then [digit_char n]
      else decimal_rec fuel' (n / 10) ++ [digit_char n]
  end.

Definition decimal (n : Z) : list ascii :=
  if decide (n < 0)
  then "-"%char :: decimal_rec (S (Z.to_nat (Z.log2 (- n)))) (- n)
  else decimal_rec (S (Z.to_nat (Z.log2 n))) n.

(** Days since 1970-01-01 of a date of the proleptic Gregorian calendar,
    and back. *)
Definition days_from_civil (y m d : Z) : Z :=
  let y' := if decide (m ≤ 2) then y - 1 else y in
  let era := y' / 400 in
  let yoe := y' - era * 400 in
  let doy := (153 * (if decide (2 < m) then m - 3 else m + 9) + 2) / 5 + d - 1 in
  let doe := yoe * 365 + yoe / 4 - yoe / 100 + doy in
  era * 146097 + doe - 719468.

Definition civil_from_days (z : Z) : Z * Z * Z :=
  let z' := z + 719468 in
  let era := z' / 146097 in
  let doe := z' - era * 146097 in
  let yoe := (doe - doe / 1460 + doe / 36524 - doe / 146096) / 365 in
  let doy := doe - (365 * yoe + yoe / 4 - yoe / 100) in
  let mp := (5 * doy + 2) / 153 in
  let d := doy - (153 * mp + 2) / 5 + 1 in
  let m := if decide (mp < 10) then mp + 3 else mp - 9 in
  let y := yoe + era * 400 in
  (if decide (m ≤ 2) then y + 1 else y, m, d).

Definition days_in_month (y m : Z) : Z :=
  if decide (m = 2) then
    if decide (y mod 4 = 0 ∧ (y mod 100 ≠ 0 ∨ y mod 400 = 0)) then 29 else 28
  else if decide (m = 4 ∨ m = 6 ∨ m = 9 ∨ m = 11) then 30 else 31.

Definition ns_per_s : Z := 1000000000.

(** Nine fraction digits with the trailing zeros dropped; nothing for zero. *)
Fixpoint trim_zeros (k : nat) (n : Z) : list ascii :=
  match k with
  | O => []
  | S k' => if decide (n mod 10 = 0) then trim_zeros k' (n / 10) else pad k n
  end.

(** [t.Format(time.RFC3339Nano)], which [Time.MarshalJSON] quotes; [None]
    where [MarshalJSON] reports a year or zone offset out of range. *)
Definition format_RFC3339Nano (t : time_Time) : option (list ascii) :=
  let wall := unix_ns t + zone_min t * 60 * ns_per_s in
  let secs := wall / ns_per_s in
  let nanos := wall mod ns_per_s in
  let '(y, m, d) := civil_from_days (secs / 86400) in
  let rem := secs mod 86400 in
  let off := Z.abs (zone_min t) in
  if decide (0 ≤ y ≤ 9999 ∧ off < 24 * 60) then
    Some (pad 4 y ++ ["-"%char] ++ pad 2 m ++ ["-"%char] ++ pad 2 d ++ ["T"%char]
          ++ pad 2 (rem / 3600) ++ [":"%char] ++ pad 2 (rem mod 3600 / 60)
          ++ [":"%char] ++ pad 2 (rem mod 60)
          ++ (if decide (nanos = 0) then [] else "."%char :: trim_zeros 9 nanos)
          ++ (if decide (zone_min t = 0) then ["Z"%char]
              else (if decide (zone_min t < 0) then "-"%char else "+"%char)
                   :: pad 2 (off / 60) ++ [":"%char] ++ pad 2 (off mod 60)))
  else None.

(** [n] digits read as a number. *)
Fixpoint read_digits (n : nat) (acc : Z) (s : list ascii) : option (Z * list ascii) :=
  match n with
  | O => Some (acc, s)
  | S n' =>
      match s with
      | c :: s' => d ← digit_of c; read_digits n' (acc * 10 + d) s'
      | [] => None
      end
  end.

Definition expect (c : ascii) (s : list ascii) : option (list ascii) :=
  match s with
  | c' :: s' => if decide (c = c') then Some s' else None
  | [] => None
  end.

(** Up to nine fraction digits, as nanoseconds. *)
Fixpoint read_fraction (k : nat) (acc : Z) (s : list ascii) : Z * list ascii :=
  match k with
  | O => (acc, s)
  | S k' =>
      match s with
      | c :: s' =>
          match digit_of c with
          | Some d => read_fraction k' (acc + d * 10 ^ Z.of_nat k') s'
          | None => (acc, s)
          end
      | [] => (acc, s)
      end
  end.

Definition parse_zone (s : list ascii) : option Z :=
  match s with
  | ["Z"%char] => Some 0
  | sign :: s1 =>
      '(hh, s2) ← read_digits 2 0 s1;
      s3 ← expect ":"%char s2;
      '(mm, s4) ← read_digits 2 0 s3;
      if decide (s4 = [] ∧ hh < 24 ∧ mm < 60) then
        if decide (sign = "+"%char) then Some (hh * 60 + mm)
        else if decide (sign = "-"%char) then Some (- (hh * 60 + mm))
        else None
      else None
  | [] => None
  end.

(** [time.Parse(time.RFC3339, s)] as [Time.UnmarshalJSON] uses it, for an
    upper-case [T] and [Z] and a fraction of at most nine digits. *)
Definition parse_RFC3339 (s : list ascii) : option time_Time :=
  '(y, s) ← read_digits 4 0 s;
  s ← expect "-"%char s;
  '(m, s) ← read_digits 2 0 s;
  s ← expect "-"%char s;
  '(d, s) ← read_digits 2 0 s;
  s ← expect "T"%char s;
  '(hh, s) ← read_digits 2 0 s;
  s ← expect ":"%char s;
  '(mi, s) ← read_digits 2 0 s;
  s ← expect ":"%char s;
  '(ss, s) ← read_digits 2 0 s;
  '(nanos, s) ← match s with
                 | "."%char :: c :: s' =>
                     _ ← digit_of c; Some (read_fraction 9 0 (c :: s'))
                 | _ => Some (0, s)
                 end;
  zone ← parse_zone s;
  if decide (1 ≤ m ≤ 12 ∧ 1 ≤ d ≤ days_in_month y m ∧ hh < 24 ∧ mi < 60 ∧ ss < 60) then
    let secs := days_from_civil y m d * 86400 + hh * 3600 + mi * 60 + ss in
    Some {| unix_ns := secs * ns_per_s + nanos - zone * 60 * ns_per_s;
            zone_min := zone |}
  else None.

(** The double quote, and a text between double quotes. *)
Definition dq : ascii := ascii_of_N 34.
Definition quote (s : list ascii) : list ascii := dq :: s ++ [dq].
Definition key (name : string) : list ascii :=
  quote (String.list_ascii_of_string name) ++ [":"%char].

Definition Marshal (m : MetadataJSON) : option string :=
  nu ← format_RFC3339Nano (NextUpdate m);
  ua ← format_RFC3339Nano (UpdatedAt m);
  da ← format_RFC3339Nano (DownloadedAt m);
  Some (String.string_of_list_ascii
    ("{"%char :: key "Version" ++ decimal (Version m)
     ++ ","%char :: key "NextUpdate" ++ quote nu
     ++ ","%char :: key "UpdatedAt" ++ quote ua
     ++ ","%char :: key "DownloadedAt" ++ quote da
     ++ ["}"%char])).

(** The value of a member, within the fragment. *)
Inductive value :=
| VNum (n : Z)
| VStr (s : list ascii)
| VNull
| VBool (b : bool).

Definition is_ws (c : ascii) : bool :=
  bool_decide (N_of_ascii c ∈ [32; 9; 10; 13]%N).

Fixpoint skip_ws (s : list ascii) : list ascii :=
  match s with
  | c :: s' => if is_ws c then skip_ws s' else s
  | [] => []
  end.

(** The characters up to the closing quote; a backslash or a control
    character is outside the fragment. *)
Fixpoint read_string (s : list ascii) : option (list ascii * list ascii) :=
  match s with
  | [] => None
  | c :: s' =>
      if decide (c = dq) then Some ([], s')
      else if decide (c = ascii_of_N 92 ∨ (N_of_ascii c < 32)%N) then None
      else '(r, rest) ← read_string s'; Some (c :: r, rest)
  end.

Fixpoint read_nat (acc : Z) (s : list ascii) : Z * list ascii :=
  match s with
  | c :: s' =>
      match digit_of c with
      | Some d => read_nat (acc * 10 + d) s'
      | None => (acc, s)
      end
  | [] => (acc, s)
  end.

(** An integer literal: no leading zero, no fraction, no exponent. *)
Definition read_int (s : list ascii) : option (Z * list ascii) :=
  let '(neg, s1) := match s with
                    | "-"%char :: s' => (true, s')
                    | _ => (false, s)
                    end in
  match s1 with
  | c :: s2 =>
      _ ← digit_of c;
      let '(n, rest) := if decide (c = "0"%char) then (0, s2) else read_nat 0 s1 in
      match rest with
      | c' :: _ =>
          if decide (is_Some (digit_of c') ∨ c' = "."%char ∨ c' = "e"%char ∨ c' = "E"%char)
          then None else Some (if neg then - n else n, rest)
      | [] => Some (if neg then - n else n, rest)
      end
  | [] => None
  end.

Fixpoint read_literal (lit s : list ascii) : option (list ascii) :=
  match lit with
  | [] => Some s
  | c :: lit' => s' ← expect c s; read_literal lit' s'
  end.

Definition read_value (s : list ascii) : option (value * list ascii) :=
  match s with
  | c :: s' =>
      if decide (c = dq) then '(str, rest) ← read_string s'; Some (VStr str, rest)
      else if decide (c = "n"%char) then
        rest ← read_literal (String.list_ascii_of_string "null") s; Some (VNull, rest)
      else if decide (c = "t"%char) then
        rest ← read_literal (String.list_ascii_of_string "true") s; Some (VBool true, rest)
      else if decide (c = "f"%char) then
        rest ← read_literal (String.list_ascii_of_string "false") s; Some (VBool false, rest)
      else '(n, rest) ← read_int s; Some (VNum n, rest)
  | [] => None
  end.

Definition lower (c : ascii) : ascii :=
  let n := N_of_ascii c in
  if decide (65 ≤ n ≤ 90)%N then ascii_of_N (n + 32) else c.

(** A member name names a field when they are equal up to ASCII case. *)
Definition names (k : list ascii) (field : string) : bool :=
  bool_decide (lower <$> k = lower <$> String.list_ascii_of_string field).

Definition as_int (v : value) (old : Z) : option Z :=
  match v with
  | VNum n => if decide (- 2 ^ 63 ≤ n < 2 ^ 63) then Some n else None
  | VNull => Some old
  | _ => None
  end.

Definition as_time (v : value) (old : time_Time) : option time_Time :=
  match v with
  | VStr s => parse_RFC3339 s
  | VNull => Some old
  | _ => None
  end.

Definition assign (k : list ascii) (v : value) (m : MetadataJSON) : option MetadataJSON :=
  if names k "Version" then
    n ← as_int v (Version m);
    Some {| Version := n; NextUpdate := NextUpdate m;
            UpdatedAt := UpdatedAt m; DownloadedAt := DownloadedAt m |}
  else if names k "NextUpdate" then
    t ← as_time v (NextUpdate m);
    Some {| Version := Version m; NextUpdate := t;
            UpdatedAt := UpdatedAt m; DownloadedAt := DownloadedAt m |}
  else if names k "UpdatedAt" then
    t ← as_time v (UpdatedAt m);
    Some {| Version := Version m; NextUpdate := NextUpdate m;
            UpdatedAt := t; DownloadedAt := DownloadedAt m |}
  else if names k "DownloadedAt" then
    t ← as_time v (DownloadedAt m);
    Some {| Version := Version m; NextUpdate := NextUpdate m;
            UpdatedAt := UpdatedAt m; DownloadedAt := t |}
  else Some m.

(** The members of an object, from the opening quote of a name to the
    closing brace. *)
Fixpoint read_members (fuel : nat) (s : list ascii) (m : MetadataJSON)
  : option (MetadataJSON * list ascii) :=
  match fuel with
  | O => None
  | S fuel' =>
      s ← expect dq s;
      '(k, s) ← read_string s;
      s ← expect ":"%char (skip_ws s);
      '(v, s) ← read_value (skip_ws s);
      m ← assign k v m;
      match skip_ws s with
      | c :: s' =>
          if decide (c = ","%char) then read_members fuel' (skip_ws s') m
          else if decide (c = "}"%char) then Some (m, s')
          else None
      | [] => None
      end
  end.

(** The zero [time.Time]: January 1, year 1, 00:00:00 UTC. *)
Definition zero_time : time_Time :=
  {| unix_ns := -62135596800 * ns_per_s; zone_min := 0 |}.

Definition zero : MetadataJSON :=
  {| Version := 0; NextUpdate := zero_time;
     UpdatedAt := zero_time; DownloadedAt := zero_time |}.

Definition Unmarshal (doc : string) : option MetadataJSON :=
  s ← expect "{"%char (skip_ws (String.list_ascii_of_string doc));
  '(m, s) ← match skip_ws s with
            | c :: s' =>
                if decide (c = "}"%char) then Some (zero, s')
                else read_members (length s) (c :: s') zero
            | [] => None
            end;
  if decide (skip_ws s = []) then Some m else None.

(** Documents are written with ['] for the double quote. *)
Definition json (s : string) : string :=
  String.string_of_list_ascii
    ((λ c, if decide (c = "'"%char) then dq else c) <$> String.list_ascii_of_string s).

End GoJSON.

(** ** The vocabulary of the properties *)

(** One of the two paths leads to the other. *)
Definition related (p q : path) : Prop := p `prefix_of` q ∨ q `prefix_of` p.

#[global] Instance related_dec (p q : path) : Decision (related p q).
Proof. unfold related. apply _. Defined.

(** [frame dst fs fs']: going from [fs] to [fs'], nothing outside the tree
    below [dst] has changed, except that directories leading to [dst] may
    have been created. *)
Definition frame (dst : path) (fs fs' : FS) : Prop :=
  ∀ k, ¬ dst `prefix_of` k →
    fs' !! k = fs !! k ∨ (k `prefix_of` dst ∧ k ≠ [] ∧ fs !! k = None ∧ fs' !! k = Some IDir).

(** Below [src], whatever exists has a directory as its parent. *)
Definition tree_wf (src : path) (fs : FS) : Prop :=
  ∀ rel n, is_Some (fs !! (src ++ rel ++ [n])) → stat fs (src ++ rel) = Some IDir.

(** The whole filesystem is well formed: every entry lies in a directory. *)
Definition wf (fs : FS) : Prop :=
  map_Forall (λ k _, stat fs (parent k) = Some IDir) fs.

#[global] Instance wf_dec (fs : FS) : Decision (wf fs).
Proof. unfold wf. apply _. Defined.

(** Nothing is below [dst]. *)
Definition empty_below (dst : path) (fs : FS) : Prop :=
  ∀ rel, rel ≠ [] → fs !! (dst ++ rel) = None.

(** [c] relates every world to the world it leaves, whatever it returns. *)
Definition preserves {A} (R : relation World) (c : M A) : Prop :=
  ∀ w r w', c w = (r, w') → R w w'.

(** The relations the program's functions preserve: the filesystem changes
    only below [dst]; the clock is not read; nothing is printed. *)
Definition writes_below (dst : path) (w w' : World) : Prop :=
  frame dst (fs w) (fs w') ∧ ticks w' = ticks w.

Definition only_writes_below (dst : path) (w w' : World) : Prop :=
  frame dst (fs w) (fs w') ∧ ticks w' = ticks w ∧ out w' = out w.

(** The result of [c] and the filesystem it leaves depend on the filesystem
    only, not on the clock readings or the lines printed so far. *)
Definition fs_det {A} (c : M A) : Prop :=
  ∀ w1 w2, fs w1 = fs w2 → (c w1).1 = (c w2).1 ∧ fs (c w1).2 = fs (c w2).2.

(** The functions called, in order, in a list of events. *)
Definition calls (l : list event) : list callee :=
  omap (λ e, match e with EvCall f => Some f | _ => None end) l.

(** The metadata file of a cache directory. *)
Definition metadata_of (cacheDir : path) : path := cacheDir ++ ["db"; "metadata.json"].

(** Whether [main] starts a refresh, given what its first [readMetadata]
    returned in the world [w]: the read failed, or the clock reads strictly
    after [NextUpdate] (line 175). *)
Definition due (E : Env) (w : World) (r : result MetadataJSON) : bool :=
  match r with
  | Err _ => true
  | Ok m => time_After (clock E (ticks w)) (NextUpdate m)
  end.

(** The same, spelled out on the instants. *)
Definition refresh_due (E : Env) (w : World) (r : result MetadataJSON) : Prop :=
  match r with
  | Err _ => True
  | Ok m => (unix_ns (NextUpdate m) < unix_ns (clock E (ticks w)))%Z
  end.

(** The world in which [main] then calls [backupTrivyDB]: lines 154-155
    have printed, or the clock has been read and line 176 has printed. *)
Definition announced (r : result MetadataJSON) (w : World) : World :=
  match r with
  | Err err => {| fs := fs w; ticks := ticks w;
                  out := out w ++ [ErrorReadingMetadata err; ExecutingDownload] |}
  | Ok _ => {| fs := fs w; ticks := S (ticks w); out := out w ++ [UpdatingDB] |}
  end.

(** What line 189 prints, in the branch that has it. *)
Definition completed (r : result MetadataJSON) : list event :=
  match r with
  | Err _ => []
  | Ok _ => [UpdateComplete]
  end.

(** The world [w] after the lines [l] are printed. *)
Definition say (l : list event) (w : World) : World :=
  {| fs := fs w; ticks := ticks w; out := out w ++ l |}.

(** The external tool writes below the cache directory only. *)
Definition tool_confined (E : Env) (cacheDir : path) : Prop :=
  ∀ fs k, ¬ cacheDir `prefix_of` k → (trivy E cacheDir fs).2 !! k = fs !! k.


(** The entry at [dst] is as it was, or has become a directory. *)
Definition dst_kept (dst : path) (w w' : World) : Prop :=
  fs w' !! dst = fs w !! dst ∨ fs w' !! dst = Some IDir.

(** [backupTrivyDB] after its [os.RemoveAll], when that is not refused. *)
Definition backup_rest (E : Env) (c : path) : M unit :=
  wrap "failed to create backup directory" (os_MkdirAll E backupDir) ;;;
  wrap "failed to copy directory" (copyDir E c backupDir) ;;;
  emit (BackedUp c backupDir).

(** Nothing is removed and nothing changes its kind: what was a file is a
    file, what was a directory is a directory. *)
Definition entries_kept (w w' : World) : Prop :=
  ∀ k v, fs w !! k = Some v → ∃ v', fs w' !! k = Some v' ∧ is_dir v' = is_dir v.

(** What is at [rel] when the tree below [src] is laid over the tree below
    [dst]: the entry of [src], and where it has none the entry of [dst]. *)
Definition overlaid (src dst : path) (fs : FS) (rel : path) : option inode :=
  match fs !! (src ++ rel) with
  | Some v => Some v
  | None => fs !! (dst ++ rel)
  end.

(** A character that [GoJSON.read_string] takes as it is. *)
Definition plain (c : ascii) : Prop :=
  c ≠ GoJSON.dq ∧ c ≠ ascii_of_N 92 ∧ ¬ (N_of_ascii c < 32)%N.

#[global] Instance plain_dec (c : ascii) : Decision (plain c).
Proof. unfold plain. apply _. Defined.

(** ** Concrete worlds *)

#[global] Instance errno_eq_dec : EqDecision errno.
Proof. solve_decision. Defined.

#[global] Instance syscall_eq_dec : EqDecision syscall.
Proof. solve_decision. Defined.

Module Demo.

Definition cache : path := ["tmp"; "trivy"].
Definition meta : path := cache ++ ["db"; "metadata.json"].

(** 2024-01-01T00:00:00Z, in nanoseconds. *)
Definition t0 : Z := 1704067200 * 1000000000.

Definition at_ns (ns : Z) : time_Time := {| unix_ns := ns; zone_min := 0 |}.

(** The metadata document as [json.Marshal] prints it, and the record it
    holds. *)
Definition doc0 : string :=
  GoJSON.json "{'Version':2,'NextUpdate':'2024-01-01T00:00:00Z','UpdatedAt':'2023-12-31T18:00:00Z','DownloadedAt':'2023-12-31T18:05:00Z'}".

Definition m0 : MetadataJSON :=
  {| Version := 2;
     NextUpdate := at_ns t0;
     UpdatedAt := at_ns (t0 - 6 * time_Hour);
     DownloadedAt := at_ns (t0 - 6 * time_Hour + 300 * 1000000000) |}.

(** The same document with a line feed after it, as [json.Encoder.Encode]
    writes one. *)
Definition line_feed : string := String (ascii_of_N 10) EmptyString.
Definition doc_lf : string := doc0 +:+ line_feed.

(** [doc0] with [NextUpdate] four hours and one, or two, nanoseconds later. *)
Definition doc_stamped1 : string :=
  GoJSON.json "{'Version':2,'NextUpdate':'2024-01-01T04:00:00.000000001Z','UpdatedAt':'2023-12-31T18:00:00Z','DownloadedAt':'2023-12-31T18:05:00Z'}".

Definition doc_stamped2 : string :=
  GoJSON.json "{'Version':2,'NextUpdate':'2024-01-01T04:00:00.000000002Z','UpdatedAt':'2023-12-31T18:00:00Z','DownloadedAt':'2023-12-31T18:05:00Z'}".

(** What a successful download writes. *)
Definition doc_new : string :=
  GoJSON.json "{'Version':2,'NextUpdate':'2024-01-02T00:00:00Z','UpdatedAt':'2024-01-01T00:00:00Z','DownloadedAt':'2024-01-01T00:00:01Z'}".

Definition cache_with (metadata : list (path * inode)) : FS :=
  list_to_map
    ([ (["tmp"], IDir);
       (cache, IDir);
       (cache ++ ["db"], IDir);
       (cache ++ ["db"; "trivy.db"], IFile "DB-v1");
       (cache ++ ["fanal"], IDir);
       (cache ++ ["fanal"; "fanal.db"], IFile "F1") ] ++ metadata).

Definition start (f : FS) : World := {| fs := f; ticks := 0; out := [] |}.

(** A cache with its metadata; the same with the line feed; a cache
    without metadata; no cache directory at all; a cache beside an earlier
    backup. *)
Definition fs0 : FS := cache_with [(meta, IFile doc0)].
Definition world0 : World := start fs0.
Definition world_lf : World := start (cache_with [(meta, IFile doc_lf)]).
Definition world_bootstrap : World := start (cache_with []).
Definition world_nocache : World := start {[ ["tmp"] := IDir ]}.
Definition world_old_backup : World :=
  start (<[backupDir ++ ["old.db"] := IFile "OLD"]> (<[backupDir := IDir]> fs0)).


(** A tool that leaves a half-written database and no metadata, and exits
    non-zero. *)
Definition tool_fails (c : path) (fs : FS) : bool * FS :=
  (false, <[c ++ ["db"; "trivy.db"] := IFile "DB-v2-partial"]>
            (delete (c ++ ["db"; "metadata.json"]) fs)).

(** A tool that downloads the database and writes its metadata. *)
Definition tool_succeeds (c : path) (fs : FS) : bool * FS :=
  (true, <[c ++ ["db"; "metadata.json"] := IFile doc_new]>
           (<[c ++ ["db"; "trivy.db"] := IFile "DB-v2"]> fs)).

(** A tool that exits with status zero and leaves no metadata. *)
Definition tool_forgets (c : path) (fs : FS) : bool * FS :=
  (true, <[c ++ ["db"; "trivy.db"] := IFile "DB-v2"]>
           (delete (c ++ ["db"; "metadata.json"]) fs)).

Definition env (now : Z) (f : syscall → bool) (tool : path → FS → bool * FS) : Env :=
  {| fault := f; path_max := 64;
     clock := λ n, at_ns (now + Z.of_nat n);
     json_Unmarshal := GoJSON.Unmarshal; json_Marshal := GoJSON.Marshal;
     trivy := tool |}.

Definition no_fault : syscall → bool := λ _, false.

(** The file [fanal/fanal.db] of the cache cannot be opened. *)
Definition fanal_unreadable : syscall → bool :=
  λ c, bool_decide (c = SysOpen (cache ++ ["fanal"; "fanal.db"])).


(** The worlds a refresh goes through: after the backup, after the tool,
    after the restore. *)
Definition after_backup (E : Env) (r : result MetadataJSON) (w : World) : World :=
  (backupTrivyDB E cache (announced r w)).2.

Definition after_tool (E : Env) (r : result MetadataJSON) (w : World) : World :=
  (runTrivyUpdateCommand E cache (after_backup E r w)).2.

Definition tool_error : error := Errorf "trivy command failed" ExitError.

Definition after_restore (E : Env) (r : result MetadataJSON) (w : World) : World :=
  (restoreTrivyDB E cache (say [ToolError tool_error; UpdateFailedRestoring]
                             (after_tool E r w))).2.

(** The error of a read of the metadata file when there is none. *)
Definition no_metadata : error :=
  Errorf "failed to read metadata file" (PathError (SysReadFile meta) ENOENT).

End Demo.

(** * Properties *)

(** ** Paths *)

Lemma prefix_snoc_inv (k p : path) (n : string) :
  k `prefix_of` p ++ [n] → k `prefix_of` p ∨ k = p ++ [n].
Proof.
  intros [r Hr]. destruct (decide (r = [])) as [->|Hne].
  - right. by rewrite app_nil_r in Hr.
  - left. destruct (exists_last Hne) as (r' & x & ->).
    rewrite app_assoc in Hr. apply app_inj_tail in Hr as [-> _].
    by exists r'.
Qed.

Lemma prefix_comparable (p q k : path) :
  p `prefix_of` k → q `prefix_of` k → related p q.
Proof.
  intros Hp Hq. destruct (prefix_weak_total p q k Hp Hq); [by left | by right].
Qed.

Lemma unrelated_below (c b rel : path) : ¬ related c b → ¬ related b (c ++ rel).
Proof.
  intros Hcb [H|H].
  - apply Hcb. apply (prefix_comparable c b (c ++ rel)); [by apply prefix_app_r | done].
  - apply Hcb. left. etrans; [|exact H]. by apply prefix_app_r.
Qed.

Lemma unrelated_sym (c b : path) : ¬ related c b → ¬ related b c.
Proof. intros H [?|?]; apply H; [by right | by left]. Qed.

Lemma unrelated_snoc (src dst : path) (n : string) :
  ¬ related src dst → ¬ related (src ++ [n]) (dst ++ [n]).
Proof.
  intros H [Hp|Hp].
  - apply prefix_snoc_inv in Hp as [Hp|Hp].
    + apply H. left. etrans; [|exact Hp]. by apply prefix_app_r.
    + apply app_inj_tail in Hp as [-> _]. apply H. by left.
  - apply prefix_snoc_inv in Hp as [Hp|Hp].
    + apply H. right. etrans; [|exact Hp]. by apply prefix_app_r.
    + apply app_inj_tail in Hp as [-> _]. apply H. by left.
Qed.

Lemma child_of_Some (p k : path) (n : string) :
  child_of p k = Some n ↔ k = p ++ [n].
Proof.
  unfold child_of. split.
  - destruct (last k) as [m|]; [|done]. case_decide; [|done]. by intros [= <-].
  - intros ->. rewrite last_snoc. by rewrite decide_True.
Qed.

(** ** The filesystem operations *)

Lemma lookup_remove_tree (p k : path) (fs : FS) :
  remove_tree p fs !! k = if decide (p `prefix_of` k) then None else fs !! k.
Proof.
  unfold remove_tree. case_decide as Hp.
  - apply map_lookup_filter_None. right. intros x _ Hn. by apply Hn.
  - destruct (fs !! k) as [x|] eqn:Hk.
    + apply map_lookup_filter_Some. done.
    + apply map_lookup_filter_None. by left.
Qed.

Lemma dir_entries_elem (fs : FS) (p : path) (n : string) (d : bool) :
  (n, d) ∈ dir_entries fs p ↔ ∃ v, fs !! (p ++ [n]) = Some v ∧ d = is_dir v.
Proof.
  unfold dir_entries. rewrite merge_sort_Permutation, list_elem_of_omap. split.
  - intros ([k v] & Hin & Hf). apply elem_of_map_to_list in Hin. simpl in Hf.
    destruct (child_of p k) as [m|] eqn:Hc; simplify_eq/=.
    apply child_of_Some in Hc as ->. eauto.
  - intros (v & Hv & ->). exists (p ++ [n], v). split.
    + by apply elem_of_map_to_list.
    + simpl. by rewrite (proj2 (child_of_Some p (p ++ [n]) n) eq_refl).
Qed.

Lemma NoDup_omap_names (p : path) (l : list (path * inode)) :
  NoDup l.*1 →
  NoDup (omap (λ kv : path * inode, (λ n, (n, is_dir kv.2)) <$> child_of p kv.1) l).*1.
Proof.
  induction l as [|[k v] l IH]; simpl; [constructor|].
  intros [Hk Hl]%NoDup_cons. destruct (child_of p k) as [n|] eqn:Hc; simpl; [|by apply IH].
  apply child_of_Some in Hc as ->. apply NoDup_cons. split; [|by apply IH].
  intros Hin. apply Hk. apply list_elem_of_fmap in Hin as ([n' d] & Heq & Hin). simpl in Heq. subst n'.
  apply list_elem_of_omap in Hin as ([k' v'] & Hin' & Hf). simpl in Hf.
  destruct (child_of p k') as [m|] eqn:Hc'; simplify_eq/=.
  apply child_of_Some in Hc' as ->. apply list_elem_of_fmap. by exists (p ++ [n], v').
Qed.

Lemma dir_entries_NoDup (fs : FS) (p : path) : NoDup (dir_entries fs p).*1.
Proof.
  unfold dir_entries. rewrite merge_sort_Permutation.
  apply NoDup_omap_names, NoDup_fst_map_to_list.
Qed.

Lemma frame_refl (dst : path) (fs : FS) : frame dst fs fs.
Proof. intros k _. by left. Qed.

Lemma frame_trans (dst : path) (fs1 fs2 fs3 : FS) :
  frame dst fs1 fs2 → frame dst fs2 fs3 → frame dst fs1 fs3.
Proof.
  intros H12 H23 k Hk.
  destruct (H12 k Hk) as [E1|(Hp & Hk1 & Hn & Hd)], (H23 k Hk) as [E2|(Hp' & Hk2 & Hn' & Hd')].
  - left. congruence.
  - right. repeat split; congruence.
  - right. repeat split; congruence.
  - congruence.
Qed.

Lemma frame_snoc (dst : path) (n : string) (fs fs' : FS) :
  frame (dst ++ [n]) fs fs' → frame dst fs fs'.
Proof.
  intros H k Hk. destruct (H k) as [?|(Hp & ? & ? & ?)].
  - intros Hp. apply Hk. etrans; [|exact Hp]. by apply prefix_app_r.
  - by left.
  - right. split; [|done]. apply prefix_snoc_inv in Hp as [?| ->]; [done|].
    exfalso. apply Hk. by apply prefix_app_r.
Qed.

Lemma frame_unrelated (dst k : path) (fs fs' : FS) :
  frame dst fs fs' → ¬ related dst k → fs' !! k = fs !! k.
Proof.
  intros H Hk. destruct (H k) as [?|(Hp & _)]; [|done|].
  - intros ?. apply Hk. by left.
  - exfalso. apply Hk. by right.
Qed.

Lemma frame_insert (dst k : path) (i : inode) (fs : FS) :
  dst `prefix_of` k → frame dst fs (<[k := i]> fs).
Proof.
  intros Hk k' Hk'. left. apply lookup_insert_ne. by intros ->.
Qed.

Lemma frame_remove_tree (dst : path) (fs : FS) : frame dst fs (remove_tree dst fs).
Proof. intros k Hk. left. rewrite lookup_remove_tree. by rewrite decide_False. Qed.

Lemma mkdir_from_frame (pre rest : path) (fs fs' : FS) :
  mkdir_from pre rest fs = inr fs' → frame (pre ++ rest) fs fs'.
Proof.
  revert pre fs. induction rest as [|n rest IH]; intros pre fs; simpl.
  - intros [= ->]. apply frame_refl.
  - replace (pre ++ n :: rest) with ((pre ++ [n]) ++ rest) by by rewrite <- app_assoc.
    destruct (fs !! (pre ++ [n])) as [[d|]|] eqn:Hq; [done| |].
    + apply IH.
    + intros H%IH. eapply frame_trans; [|exact H].
      intros k Hk. destruct (decide (k = pre ++ [n])) as [->|Hne].
      * right. rewrite lookup_insert_eq. split; [by apply prefix_app_r|].
        split; [by destruct pre|done].
      * left. by apply lookup_insert_ne.
Qed.

(** After a successful [mkdir_from], every directory on the way is there. *)
Lemma mkdir_from_made (pre rest : path) (fs fs' : FS) :
  mkdir_from pre rest fs = inr fs' →
  ∀ k, k `prefix_of` pre ++ rest → ¬ k `prefix_of` pre → fs' !! k = Some IDir.
Proof.
  revert pre fs. induction rest as [|n rest IH]; intros pre fs; simpl.
  - intros _ k Hk Hnk. rewrite app_nil_r in Hk. done.
  - replace (pre ++ n :: rest) with ((pre ++ [n]) ++ rest) by by rewrite <- app_assoc.
    intros H k Hk Hnk.
    assert (∀ fs0, fs0 !! (pre ++ [n]) = Some IDir →
              mkdir_from (pre ++ [n]) rest fs0 = inr fs' → fs' !! k = Some IDir) as Hstep.
    { intros fs0 Hq H0. destruct (decide (k `prefix_of` pre ++ [n])) as [Hp|Hp].
      - apply prefix_snoc_inv in Hp as [?| ->]; [done|].
        destruct rest as [|m rest']; [simpl in H0; by simplify_eq|].
        destruct (mkdir_from_frame _ _ _ _ H0 (pre ++ [n])) as [Heq|(_ & _ & Hn & _)].
        + intros Hpp. apply prefix_length in Hpp.
          rewrite !length_app in Hpp. simpl in Hpp. lia.
        + by rewrite Heq.
        + by rewrite Hq in Hn.
      - by apply (IH _ _ H0). }
    destruct (fs !! (pre ++ [n])) as [[d|]|] eqn:Hq; [done| |].
    + by apply (Hstep fs).
    + apply (Hstep (<[pre ++ [n] := IDir]> fs)); [by rewrite lookup_insert_eq | done].
Qed.

Lemma mkdir_from_other (pre rest : path) (fs fs' : FS) :
  mkdir_from pre rest fs = inr fs' →
  ∀ k, ¬ k `prefix_of` pre ++ rest → fs' !! k = fs !! k.
Proof.
  intros H k Hk. destruct (decide ((pre ++ rest) `prefix_of` k)) as [Hp|Hp].
  - revert pre fs H Hk Hp. induction rest as [|n rest IH]; intros pre fs; simpl.
    + by intros [= ->].
    + replace (pre ++ n :: rest) with ((pre ++ [n]) ++ rest) by by rewrite <- app_assoc.
      intros H Hk Hp.
      assert (k ≠ pre ++ [n]) as Hne.
      { intros ->. apply Hk. by apply prefix_app_r. }
      destruct (fs !! (pre ++ [n])) as [[d|]|] eqn:Hq; [done| |].
      * by apply (IH (pre ++ [n])).
      * rewrite (IH (pre ++ [n]) _ H Hk Hp). by apply lookup_insert_ne.
  - destruct (mkdir_from_frame _ _ _ _ H k Hp) as [?|(? & _)]; done.
Qed.




(** ** Well-formed trees *)

Lemma stat_lookup (fs : FS) (p : path) : p ≠ [] → stat fs p = fs !! p.
Proof. by destruct p. Qed.

Lemma parent_snoc (p : path) (n : string) : parent (p ++ [n]) = p.
Proof.
  unfold parent. rewrite length_app. simpl.
  replace (length p + 1 - 1) with (length p) by lia. by rewrite take_app_length.
Qed.

Lemma wf_tree_wf (src : path) (fs : FS) : wf fs → tree_wf src fs.
Proof.
  intros H rel n [v Hv]. specialize (H _ _ Hv). simpl in H.
  by rewrite app_assoc, parent_snoc in H.
Qed.

Lemma tree_wf_app (src rel0 : path) (fs : FS) : tree_wf src fs → tree_wf (src ++ rel0) fs.
Proof.
  intros H rel n Hs. specialize (H (rel0 ++ rel) n).
  rewrite <- !app_assoc in *. by apply H.
Qed.

Lemma tree_wf_ext (src : path) (fs fs' : FS) :
  src ≠ [] → (∀ rel, fs' !! (src ++ rel) = fs !! (src ++ rel)) → tree_wf src fs → tree_wf src fs'.
Proof.
  intros Hne Heq H rel n Hs.
  assert (src ++ rel ≠ []) as Hne' by (destruct src; done).
  rewrite stat_lookup, Heq, <- stat_lookup by done. apply (H rel n). by rewrite <- Heq.
Qed.

(** Below something that is not a directory there is nothing. *)
Lemma tree_wf_leaf (src rel1 : path) (fs : FS) :
  tree_wf src fs → stat fs (src ++ rel1) ≠ Some IDir →
  ∀ rel2, rel2 ≠ [] → fs !! (src ++ rel1 ++ rel2) = None.
Proof.
  intros Hwf Hleaf rel2. induction rel2 as [|x r IH] using rev_ind; [done|]. intros _.
  destruct (fs !! (src ++ rel1 ++ r ++ [x])) as [v|] eqn:Hv; [|done]. exfalso.
  specialize (Hwf (rel1 ++ r) x). rewrite <- !app_assoc in Hwf.
  rewrite Hv in Hwf. specialize (Hwf (mk_is_Some _ _ eq_refl)).
  destruct (decide (r = [])) as [->|Hr].
  - rewrite app_nil_r in Hwf. done.
  - rewrite stat_lookup in Hwf by (destruct src, rel1, r; done).
    specialize (IH Hr). congruence.
Qed.

(** ** Computations *)

Lemma bind_inv {A B} (c : M A) (k : A → M B) (w w' : World) (r : result B) :
  bind c k w = (r, w') →
  (∃ a w1, c w = (Ok a, w1) ∧ k a w1 = (r, w')) ∨ (∃ e, c w = (Err e, w') ∧ r = Err e).
Proof.
  unfold bind. destruct (c w) as [[a|e] w1]; [left|right]; simplify_eq; eauto.
Qed.

Lemma bind_Ok_inv {A B} (c : M A) (k : A → M B) (w w' : World) (b : B) :
  bind c k w = (Ok b, w') → ∃ a w1, c w = (Ok a, w1) ∧ k a w1 = (Ok b, w').
Proof. intros [?|(e & _ & ?)]%bind_inv; [done|discriminate]. Qed.

Lemma wrap_Ok_inv {A} (msg : string) (c : M A) (w w' : World) (a : A) :
  wrap msg c w = (Ok a, w') → c w = (Ok a, w').
Proof. unfold wrap. destruct (c w) as [[?|?] ?]; by intros [= -> ->]. Qed.

Lemma wrap_inv {A} (msg : string) (c : M A) (w w' : World) (r : result A) :
  wrap msg c w = (r, w') →
  ∃ r0, c w = (r0, w') ∧ r = match r0 with Ok a => Ok a | Err e => Err (Errorf msg e) end.
Proof. unfold wrap. destruct (c w) as [[?|?] ?]; intros [= <- <-]; eauto. Qed.

Section Preserves.
Context (R : relation World) `{!PreOrder R}.

Lemma preserves_ret {A} (a : A) : preserves R (ret a).
Proof. intros w r w' [= _ <-]. reflexivity. Qed.

Lemma preserves_throw {A} (e : error) : preserves R (@throw A e).
Proof. intros w r w' [= _ <-]. reflexivity. Qed.

Lemma preserves_bind {A B} (c : M A) (k : A → M B) :
  preserves R c → (∀ a, preserves R (k a)) → preserves R (bind c k).
Proof.
  intros Hc Hk w r w' [(a & w1 & H1 & H2)|(e & H1 & _)]%bind_inv.
  - etrans; [by eapply Hc | by eapply Hk].
  - by eapply Hc.
Qed.

Lemma preserves_bind_val {A B} (P : A → Prop) (c : M A) (k : A → M B) :
  (∀ w a w', c w = (Ok a, w') → P a) →
  preserves R c → (∀ a, P a → preserves R (k a)) → preserves R (bind c k).
Proof.
  intros HP Hc Hk w r w' [(a & w1 & H1 & H2)|(e & H1 & _)]%bind_inv.
  - etrans; [by eapply Hc | eapply Hk; [by eapply HP | done]].
  - by eapply Hc.
Qed.

Lemma preserves_try {A} (c : M A) : preserves R c → preserves R (try c).
Proof.
  intros Hc w r w'. unfold try. destruct (c w) as [r0 w0] eqn:H0.
  intros [= _ <-]. by eapply Hc.
Qed.

Lemma preserves_wrap {A} (msg : string) (c : M A) :
  preserves R c → preserves R (wrap msg c).
Proof. intros Hc w r w' (r0 & H0 & _)%wrap_inv. by eapply Hc. Qed.

Lemma preserves_forM_ {A} (xs : list A) (body : A → M unit) :
  (∀ x, x ∈ xs → preserves R (body x)) → preserves R (forM_ xs body).
Proof.
  induction xs as [|x xs IH]; intros Hb; simpl.
  - apply preserves_ret.
  - apply preserves_bind; [apply Hb; left|].
    intros _. apply IH. intros y Hy. apply Hb. by right.
Qed.
End Preserves.

#[global] Instance writes_below_preorder (dst : path) : PreOrder (writes_below dst).
Proof.
  split.
  - intros w. split; [apply frame_refl | done].
  - intros w1 w2 w3 [H1 H1'] [H2 H2']. split; [by eapply frame_trans | congruence].
Qed.

#[global] Instance only_writes_below_preorder (dst : path) : PreOrder (only_writes_below dst).
Proof.
  split.
  - intros w. split; [apply frame_refl | done].
  - intros w1 w2 w3 (H1 & ? & ?) (H2 & ? & ?).
    split; [by eapply frame_trans | split; congruence].
Qed.

Lemma only_writes_below_snoc (dst : path) (n : string) (w w' : World) :
  only_writes_below (dst ++ [n]) w w' → only_writes_below dst w w'.
Proof. intros (H & ? & ?). split; [by eapply frame_snoc | done]. Qed.

Lemma only_writes_below_weaken (dst : path) (w w' : World) :
  only_writes_below dst w w' → writes_below dst w w'.
Proof. by intros (? & ? & ?). Qed.

Section Facts.

Variable E : Env.

Lemma sys_inv {A} (c : syscall) (f : FS → errno + (A * FS)) (w w' : World) (r : result A) :
  sys E c f w = (r, w') →
  (∃ code, r = Err (PathError c code) ∧ w' = w) ∨
  (∃ a fs', denied E c = None ∧ f (fs w) = inr (a, fs') ∧ r = Ok a ∧ w' = with_fs fs' w).
Proof.
  unfold sys. destruct (denied E c) as [code|]; [intros [= <- <-]; eauto|].
  destruct (f (fs w)) as [code|[a fs']]; intros [= <- <-]; eauto 10.
Qed.

Lemma preserves_sys {A} (dst : path) (c : syscall) (f : FS → errno + (A * FS)) :
  (∀ fs a fs', f fs = inr (a, fs') → frame dst fs fs') →
  preserves (only_writes_below dst) (sys E c f).
Proof.
  intros Hf w r w' [(code & _ & ->)|(a & fs' & _ & Hfs & _ & ->)]%sys_inv.
  - reflexivity.
  - split; [|done]. simpl. by eapply Hf.
Qed.

Lemma os_MkdirAll_preserves (dst : path) :
  preserves (only_writes_below dst) (os_MkdirAll E dst).
Proof.
  apply preserves_sys. intros fs a fs' H.
  destruct (mkdir_from [] dst fs) as [|fs1] eqn:Hm; simplify_eq.
  by apply (mkdir_from_frame [] dst).
Qed.

Lemma os_ReadDir_preserves (dst src : path) :
  preserves (only_writes_below dst) (os_ReadDir E src).
Proof.
  apply preserves_sys. intros fs a fs' H.
  destruct (stat fs src) as [[?|]|]; simplify_eq. apply frame_refl.
Qed.

Lemma os_Open_preserves (dst src : path) :
  preserves (only_writes_below dst) (os_Open E src).
Proof.
  apply preserves_sys. intros fs a fs' H.
  destruct (stat fs src); simplify_eq. apply frame_refl.
Qed.

Lemma os_Create_preserves (dst : path) :
  preserves (only_writes_below dst) (os_Create E dst).
Proof.
  apply preserves_sys. intros fs a fs' H.
  destruct (stat fs dst) as [[?|]|]; simplify_eq; [by apply frame_insert|].
  destruct (stat fs (parent dst)) as [[?|]|]; simplify_eq. by apply frame_insert.
Qed.

Lemma io_Copy_preserves (dst src : path) :
  preserves (only_writes_below dst) (io_Copy E dst src).
Proof.
  apply preserves_sys. intros fs a fs' H.
  destruct (stat fs src) as [[?|]|]; simplify_eq. by apply frame_insert.
Qed.

Lemma os_RemoveAll_preserves (dst : path) :
  preserves (only_writes_below dst) (os_RemoveAll E dst).
Proof.
  apply preserves_sys. intros fs a fs' [= _ <-]. apply frame_remove_tree.
Qed.

Lemma os_ReadFile_preserves (dst p : path) :
  preserves (only_writes_below dst) (os_ReadFile E p).
Proof.
  apply preserves_sys. intros fs a fs' H.
  destruct (stat fs p) as [[?|]|]; simplify_eq. apply frame_refl.
Qed.

Lemma os_WriteFile_preserves (p : path) (data : string) :
  preserves (only_writes_below p) (os_WriteFile E p data).
Proof.
  apply preserves_sys. intros fs a fs' H.
  destruct (stat fs p) as [[?|]|]; simplify_eq; [by apply frame_insert|].
  destruct (stat fs (parent p)) as [[?|]|]; simplify_eq. by apply frame_insert.
Qed.

Lemma os_Open_val (p a : path) (w w' : World) : os_Open E p w = (Ok a, w') → a = p.
Proof.
  intros [(? & ? & _)|(a' & fs' & _ & H & ? & _)]%sys_inv; [done|].
  destruct (stat (fs w) p); by simplify_eq.
Qed.

Lemma os_Create_val (p a : path) (w w' : World) : os_Create E p w = (Ok a, w') → a = p.
Proof.
  intros [(? & ? & _)|(a' & fs' & _ & H & ? & _)]%sys_inv; [done|].
  destruct (stat (fs w) p) as [[?|]|]; simplify_eq; [done|].
  destruct (stat (fs w) (parent p)) as [[?|]|]; by simplify_eq.
Qed.

Lemma preserves_mono {A} (R R' : relation World) (c : M A) :
  (∀ w w', R w w' → R' w w') → preserves R c → preserves R' c.
Proof. intros HR Hc w r w' H. apply HR. by eapply Hc. Qed.

(** [copyDir] writes below its destination only. *)
Lemma copyDir_rec_preserves (depth : nat) (src dst : path) :
  preserves (only_writes_below dst) (copyDir_rec E depth src dst).
Proof.
  revert src dst. induction depth as [|depth IH]; intros src dst; simpl.
  - apply preserves_throw; apply _.
  - apply preserves_bind; [apply _| apply os_MkdirAll_preserves |]. intros _.
    apply preserves_bind; [apply _| apply os_ReadDir_preserves |]. intros entries.
    apply preserves_forM_; [apply _|]. intros [n d] _. simpl.
    eapply preserves_mono; [apply (only_writes_below_snoc dst n)|].
    destruct d; [apply IH|].
    apply (preserves_bind_val _ (λ a, a = src ++ [n]));
      [intros ???; apply os_Open_val | apply os_Open_preserves |]. intros srcFile ->.
    apply (preserves_bind_val _ (λ a, a = dst ++ [n]));
      [intros ???; apply os_Create_val | apply os_Create_preserves |]. intros dstFile ->.
    apply io_Copy_preserves.
Qed.

(** What the primitives return and leave, when they succeed. *)
Lemma os_MkdirAll_Ok (p : path) (u : unit) (w w' : World) :
  os_MkdirAll E p w = (Ok u, w') →
  ∃ fs', mkdir_from [] p (fs w) = inr fs' ∧ w' = with_fs fs' w.
Proof.
  intros [(? & ? & _)|(a' & fs' & _ & H & _ & ->)]%sys_inv; [done|].
  destruct (mkdir_from [] p (fs w)) as [|fs1]; simplify_eq. eauto.
Qed.



Lemma os_ReadDir_Ok (p : path) (es : list (string * bool)) (w w' : World) :
  os_ReadDir E p w = (Ok es, w') →
  stat (fs w) p = Some IDir ∧ es = dir_entries (fs w) p ∧ w' = w.
Proof.
  intros [(? & ? & _)|(a' & fs' & _ & H & ? & ->)]%sys_inv; [done|].
  destruct (stat (fs w) p) as [[?|]|]; simplify_eq. by destruct w.
Qed.

Lemma os_ReadDir_world (p : path) (r : result (list (string * bool))) (w w' : World) :
  os_ReadDir E p w = (r, w') → w' = w.
Proof.
  intros [(? & _ & ->)|(a' & fs' & _ & H & _ & ->)]%sys_inv; [done|].
  destruct (stat (fs w) p) as [[?|]|]; simplify_eq. by destruct w.
Qed.

Lemma os_Open_world (p : path) (r : result path) (w w' : World) :
  os_Open E p w = (r, w') → w' = w.
Proof.
  intros [(? & _ & ->)|(a' & fs' & _ & H & _ & ->)]%sys_inv; [done|].
  destruct (stat (fs w) p); simplify_eq. by destruct w.
Qed.

Lemma os_Open_Ok (p a : path) (w w' : World) :
  os_Open E p w = (Ok a, w') → a = p ∧ w' = w.
Proof.
  intros [(? & ? & _)|(a' & fs' & _ & H & ? & ->)]%sys_inv; [done|].
  destruct (stat (fs w) p); simplify_eq. by destruct w.
Qed.

Lemma os_Create_Ok (p a : path) (w w' : World) :
  os_Create E p w = (Ok a, w') → a = p ∧ w' = with_fs (<[p := IFile ""]> (fs w)) w.
Proof.
  intros [(? & ? & _)|(a' & fs' & _ & H & ? & ->)]%sys_inv; [done|].
  destruct (stat (fs w) p) as [[?|]|]; simplify_eq; [done|].
  destruct (stat (fs w) (parent p)) as [[?|]|]; by simplify_eq.
Qed.

Lemma io_Copy_Ok (dst src : path) (u : unit) (w w' : World) :
  io_Copy E dst src w = (Ok u, w') →
  ∃ data, stat (fs w) src = Some (IFile data) ∧ w' = with_fs (<[dst := IFile data]> (fs w)) w.
Proof.
  intros [(? & ? & _)|(a' & fs' & _ & H & ? & ->)]%sys_inv; [done|].
  destruct (stat (fs w) src) as [[data|]|]; simplify_eq. eauto.
Qed.

Lemma unrelated_snoc_below (src dst : path) (n : string) (rel : path) :
  ¬ related src dst → ¬ related (dst ++ [n]) (src ++ rel).
Proof.
  intros Hun [Hp|Hp].
  - apply Hun. apply (prefix_comparable src dst (src ++ rel)); [by apply prefix_app_r|].
    etrans; [|exact Hp]. by apply prefix_app_r.
  - assert (src `prefix_of` dst ++ [n]) as Hs.
    { etrans; [|exact Hp]. by apply prefix_app_r. }
    apply prefix_snoc_inv in Hs as [?| ->]; apply Hun; [by left|].
    right. by apply prefix_app_r.
Qed.

Lemma sibling_unrelated (dst : path) (n m : string) (rel : path) :
  m ≠ n → ¬ related (dst ++ [n]) (dst ++ m :: rel).
Proof.
  intros Hm [Hp|Hp].
  - destruct Hp as [r Hp]. rewrite <- !app_assoc in Hp.
    apply app_inv_head in Hp. simpl in Hp. congruence.
  - apply prefix_snoc_inv in Hp as [Hp| Hp].
    + apply prefix_length in Hp. rewrite length_app in Hp. simpl in Hp. lia.
    + apply app_inv_head in Hp. congruence.
Qed.

Lemma unrelated_ne_nil (p q : path) : ¬ related p q → p ≠ [] ∧ q ≠ [].
Proof.
  intros H. split; intros ->; apply H; [left|right]; apply prefix_nil.
Qed.

(** A successful [copyDir] into a place with nothing below it leaves there
    the tree it read. *)
Lemma copyDir_rec_copies (depth : nat) (src dst : path) (w w' : World) :
  ¬ related src dst → tree_wf src (fs w) → empty_below dst (fs w) →
  copyDir_rec E depth src dst w = (Ok tt, w') →
  ∀ rel, fs w' !! (dst ++ rel) = fs w !! (src ++ rel).
Proof.
  revert src dst w w'. induction depth as [|depth IH]; intros src dst w w' Hun Hwf Hemp; [done|].
  destruct (unrelated_ne_nil _ _ Hun) as [Hsrc Hdst].
  simpl. intros ([] & w1 & (fs1 & Hmk & ->)%os_MkdirAll_Ok & H)%bind_Ok_inv.
  apply bind_Ok_inv in H as (entries & w2 & (Hst & -> & ->)%os_ReadDir_Ok & Hloop).
  simpl in *.
  (* below src nothing has changed, and below dst there is still nothing *)
  assert (∀ rel, fs1 !! (src ++ rel) = fs w !! (src ++ rel)) as Hsrc1.
  { intros rel. apply (mkdir_from_other [] dst _ _ Hmk). simpl. intros Hp.
    apply Hun. left. etrans; [|exact Hp]. by apply prefix_app_r. }
  assert (empty_below dst fs1) as Hemp1.
  { intros rel Hrel. rewrite (mkdir_from_other [] dst _ _ Hmk); [by apply Hemp|].
    simpl. intros Hp%prefix_length. rewrite length_app in Hp.
    destruct rel; [done|]. simpl in Hp. lia. }
  assert (fs1 !! dst = Some IDir) as Hdst1.
  { apply (mkdir_from_made [] dst _ _ Hmk); [done|]. by intros ->%prefix_nil_inv. }
  assert (tree_wf src fs1) as Hwf1 by by apply (tree_wf_ext src (fs w)).
  rewrite stat_lookup in Hst by done.
  (* the loop *)
  assert (∀ (todo : list (string * bool)) (wc : World),
    NoDup todo.*1 →
    (∀ n d, (n, d) ∈ todo → ∃ v, fs1 !! (src ++ [n]) = Some v ∧ d = is_dir v) →
    (∀ rel, fs wc !! (src ++ rel) = fs1 !! (src ++ rel)) →
    fs wc !! dst = Some IDir →
    (∀ n, n ∈ todo.*1 → ∀ rel, fs wc !! (dst ++ n :: rel) = None) →
    forM_ todo (λ entry : string * bool,
        if entry.2 then copyDir_rec E depth (src ++ [entry.1]) (dst ++ [entry.1])
        else let* srcFile := os_Open E (src ++ [entry.1]) in
             let* dstFile := os_Create E (dst ++ [entry.1]) in
             io_Copy E dstFile srcFile) wc = (Ok tt, w') →
    fs w' !! dst = Some IDir ∧
    (∀ n rel, n ∈ todo.*1 → fs w' !! (dst ++ n :: rel) = fs1 !! (src ++ n :: rel)) ∧
    (∀ n rel, n ∉ todo.*1 → fs w' !! (dst ++ n :: rel) = fs wc !! (dst ++ n :: rel)))
    as Hinv.
  { clear Hloop. induction todo as [|[n d] todo IHl]; intros wc Hnd Hent Hs Hd Hnone; simpl.
    - intros [= <-]. split; [done|]. split; [|done]. by intros n rel ?%elem_of_nil.
    - apply NoDup_cons in Hnd as [Hn Hnd].
      intros ([] & wc' & Hbody & Hrest)%bind_Ok_inv.
      assert (only_writes_below (dst ++ [n]) wc wc') as (Hfr & _ & _).
      { destruct d.
        - by eapply copyDir_rec_preserves.
        - revert Hbody. apply preserves_bind_val with (P := λ a, a = src ++ [n]);
            [apply _ | intros ???; apply os_Open_val | apply os_Open_preserves |].
          intros ? ->. apply preserves_bind_val with (P := λ a, a = dst ++ [n]);
            [apply _ | intros ???; apply os_Create_val | apply os_Create_preserves |].
          intros ? ->. apply io_Copy_preserves. }
      assert (∀ m rel, m ≠ n → fs wc' !! (dst ++ m :: rel) = fs wc !! (dst ++ m :: rel)) as Hoth.
      { intros m rel Hm. apply (frame_unrelated (dst ++ [n])); [done|].
        by apply sibling_unrelated. }
      assert (∀ rel, fs wc' !! (src ++ rel) = fs1 !! (src ++ rel)) as Hs'.
      { intros rel. rewrite <- Hs. apply (frame_unrelated (dst ++ [n])); [done|].
        by apply unrelated_snoc_below. }
      assert (fs wc' !! dst = Some IDir) as Hd'.
      { destruct (Hfr dst) as [Heq|(_ & _ & Hnn & _)]; [|congruence..].
        intros Hp%prefix_length. rewrite length_app in Hp. simpl in Hp. lia. }
      assert (∀ rel, fs wc' !! (dst ++ n :: rel) = fs1 !! (src ++ n :: rel)) as Hnew.
      { destruct (Hent n d) as (v & Hv & ->); [left|].
        destruct v as [data0|]; simpl in Hbody.
        - apply bind_Ok_inv in Hbody as (a & wa & [-> ->]%os_Open_Ok & Hbody).
          apply bind_Ok_inv in Hbody as (a & wa & [-> ->]%os_Create_Ok & Hbody).
          apply io_Copy_Ok in Hbody as (data & Hst' & ->). simpl in *.
          rewrite stat_lookup in Hst' by (destruct src; done).
          rewrite lookup_insert_ne in Hst'.
          2:{ intros [Heq _]%app_inj_tail. apply Hun. left. by rewrite Heq. }
          rewrite (Hs [n]), Hv in Hst'. injection Hst' as ->.
          intros [|m rel].
          + by rewrite lookup_insert_eq.
          + rewrite !lookup_insert_ne.
            2,3: intros Heq%(f_equal length); rewrite !length_app in Heq; simpl in Heq; lia.
            rewrite (Hnone n) by left.
            symmetry. apply (tree_wf_leaf src [n] fs1 Hwf1 ) with (rel2 := m :: rel); [|done].
            rewrite stat_lookup by (destruct src; done). by rewrite Hv.
        - intros rel.
          replace (dst ++ n :: rel) with ((dst ++ [n]) ++ rel) by by rewrite <- app_assoc.
          rewrite (IH (src ++ [n]) (dst ++ [n]) wc wc'); [| |  | |done].
          + rewrite <- app_assoc. apply Hs.
          + by apply unrelated_snoc.
          + apply tree_wf_app. by apply (tree_wf_ext src fs1).
          + intros rel' _. rewrite <- app_assoc. apply Hnone. left. }
      destruct (IHl wc') as (Hfin1 & Hfin2 & Hfin3); [done| |done|done| |done|].
      { intros m d' Hin. apply Hent. by right. }
      { intros m Hm rel. rewrite Hoth; [apply Hnone; by right|].
        intros ->. done. }
      split; [done|]. split.
      + intros m rel [->|Hm]%elem_of_cons.
        * rewrite Hfin3 by done. apply Hnew.
        * by apply Hfin2.
      + intros m rel Hm%not_elem_of_cons. destruct Hm as [Hmn Hm].
        rewrite Hfin3 by done. by apply Hoth. }
  destruct (Hinv (dir_entries fs1 src) (with_fs fs1 w)) as (Hfin1 & Hfin2 & Hfin3); simpl.
  - apply dir_entries_NoDup.
  - intros n d. by rewrite dir_entries_elem.
  - done.
  - done.
  - intros n _ rel. by apply Hemp1.
  - done.
  - intros [|n rel].
    + specialize (Hsrc1 []). rewrite !app_nil_r in *. congruence.
    + rewrite <- Hsrc1. destruct (decide (n ∈ (dir_entries fs1 src).*1)) as [Hin|Hin].
      { by apply Hfin2. }
      rewrite Hfin3 by done. simpl. rewrite Hemp1 by done. symmetry.
      assert (fs1 !! (src ++ [n]) = None) as Hn.
      { destruct (fs1 !! (src ++ [n])) as [v|] eqn:Hv; [|done]. exfalso. apply Hin.
        apply list_elem_of_fmap. exists (n, is_dir v). split; [done|].
        apply dir_entries_elem. eauto. }
      destruct rel as [|m rel]; [done|].
      apply (tree_wf_leaf src [n] fs1 Hwf1) with (rel2 := m :: rel); [|done].
      rewrite stat_lookup by (destruct src; done). by rewrite Hn.
Qed.

(** ** What a computation depends on

    [fs_det c]: the result of [c] and the filesystem it leaves depend on the
    filesystem only, not on the clock readings or the lines printed so far. *)





Lemma fs_det_try {A} (c : M A) : fs_det c → fs_det (try c).
Proof.
  intros Hc w1 w2 H. unfold try. destruct (Hc w1 w2 H) as [Hr Hf].
  destruct (c w1), (c w2); by simplify_eq/=.
Qed.





(** ** [readMetadata] *)

(** Reading changes nothing. *)
Lemma readMetadata_world (p : path) (w w' : World) (r : result MetadataJSON) :
  readMetadata E p w = (r, w') → w' = w.
Proof.
  unfold readMetadata, bind, wrap, os_ReadFile, sys.
  destruct (denied E (SysReadFile p)); [by intros [= _ <-]|].
  destruct (stat (fs w) p) as [[d|]|]; simpl; try (intros [= _ <-]; by destruct w).
  destruct (json_Unmarshal E d); intros [= _ <-]; by destruct w.
Qed.

(** What [readMetadata] returns depends on the file at the path only. *)
Lemma readMetadata_ext (p : path) (w1 w2 : World) :
  stat (fs w1) p = stat (fs w2) p →
  (readMetadata E p w1).1 = (readMetadata E p w2).1.
Proof.
  intros H. unfold readMetadata, bind, wrap, os_ReadFile, sys.
  destruct (denied E (SysReadFile p)); [done|]. rewrite H.
  destruct (stat (fs w2) p) as [[d|]|]; simpl; [|done..].
  by destruct (json_Unmarshal E d).
Qed.

(** A successful read: the file is there, it can be read and it parses. *)
Lemma readMetadata_Ok (p : path) (w w' : World) (m : MetadataJSON) :
  readMetadata E p w = (Ok m, w') →
  ∃ doc, stat (fs w) p = Some (IFile doc) ∧ denied E (SysReadFile p) = None ∧
         json_Unmarshal E doc = Some m.
Proof.
  unfold readMetadata, bind, wrap, os_ReadFile, sys.
  destruct (denied E (SysReadFile p)); [done|].
  destruct (stat (fs w) p) as [[d|]|]; simpl; [|done..].
  destruct (json_Unmarshal E d) eqn:Hd; [|done]. intros [= <- _]. eauto.
Qed.

(** ** [copyDir] does not run out of stack *)

Lemma os_MkdirAll_depth (p : path) (u : unit) (w w' : World) :
  os_MkdirAll E p w = (Ok u, w') → (length p ≤ path_max E)%nat.
Proof.
  intros [(? & ? & _)|(a' & fs' & Hd & _)]%sys_inv; [done|].
  unfold denied in Hd. destruct (fault E _); [done|]. simpl in Hd.
  case_decide; [done|lia].
Qed.

Lemma forM__Err {A} (xs : list A) (body : A → M unit) (e : error) (w w' : World) :
  forM_ xs body w = (Err e, w') → ∃ x wx, x ∈ xs ∧ body x wx = (Err e, w').
Proof.
  revert w. induction xs as [|x xs IH]; intros w; simpl; [done|].
  intros [([] & w1 & _ & H)|(e' & H & [= <-])]%bind_inv.
  - destruct (IH _ H) as (y & wy & Hy & Hb). exists y, wy. split; [by right|done].
  - exists x, w. split; [left|done].
Qed.

Lemma copyDir_rec_total (depth : nat) (src dst : path) (w : World) :
  (path_max E + 1 < depth + length dst)%nat → (0 < depth)%nat →
  (copyDir_rec E depth src dst w).1 ≠ Err StackExhausted.
Proof.
  revert src dst w. induction depth as [|depth IH]; intros src dst w Hd Hpos; [lia|].
  simpl. destruct (bind _ _ w) as [r w'] eqn:Hrun. simpl. intros ->.
  apply bind_inv in Hrun as [([] & w1 & Hmk & Hrun)|(e & Hmk & [= <-])].
  2:{ by apply sys_inv in Hmk as [(? & ? & _)|(? & ? & _ & _ & ? & _)]. }
  apply os_MkdirAll_depth in Hmk.
  apply bind_inv in Hrun as [(es & w2 & Hrd & Hrun)|(e & Hrd & [= <-])].
  2:{ by apply sys_inv in Hrd as [(? & ? & _)|(? & ? & _ & _ & ? & _)]. }
  apply forM__Err in Hrun as ([n d] & wx & _ & Hb). simpl in Hb. destruct d.
  - apply (IH (src ++ [n]) (dst ++ [n]) wx); [rewrite length_app; simpl; lia | lia |].
    by rewrite Hb.
  - apply bind_inv in Hb as [(a & wa & _ & Hb)|(e & Hb & [= <-])].
    2:{ by apply sys_inv in Hb as [(? & ? & _)|(? & ? & _ & _ & ? & _)]. }
    apply bind_inv in Hb as [(a' & wa' & _ & Hb)|(e & Hb & [= <-])].
    2:{ by apply sys_inv in Hb as [(? & ? & _)|(? & ? & _ & _ & ? & _)]. }
    by apply sys_inv in Hb as [(? & ? & _)|(? & ? & _ & _ & ? & _)].
Qed.

Lemma copyDir_total (src dst : path) (w : World) :
  (copyDir E src dst w).1 ≠ Err StackExhausted.
Proof. apply copyDir_rec_total; lia. Qed.

(** ** Runs that succeed *)

Lemma with_fs_same (w : World) : with_fs (fs w) w = w.
Proof. by destruct w. Qed.

Lemma os_ReadFile_run (p : path) (w : World) (doc : string) :
  denied E (SysReadFile p) = None → stat (fs w) p = Some (IFile doc) →
  os_ReadFile E p w = (Ok doc, w).
Proof.
  intros Hd Hst. unfold os_ReadFile, sys. rewrite Hd, Hst. by rewrite with_fs_same.
Qed.

Lemma readMetadata_run (p : path) (w : World) (doc : string) (m : MetadataJSON) :
  denied E (SysReadFile p) = None → stat (fs w) p = Some (IFile doc) →
  json_Unmarshal E doc = Some m →
  readMetadata E p w = (Ok m, w).
Proof.
  intros Hd Hst Hun. unfold readMetadata, bind, wrap.
  rewrite (os_ReadFile_run p w doc Hd Hst). by rewrite Hun.
Qed.

Lemma os_WriteFile_run (p : path) (w : World) (old data : string) :
  denied E (SysWriteFile p) = None → stat (fs w) p = Some (IFile old) →
  os_WriteFile E p data w = (Ok tt, with_fs (<[p := IFile data]> (fs w)) w).
Proof. intros Hd Hst. unfold os_WriteFile, sys. by rewrite Hd, Hst. Qed.

(** [updateMetadataNextUpdate], when every step succeeds. *)
Lemma updateMetadataNextUpdate_run
    (p : path) (w : World) (doc doc' : string) (m : MetadataJSON) :
  denied E (SysReadFile p) = None → stat (fs w) p = Some (IFile doc) →
  json_Unmarshal E doc = Some m →
  json_Marshal E (set_NextUpdate (time_Add (clock E (ticks w)) (4 * time_Hour)) m) = Some doc' →
  denied E (SysWriteFile p) = None →
  updateMetadataNextUpdate E p w =
    (Ok tt, {| fs := <[p := IFile doc']> (fs w); ticks := S (ticks w);
               out := out w ++ [EvCall FnStamp;
                                DelayNextUpdate (time_Add (clock E (ticks w)) (4 * time_Hour))] |}).
Proof.
  intros Hrd Hst Hun Hma Hwr. unfold updateMetadataNextUpdate, bind, emit at 1.
  erewrite readMetadata_run; [|exact Hrd|exact Hst|exact Hun].
  unfold time_Now. cbn [ticks fs out]. rewrite Hma. unfold bind, wrap.
  erewrite os_WriteFile_run; [|exact Hwr|exact Hst].
  unfold emit, with_fs. cbn [ticks fs out NextUpdate set_NextUpdate].
  by rewrite <- app_assoc.
Qed.

End Facts.

(** * The claims *)

Arguments copyDir_rec : simpl never.
Arguments copyDir : simpl never.
Arguments backupTrivyDB : simpl never.
Arguments restoreTrivyDB : simpl never.
Arguments runTrivyUpdateCommand : simpl never.
Arguments updateMetadataNextUpdate : simpl never.
Arguments readMetadata : simpl never.

Section Claims.

Variable E : Env.

(** ** What the functions print *)

Lemma sys_out {A} (c : syscall) (f : FS → errno + (A * FS)) (w w' : World) (r : result A) :
  sys E c f w = (r, w') → out w' = out w ∧ ticks w' = ticks w.
Proof. by intros [(? & _ & ->)|(? & ? & _ & _ & _ & ->)]%sys_inv. Qed.

Lemma copyDir_out (src dst : path) (w w' : World) (r : result unit) :
  copyDir E src dst w = (r, w') → out w' = out w ∧ ticks w' = ticks w.
Proof. intros H. by destruct (copyDir_rec_preserves E _ _ _ _ _ _ H) as (_ & ? & ?). Qed.

Lemma readMetadata_same (p : path) (w : World) :
  readMetadata E p w = ((readMetadata E p w).1, w).
Proof.
  destruct (readMetadata E p w) as [r w'] eqn:H.
  by rewrite (readMetadata_world E _ _ _ _ H).
Qed.

Lemma backupTrivyDB_out (c : path) (w w' : World) (r : result unit) :
  backupTrivyDB E c w = (r, w') →
  ticks w' = ticks w ∧
  out w' = out w ++ EvCall FnBackup ::
             match r with Ok _ => [BackedUp c backupDir] | Err _ => [] end.
Proof.
  unfold backupTrivyDB. unfold bind at 1, emit at 1.
  intros [(x & w1 & H1 & H)|(e & H1 & _)]%bind_inv.
  2:{ unfold try in H1. by destruct (os_RemoveAll _ _ _). }
  assert (out w1 = out w ++ [EvCall FnBackup] ∧ ticks w1 = ticks w) as [Ho1 Ht1].
  { unfold try in H1. destruct (os_RemoveAll _ _ _) as [r1 w1'] eqn:Hrm.
    apply sys_out in Hrm. simplify_eq. done. }
  apply bind_inv in H as [([] & w2 & (rm & H2 & _)%wrap_inv & H)|(e & (rm & H2 & _)%wrap_inv & ->)].
  2:{ apply sys_out in H2 as [-> ->]. by rewrite Ho1. }
  apply sys_out in H2 as [Ho2 Ht2].
  apply bind_inv in H as [([] & w3 & (rc & H3 & _)%wrap_inv & H)|(e & (rc & H3 & _)%wrap_inv & ->)].
  2:{ apply copyDir_out in H3 as [-> ->]. split; congruence. }
  apply copyDir_out in H3 as [Ho3 Ht3]. unfold emit in H. simplify_eq. simpl.
  split; [congruence|]. rewrite Ho3, Ho2, Ho1. by rewrite <- app_assoc.
Qed.

Lemma runTrivyUpdateCommand_out (c : path) (w w' : World) (r : result unit) :
  runTrivyUpdateCommand E c w = (r, w') →
  ticks w' = ticks w ∧ out w' = out w ++ [EvCall FnRunTrivy].
Proof.
  unfold runTrivyUpdateCommand, bind, emit, wrap, cmd_Run. cbn [fs ticks out].
  destruct (fault E (SysExec c)); [by intros [= _ <-]|].
  destruct (trivy E c (fs w)) as [[] fs']; by intros [= _ <-].
Qed.

Lemma runTrivyUpdateCommand_fs (c : path) (w w' : World) (r : result unit) :
  runTrivyUpdateCommand E c w = (r, w') →
  fs w' = fs w ∨ fs w' = (trivy E c (fs w)).2.
Proof.
  unfold runTrivyUpdateCommand, bind, emit, wrap, cmd_Run. cbn [fs ticks out].
  destruct (fault E (SysExec c)); [intros [= _ <-]; by left|].
  destruct (trivy E c (fs w)) as [[] fs']; intros [= _ <-]; by right.
Qed.

(** ** The shape of [main] *)

(** The steps the two branches of [main] share: lines 156-172 and 177-193. *)
Lemma main_cycle (c : path) (w : World) (r : result MetadataJSON) :
  readMetadata E (metadata_of c) w = (r, w) → due E w r = true →
  main E c w =
    match backupTrivyDB E c (announced r w) with
    | (Err err, wb) => (Ok tt, say [ErrorBackingUp err] wb)
    | (Ok _, wb) =>
        match runTrivyUpdateCommand E c wb with
        | (Err err, wt) =>
            match restoreTrivyDB E c (say [ToolError err; UpdateFailedRestoring] wt) with
            | (Err restoreErr, wr) => (Ok tt, say [ErrorRestoring restoreErr] wr)
            | (Ok _, wr) => (Ok tt, wr)
            end
        | (Ok _, wt) =>
            match readMetadata E (metadata_of c) (say (completed r) wt) with
            | (Ok newMetadata, wn) => (Ok tt, say [NextUpdateAt (NextUpdate newMetadata)] wn)
            | (Err _, wn) => (Ok tt, wn)
            end
        end
    end.
Proof.
  intros Hread Hdue. unfold main. fold (metadata_of c).
  unfold bind at 1, try at 1. rewrite Hread. clear Hread.
  destruct r as [m|err]; cbn [due] in Hdue.
  - unfold bind at 1, time_Now at 1. cbn [ticks fs out]. rewrite Hdue.
    unfold bind at 1, emit at 1. cbn [ticks fs out].
    unfold bind at 1, try at 1. cbn [announced].
    destruct (backupTrivyDB _ _ _) as [[[]|e] wb]; [|done].
    unfold bind at 1, try at 1.
    destruct (runTrivyUpdateCommand _ _ _) as [[[]|e] wt].
    + unfold bind at 1, emit at 1. unfold bind at 1, try at 1. cbn [completed].
      unfold say.
      by destruct (readMetadata _ _ _) as [[?|?] ?].
    + unfold bind at 1, emit at 1. unfold bind at 1, emit at 1. cbn [ticks fs out].
      unfold bind at 1, try at 1. unfold say. cbn [ticks fs out].
      rewrite <- app_assoc. cbn [app].
      by destruct (restoreTrivyDB _ _ _) as [[?|?] ?].
  - unfold bind at 1, emit at 1. unfold bind at 1, emit at 1. cbn [ticks fs out].
    unfold bind at 1, try at 1. cbn [announced]. rewrite <- app_assoc. cbn [app].
    destruct (backupTrivyDB _ _ _) as [[[]|e] wb]; [|done].
    unfold bind at 1, try at 1.
    destruct (runTrivyUpdateCommand _ _ _) as [[[]|e] wt].
    + unfold bind at 1, try at 1. cbn [completed]. unfold say. rewrite app_nil_r.
      replace {| fs := fs wt; ticks := ticks wt; out := out wt |} with wt by by destruct wt.
      by destruct (readMetadata _ _ _) as [[?|?] ?].
    + unfold bind at 1, emit at 1. unfold bind at 1, emit at 1. cbn [ticks fs out].
      unfold bind at 1, try at 1. unfold say. cbn [ticks fs out].
      rewrite <- app_assoc. cbn [app].
      by destruct (restoreTrivyDB _ _ _) as [[?|?] ?].
Qed.

Lemma due_refresh_due (w : World) (r : result MetadataJSON) :
  due E w r = true ↔ refresh_due E w r.
Proof. destruct r; simpl; [apply Z.ltb_lt | done]. Qed.

Lemma calls_app (l1 l2 : list event) : calls (l1 ++ l2) = calls l1 ++ calls l2.
Proof. apply omap_app. Qed.

Lemma updateMetadataNextUpdate_out (p : path) (w w' : World) (r : result unit) :
  updateMetadataNextUpdate E p w = (r, w') →
  ∃ l, out w' = out w ++ EvCall FnStamp :: l ∧ calls l = [].
Proof.
  unfold updateMetadataNextUpdate. unfold bind at 1, emit at 1.
  intros [(m & w1 & H1 & H)|(e & H1 & _)]%bind_inv.
  2:{ apply readMetadata_world in H1 as ->. by exists []. }
  apply readMetadata_world in H1 as ->.
  unfold bind at 1, time_Now at 1 in H. cbn [fs ticks out] in H.
  destruct (json_Marshal E _) as [d|].
  2:{ injection H as _ <-. by exists []. }
  apply bind_inv in H as [([] & w2 & (rw & H2 & _)%wrap_inv & H)|(e & (rw & H2 & _)%wrap_inv & _)].
  - apply sys_out in H2 as [Ho _]. injection H as _ <-. cbn [out] in *.
    eexists [_]. rewrite Ho. by rewrite <- app_assoc.
  - apply sys_out in H2 as [-> _]. by exists [].
Qed.

Lemma restoreTrivyDB_out (c : path) (w w' : World) (r : result unit) :
  restoreTrivyDB E c w = (r, w') →
  ∃ l, out w' = out w ++ EvCall FnRestore :: l ∧ (calls l = [] ∨ calls l = [FnStamp]).
Proof.
  unfold restoreTrivyDB. unfold bind at 1, emit at 1.
  intros [([] & w1 & (rr & H1 & _)%wrap_inv & H)|(e & (rr & H1 & _)%wrap_inv & _)]%bind_inv.
  2:{ apply sys_out in H1 as [-> _]. exists []. split; [done|by left]. }
  apply sys_out in H1 as [Ho1 _]. cbn [out] in Ho1.
  apply bind_inv in H as [([] & w2 & (rc & H2 & _)%wrap_inv & H)|(e & (rc & H2 & _)%wrap_inv & _)].
  2:{ apply copyDir_out in H2 as [-> _]. exists []. rewrite Ho1. split; [done|by left]. }
  apply copyDir_out in H2 as [Ho2 _].
  apply bind_inv in H as [([] & w3 & (ru & H3 & _)%wrap_inv & H)|(e & (ru & H3 & _)%wrap_inv & _)].
  - apply updateMetadataNextUpdate_out in H3 as (l & Ho3 & Hl). injection H as _ <-. cbn [out].
    exists (EvCall FnStamp :: l ++ [Restored c backupDir]). split.
    + rewrite Ho3, Ho2, Ho1. rewrite <- !app_assoc. done.
    + right. change (calls (EvCall FnStamp :: l ++ [Restored c backupDir]))
        with (FnStamp :: calls (l ++ [Restored c backupDir])).
      by rewrite calls_app, Hl.
  - apply updateMetadataNextUpdate_out in H3 as (l & Ho3 & Hl).
    exists (EvCall FnStamp :: l). split.
    + rewrite Ho3, Ho2, Ho1. rewrite <- !app_assoc. done.
    + right. change (calls (EvCall FnStamp :: l)) with (FnStamp :: calls l). by rewrite Hl.
Qed.

(** ** What [backupTrivyDB] touches *)

Lemma emit_preserves (dst : path) (e : event) : preserves (writes_below dst) (emit e).
Proof. intros w r w' [= _ <-]. split; [apply frame_refl | done]. Qed.

Lemma backupTrivyDB_preserves (c : path) :
  preserves (writes_below backupDir) (backupTrivyDB E c).
Proof.
  unfold backupTrivyDB.
  apply preserves_bind; [apply _ | apply emit_preserves |]. intros _.
  apply preserves_bind; [apply _ | |]. 
  { apply preserves_try.
    eapply preserves_mono; [apply only_writes_below_weaken | apply os_RemoveAll_preserves]. }
  intros _. apply preserves_bind; [apply _ | |].
  { apply preserves_wrap.
    eapply preserves_mono; [apply only_writes_below_weaken | apply os_MkdirAll_preserves]. }
  intros _. apply preserves_bind; [apply _ | |].
  { apply preserves_wrap.
    eapply preserves_mono; [apply only_writes_below_weaken | apply copyDir_rec_preserves]. }
  intros _. apply emit_preserves.
Qed.

(** A backup leaves a cache directory that does not overlap the backup
    location as it was. *)
Lemma backupTrivyDB_cache (c : path) (w w' : World) (r : result unit) :
  ¬ related c backupDir → backupTrivyDB E c w = (r, w') →
  ∀ rel, fs w' !! (c ++ rel) = fs w !! (c ++ rel).
Proof.
  intros Hun H rel. destruct (backupTrivyDB_preserves c _ _ _ H) as [Hfr _].
  apply (frame_unrelated backupDir); [done|]. by apply unrelated_below.
Qed.

(** Without a refresh: lines 195-196. *)
Lemma main_idle (c : path) (w : World) (m : MetadataJSON) :
  readMetadata E (metadata_of c) w = (Ok m, w) → due E w (Ok m) = false →
  main E c w = (Ok tt, {| fs := fs w; ticks := S (ticks w);
                          out := out w ++ [UpToDate; NextUpdateAt (NextUpdate m)] |}).
Proof.
  intros Hread Hdue. unfold main. fold (metadata_of c).
  unfold bind at 1, try at 1. rewrite Hread.
  unfold bind at 1, time_Now at 1. cbn [ticks fs out due] in *. rewrite Hdue.
  unfold bind, emit. cbn [ticks fs out]. by rewrite <- app_assoc.
Qed.

(** C3.  When the metadata reads and its [NextUpdate] is strictly after the
    clock reading, [main] reads the clock once, prints that the database is
    up to date and the existing [NextUpdate], and does nothing else: the
    filesystem is the same, and neither [backupTrivyDB] nor
    [runTrivyUpdateCommand] nor [restoreTrivyDB] is called. *)
Theorem C3_up_to_date_is_noop (cacheDir : path) (w w1 : World) (m : MetadataJSON) :
  readMetadata E (metadata_of cacheDir) w = (Ok m, w1) →
  (unix_ns (clock E (ticks w)) < unix_ns (NextUpdate m))%Z →
  ∃ w', main E cacheDir w = (Ok tt, w') ∧
        fs w' = fs w ∧
        out w' = out w ++ [UpToDate; NextUpdateAt (NextUpdate m)] ∧
        calls (out w') = calls (out w).
Proof.
  intros Hread Hlt. pose proof (readMetadata_world E _ _ _ _ Hread) as ->.
  eexists. split.
  { apply (main_idle cacheDir w m Hread). cbn [due]. unfold time_After. apply Z.ltb_ge. lia. }
  cbn [fs out]. split; [done|]. split; [done|]. by rewrite calls_app, app_nil_r.
Qed.

(** C5.  [updateMetadataNextUpdate] on a file that reads as the record [m]:
    it succeeds when the record with the new [NextUpdate] marshals and the
    file can be written; the file then holds that record's encoding and
    nothing else has changed; the record written has the [Version],
    [UpdatedAt] and [DownloadedAt] of [m], and its [NextUpdate] is the clock
    reading plus four hours, strictly after the clock reading; and a read of
    the file gives back that record, when the encoding decodes to it. *)
Theorem C5_stamp_changes_only_NextUpdate
    (p : path) (w : World) (doc doc' : string) (m : MetadataJSON) :
  let now := clock E (ticks w) in
  let m' := set_NextUpdate (time_Add now (4 * time_Hour)) m in
  stat (fs w) p = Some (IFile doc) →
  denied E (SysReadFile p) = None →
  json_Unmarshal E doc = Some m →
  json_Marshal E m' = Some doc' →
  denied E (SysWriteFile p) = None →
  json_Unmarshal E doc' = Some m' →
  ∃ w', updateMetadataNextUpdate E p w = (Ok tt, w') ∧
        fs w' = <[p := IFile doc']> (fs w) ∧
        readMetadata E p w' = (Ok m', w') ∧
        Version m' = Version m ∧
        UpdatedAt m' = UpdatedAt m ∧
        DownloadedAt m' = DownloadedAt m ∧
        unix_ns (NextUpdate m') = (unix_ns now + 4 * 3600 * 1000000000)%Z ∧
        time_After (NextUpdate m') now = true.
Proof.
  intros now m' Hst Hrd Hun Hma Hwr Hun'.
  assert (p ≠ []) as Hp by (intros ->; done).
  eexists. split; [by apply (updateMetadataNextUpdate_run E p w doc doc' m)|].
  cbn [fs]. split_and!; [done| |done..| |].
  - apply (readMetadata_run E p _ doc' m'); [done| |done].
    cbn [fs]. by rewrite stat_lookup, lookup_insert_eq.
  - unfold m', time_Hour. cbn [NextUpdate set_NextUpdate time_Add unix_ns]. lia.
  - unfold m', time_After, time_Hour. cbn [NextUpdate set_NextUpdate time_Add unix_ns].
    apply Z.ltb_lt. lia.
Qed.

(** C6, as amended.  [updateMetadataNextUpdate] writes the encoding of the
    record it read, with nothing of the bytes it read: when the new
    [NextUpdate] is the one the file had, the file holds [json.Marshal] of
    the record read; a read of it gives the same record when that encoding
    decodes to it; and the bytes are the ones read exactly when the file
    was such an encoding already. *)
Theorem C6_rewrite_keeps_the_record
    (p : path) (w : World) (doc doc' : string) (m : MetadataJSON) :
  stat (fs w) p = Some (IFile doc) →
  denied E (SysReadFile p) = None →
  json_Unmarshal E doc = Some m →
  time_Add (clock E (ticks w)) (4 * time_Hour) = NextUpdate m →
  json_Marshal E m = Some doc' →
  denied E (SysWriteFile p) = None →
  ∃ w', updateMetadataNextUpdate E p w = (Ok tt, w') ∧
        fs w' = <[p := IFile doc']> (fs w) ∧
        (json_Unmarshal E doc' = Some m → readMetadata E p w' = (Ok m, w')) ∧
        (doc' = doc → fs w' = fs w).
Proof.
  intros Hst Hrd Hun Hnu Hma Hwr.
  assert (p ≠ []) as Hp by (intros ->; done).
  assert (set_NextUpdate (time_Add (clock E (ticks w)) (4 * time_Hour)) m = m) as Hm.
  { rewrite Hnu. by destruct m. }
  eexists. split.
  { apply (updateMetadataNextUpdate_run E p w doc doc' m); try done. by rewrite Hm. }
  cbn [fs]. split; [done|]. split.
  - intros Hun'. apply (readMetadata_run E p _ doc' m); [done| |done].
    cbn [fs]. by rewrite stat_lookup, lookup_insert_eq.
  - intros ->. apply insert_id. by rewrite <- stat_lookup.
Qed.

(** C2, as amended.  [main] starts a refresh when its [readMetadata] fails
    or the clock reads strictly after [NextUpdate], and only then.  A
    refresh calls [backupTrivyDB] once; when that succeeds it then calls
    [runTrivyUpdateCommand] once, and neither of them again; when it fails
    nothing else is called.  Without a refresh, nothing is called. *)
Theorem C2_refresh_attempts (c : path) (w : World) (r : result MetadataJSON) :
  readMetadata E (metadata_of c) w = (r, w) →
  ∃ w' l, main E c w = (Ok tt, w') ∧ out w' = out w ++ l ∧
    (refresh_due E w r →
       ∃ rb wb, backupTrivyDB E c (announced r w) = (rb, wb) ∧
         match rb with
         | Ok _ => (∃ rest, calls l = (FnBackup :: FnRunTrivy :: rest) ∧
                            (FnBackup ∉ rest) ∧ (FnRunTrivy ∉ rest))
         | Err _ => calls l = [FnBackup]
         end) ∧
    (¬ refresh_due E w r → calls l = []).
Proof.
  intros Hread. destruct (due E w r) eqn:Hd.
  - rewrite (main_cycle c w r Hread) by done.
    destruct (backupTrivyDB E c (announced r w)) as [rb wb] eqn:Hb.
    pose proof (backupTrivyDB_out _ _ _ _ Hb) as [_ Hob].
    assert (∃ l0, out (announced r w) = out w ++ l0 ∧ calls l0 = []) as (l0 & Hl0 & Hc0).
    { destruct r; eexists; (split; [reflexivity|done]). }
    destruct rb as [[]|e].
    + destruct (runTrivyUpdateCommand E c wb) as [rt wt] eqn:Ht.
      pose proof (runTrivyUpdateCommand_out _ _ _ _ Ht) as [_ Hot].
      destruct rt as [[]|e].
      * rewrite readMetadata_same.
        assert (∃ l1 w', (match (readMetadata E (metadata_of c) (say (completed r) wt)).1 with
                  | Ok newMetadata =>
                      (Ok tt, say [NextUpdateAt (NextUpdate newMetadata)] (say (completed r) wt))
                  | Err _ => (Ok tt, say (completed r) wt)
                  end) = (Ok tt, w') ∧ out w' = out wt ++ l1 ∧ calls l1 = [])
          as (l1 & w' & -> & Ho & Hc1).
        { destruct (readMetadata _ _ _).1.
          - eexists (completed r ++ [_]), _. split; [done|]. cbn [say out].
            split; [by rewrite app_assoc|]. rewrite calls_app. by destruct r.
          - eexists (completed r), _. split; [done|]. split; [done|]. by destruct r. }
        exists w', (l0 ++ [EvCall FnBackup; BackedUp c backupDir] ++ [EvCall FnRunTrivy] ++ l1).
        split; [done|]. split.
        { rewrite Ho, Hot, Hob, Hl0. by rewrite <- !app_assoc. }
        split; [|intros Hn; destruct Hn; by apply due_refresh_due]. intros _. exists (Ok tt), wb. split; [done|]. exists [].
        rewrite !calls_app, Hc0, Hc1. split; [done|]. split; apply not_elem_of_nil.
      * destruct (restoreTrivyDB E c _) as [rr wr] eqn:Hr.
        apply restoreTrivyDB_out in Hr as (l1 & Ho & Hc1). cbn [say out] in Ho.
        exists (match rr with Ok _ => wr | Err re => say [ErrorRestoring re] wr end).
        exists (l0 ++ [EvCall FnBackup; BackedUp c backupDir] ++ [EvCall FnRunTrivy]
                ++ [ToolError e; UpdateFailedRestoring] ++ EvCall FnRestore :: l1
                ++ match rr with Ok _ => [] | Err re => [ErrorRestoring re] end).
        split; [by destruct rr as [[]|?]|]. split.
        { destruct rr as [[]|?]; cbn [say out]; rewrite Ho, Hot, Hob, Hl0;
            rewrite <- ?app_assoc; cbn [app]; by rewrite ?app_nil_r. }
        split; [|intros Hn; destruct Hn; by apply due_refresh_due]. intros _. exists (Ok tt), wb. split; [done|].
        exists (FnRestore :: calls l1). split.
        { rewrite !calls_app, Hc0. cbn [app]. 
          change (calls (EvCall FnRestore :: ?x)) with (FnRestore :: calls x).
          rewrite calls_app. destruct rr; cbn; by rewrite app_nil_r. }
        destruct Hc1 as [-> | ->]; split; compute_done.
    + exists (say [ErrorBackingUp e] wb), (l0 ++ [EvCall FnBackup; ErrorBackingUp e]).
      split; [done|]. split.
      { cbn [say out]. rewrite Hob, Hl0. by rewrite <- !app_assoc. }
      split; [|intros Hn; destruct Hn; by apply due_refresh_due]. intros _. exists (Err e), wb. split; [done|].
      by rewrite calls_app, Hc0.
  - destruct r as [m|err]; [|done].
    eexists _, [UpToDate; NextUpdateAt (NextUpdate m)]. split.
    { by apply (main_idle c w m Hread). }
    split; [done|]. split; [|done].
    intros Hdue%due_refresh_due. congruence.
Qed.


(** C8, as amended.  When the backup and the tool succeed, [main] reads the
    metadata again and prints its [NextUpdate] when the read succeeds; when
    the read fails it prints nothing about it.  Either way [main] ends in
    the filesystem the tool left: [restoreTrivyDB] is not called. *)
Theorem C8_after_a_successful_update
    (c : path) (w wb wt : World) (r : result MetadataJSON) :
  readMetadata E (metadata_of c) w = (r, w) →
  refresh_due E w r →
  backupTrivyDB E c (announced r w) = (Ok tt, wb) →
  runTrivyUpdateCommand E c wb = (Ok tt, wt) →
  ∃ w', main E c w = (Ok tt, w') ∧
        fs w' = fs wt ∧
        out w' = out wt ++ completed r ++
                   match (readMetadata E (metadata_of c) wt).1 with
                   | Ok newMetadata => [NextUpdateAt (NextUpdate newMetadata)]
                   | Err _ => []
                   end.
Proof.
  intros Hread Hdue%due_refresh_due Hb Ht.
  rewrite (main_cycle c w r Hread Hdue), Hb, Ht, readMetadata_same.
  rewrite (readMetadata_ext E (metadata_of c) (say (completed r) wt) wt) by reflexivity.
  destruct (readMetadata E (metadata_of c) wt).1 as [m'|e'].
  - eexists. split; [done|]. cbn [say fs out]. split; [done|]. by rewrite <- app_assoc.
  - eexists. split; [done|]. cbn [say fs out]. split; [done|]. by rewrite app_nil_r.
Qed.

(** ** Two backups in a row *)

Lemma backupTrivyDB_eq (c : path) (w : World) :
  denied E (SysRemoveAll backupDir) = None →
  backupTrivyDB E c w =
    backup_rest E c (with_fs (remove_tree backupDir (fs w)) (say [EvCall FnBackup] w)).
Proof.
  intros Hd. unfold backupTrivyDB. unfold bind at 1, emit at 1.
  unfold bind at 1, try, os_RemoveAll, sys. rewrite Hd. reflexivity.
Qed.




(** ** A copy that fails *)

#[global] Instance dst_kept_preorder (dst : path) : PreOrder (dst_kept dst).
Proof.
  split.
  - intros w. by left.
  - intros w1 w2 w3 [H1|H1] [H2|H2]; unfold dst_kept; [left|right|right|right]; congruence.
Qed.



Lemma snoc_cons_app (dst : path) (n : string) (rel : path) :
  dst ++ n :: rel = (dst ++ [n]) ++ rel.
Proof. by rewrite <- app_assoc. Qed.



(** ** Rolling back *)

Lemma tree_wf_moved (src dst : path) (fs fs' : FS) :
  src ≠ [] → dst ≠ [] →
  (∀ rel, fs' !! (dst ++ rel) = fs !! (src ++ rel)) →
  tree_wf src fs → tree_wf dst fs'.
Proof.
  intros Hs Hd Heq Hwf rel n Hsome.
  rewrite stat_lookup by (destruct dst; done). rewrite Heq.
  rewrite <- stat_lookup by (destruct src; done). apply (Hwf rel n). by rewrite <- Heq.
Qed.

(** A successful backup holds the cache tree. *)
Lemma backupTrivyDB_copies (c : path) (w wb : World) (u : unit) :
  ¬ related c backupDir → tree_wf c (fs w) →
  denied E (SysRemoveAll backupDir) = None →
  backupTrivyDB E c w = (Ok u, wb) →
  ∀ rel, fs wb !! (backupDir ++ rel) = fs w !! (c ++ rel).
Proof.
  intros Hun Hwf Hd Hb. destruct (unrelated_ne_nil _ _ Hun) as [Hc _].
  rewrite backupTrivyDB_eq in Hb by done. unfold backup_rest in Hb.
  apply bind_Ok_inv in Hb as ([] & wX & Hmk%wrap_Ok_inv & Htail).
  apply os_MkdirAll_Ok in Hmk as (fsX & Hmk & ->).
  apply bind_Ok_inv in Htail as ([] & w3 & Hcp%wrap_Ok_inv & Hem).
  injection Hem as _ <-. cbn [fs with_fs say] in *.
  assert (∀ rel, fsX !! (c ++ rel) = fs w !! (c ++ rel)) as HcX.
  { intros rel. rewrite (mkdir_from_other [] backupDir _ _ Hmk).
    - rewrite lookup_remove_tree, decide_False; [done|].
      intros Hp. apply (unrelated_below c backupDir rel Hun). by left.
    - intros Hp. apply (unrelated_below c backupDir rel Hun). by right. }
  assert (empty_below backupDir fsX) as Hemp.
  { intros rel Hrel. rewrite (mkdir_from_other [] backupDir _ _ Hmk).
    - rewrite lookup_remove_tree, decide_True; [done|]. by apply prefix_app_r.
    - intros Hp%prefix_length. rewrite length_app in Hp. destruct rel; [done|].
      simpl in Hp. lia. }
  intros rel. rewrite <- HcX.
  apply (λ H1 H2, copyDir_rec_copies E _ c backupDir _ _ Hun H1 H2 Hcp); cbn [fs with_fs].
  - by apply (tree_wf_ext c (fs w)).
  - done.
Qed.

Lemma runTrivyUpdateCommand_confined (c : path) (w w' : World) (r : result unit) :
  tool_confined E c → runTrivyUpdateCommand E c w = (r, w') →
  ∀ k, ¬ c `prefix_of` k → fs w' !! k = fs w !! k.
Proof.
  intros Hconf [->| ->]%runTrivyUpdateCommand_fs k Hk; [done|]. by apply Hconf.
Qed.

(** The three steps of [restoreTrivyDB]. *)
Lemma restoreTrivyDB_inv (c : path) (w w' : World) (r : result unit) :
  restoreTrivyDB E c w = (r, w') →
  (∃ e, r = Err (Errorf "failed to remove current directory" e)) ∨
  (∃ e, r = Err (Errorf "failed to restore from backup" e)) ∨
  (∃ w1 rs ws,
     copyDir E backupDir c (with_fs (remove_tree c (fs w)) (say [EvCall FnRestore] w))
       = (Ok tt, w1) ∧
     updateMetadataNextUpdate E (metadata_of c) w1 = (rs, ws) ∧
     match rs with
     | Ok _ => r = Ok tt ∧ w' = say [Restored c backupDir] ws
     | Err e => r = Err (Errorf "failed to update metadata timestamp" e) ∧ w' = ws
     end).
Proof.
  unfold restoreTrivyDB. unfold bind at 1, emit at 1. fold (say [EvCall FnRestore] w).
  intros [([] & w1 & Hrm%wrap_Ok_inv & H)|(e & (rr & _ & Hrr)%wrap_inv & ->)]%bind_inv.
  2:{ left. destruct rr; simplify_eq. eauto. }
  apply sys_inv in Hrm as [(? & ? & _)|(a & fs' & _ & Hf & _ & ->)]; [done|].
  injection Hf as _ <-.
  apply bind_inv in H as [([] & w2 & Hcp%wrap_Ok_inv & H)|(e & (rr & _ & Hrr)%wrap_inv & ->)].
  2:{ right. left. destruct rr; simplify_eq. eauto. }
  right. right. fold (metadata_of c) in H.
  apply bind_inv in H as [([] & w3 & Hup%wrap_Ok_inv & H)|(e & (rr & Hup & Hrr)%wrap_inv & ->)].
  - injection H as <- <-. exists w2, (Ok tt), w3. done.
  - destruct rr as [|e0]; [done|]. injection Hrr as ->. exists w2, (Err e0), w'. done.
Qed.

(** After a backup, a failed run of a tool that keeps to the cache
    directory, and the removal and copy of [restoreTrivyDB], the cache tree
    is the one the backup was taken of. *)
Lemma rollback_tree (c : path) (w wb wt wx w1 : World) (u : unit) (rt : result unit) :
  ¬ related c backupDir → tree_wf c (fs w) → tool_confined E c →
  denied E (SysRemoveAll backupDir) = None →
  backupTrivyDB E c w = (Ok u, wb) →
  runTrivyUpdateCommand E c wb = (rt, wt) →
  fs wx = remove_tree c (fs wt) →
  copyDir E backupDir c wx = (Ok tt, w1) →
  ∀ rel, fs w1 !! (c ++ rel) = fs w !! (c ++ rel).
Proof.
  intros Hun Hwf Hconf Hd Hb Ht Hx Hcp rel.
  destruct (unrelated_ne_nil _ _ Hun) as [Hc Hbk].
  assert (∀ rel, fs wx !! (backupDir ++ rel) = fs w !! (c ++ rel)) as Hsaved.
  { intros rel'. rewrite Hx, lookup_remove_tree, decide_False.
    - rewrite (runTrivyUpdateCommand_confined c _ _ _ Hconf Ht).
      + apply (backupTrivyDB_copies c w wb u Hun Hwf Hd Hb).
      + intros Hp. apply (unrelated_below backupDir c rel'); [by apply unrelated_sym|].
        by left.
    - intros Hp. apply (unrelated_below backupDir c rel'); [by apply unrelated_sym|].
      by left. }
  rewrite <- Hsaved.
  apply (λ H0 H1 H2, copyDir_rec_copies E _ backupDir c _ _ H0 H1 H2 Hcp).
  - by apply unrelated_sym.
  - by apply (tree_wf_moved c backupDir (fs w)).
  - intros rel' _. rewrite Hx, lookup_remove_tree, decide_True; [done|].
    by apply prefix_app_r.
Qed.

Lemma updateMetadataNextUpdate_Ok (p : path) (w w' : World) (u : unit) :
  updateMetadataNextUpdate E p w = (Ok u, w') →
  ∃ doc m doc',
    stat (fs w) p = Some (IFile doc) ∧ denied E (SysReadFile p) = None ∧
    json_Unmarshal E doc = Some m ∧
    json_Marshal E (set_NextUpdate (time_Add (clock E (ticks w)) (4 * time_Hour)) m)
      = Some doc' ∧
    fs w' = <[p := IFile doc']> (fs w).
Proof.
  unfold updateMetadataNextUpdate. unfold bind at 1, emit at 1.
  intros (m & w1 & Hrd & H)%bind_Ok_inv.
  pose proof (readMetadata_world E _ _ _ _ Hrd) as ->.
  apply readMetadata_Ok in Hrd as (doc & Hst & Hd & Hun). cbn [fs] in Hst.
  unfold bind at 1, time_Now at 1 in H. cbn [fs ticks out] in H.
  destruct (json_Marshal E _) as [doc'|] eqn:Hma; [|done].
  apply bind_Ok_inv in H as ([] & w2 & Hwr%wrap_Ok_inv & Hem).
  injection Hem as _ <-. cbn [fs].
  apply sys_inv in Hwr as [(? & ? & _)|(a & fs' & _ & Hf & _ & ->)]; [done|].
  cbn [fs with_fs] in *. rewrite Hst in Hf. injection Hf as _ <-.
  exists doc, m, doc'. done.
Qed.

Lemma updateMetadataNextUpdate_ticks (p : path) (w w' : World) (u : unit) :
  updateMetadataNextUpdate E p w = (Ok u, w') → ticks w' = S (ticks w).
Proof.
  unfold updateMetadataNextUpdate. unfold bind at 1, emit at 1.
  intros (m & w1 & Hrd & H)%bind_Ok_inv.
  pose proof (readMetadata_world E _ _ _ _ Hrd) as ->.
  unfold bind at 1, time_Now at 1 in H. cbn [fs ticks out] in H.
  destruct (json_Marshal E _) as [doc'|] eqn:Hma; [|done].
  apply bind_Ok_inv in H as ([] & w2 & Hwr%wrap_Ok_inv & Hem).
  injection Hem as _ <-. cbn [ticks]. by apply sys_out in Hwr as [_ ->].
Qed.


(** C1, as amended.  Take a refresh on a well-formed filesystem, with a
    cache directory that does not overlap the backup location: the backup
    location is cleared and the backup succeeds, the tool fails having
    written below the cache directory only, and [restoreTrivyDB] reports no
    error.  Then [main] ends in the world the restore left, in which every
    path of the cache directory other than [db/metadata.json] holds what it
    held when [main] started; the first read of the metadata had succeeded,
    and the metadata file now holds [json.Marshal] of the record read then
    with [NextUpdate] set to the clock reading of the rollback (the second
    reading of the run) plus four hours. *)
Theorem C1_rollback_restores_the_cache
    (c : path) (w wb wt wr : World) (r : result MetadataJSON) (e : error) :
  ¬ related c backupDir →
  wf (fs w) →
  tool_confined E c →
  denied E (SysRemoveAll backupDir) = None →
  readMetadata E (metadata_of c) w = (r, w) →
  refresh_due E w r →
  backupTrivyDB E c (announced r w) = (Ok tt, wb) →
  runTrivyUpdateCommand E c wb = (Err e, wt) →
  restoreTrivyDB E c (say [ToolError e; UpdateFailedRestoring] wt) = (Ok tt, wr) →
  main E c w = (Ok tt, wr) ∧
  (∀ rel, rel ≠ ["db"; "metadata.json"] → fs wr !! (c ++ rel) = fs w !! (c ++ rel)) ∧
  ∃ m doc',
    r = Ok m ∧
    json_Marshal E (set_NextUpdate (time_Add (clock E (S (ticks w))) (4 * time_Hour)) m)
      = Some doc' ∧
    fs wr !! metadata_of c = Some (IFile doc').
Proof.
  intros Hun Hwf Hconf Hd Hread Hdue Hb Ht Hr.
  split. { by rewrite (main_cycle c w r Hread (proj2 (due_refresh_due w r) Hdue)), Hb, Ht, Hr. }
  assert (fs (announced r w) = fs w) as Hfa by by destruct r.
  assert (metadata_of c ≠ []) as Hmeta by (unfold metadata_of; by destruct c).
  pose proof (backupTrivyDB_out _ _ _ _ Hb) as [Htb _].
  pose proof (runTrivyUpdateCommand_out _ _ _ _ Ht) as [Htt _].
  apply restoreTrivyDB_inv in Hr as [(? & ?)|[(? & ?)|(w1 & rs & ws & Hcp & Hup & Hrs)]]; [done..|].
  destruct rs as [[]|]; [|by destruct Hrs]. destruct Hrs as [_ ->]. cbn [say fs].
  assert (∀ rel, fs w1 !! (c ++ rel) = fs w !! (c ++ rel)) as Htree.
  { intros rel. rewrite <- Hfa.
    apply (λ H1 H2, rollback_tree c (announced r w) wb wt _ w1 tt (Err e)
                      Hun H1 Hconf Hd Hb Ht H2 Hcp); [|reflexivity].
    rewrite Hfa. by apply wf_tree_wf. }
  apply copyDir_out in Hcp as [_ Htc]. cbn [with_fs say ticks] in Htc.
  apply updateMetadataNextUpdate_Ok in Hup as (doc & m & doc' & Hst & Hrd & Hun' & Hma & ->).
  rewrite stat_lookup in Hst by done. unfold metadata_of in Hst at 1. rewrite Htree in Hst.
  fold (metadata_of c) in Hst.
  assert (r = Ok m) as ->.
  { rewrite (readMetadata_run E (metadata_of c) w doc m) in Hread; [by simplify_eq|done| |done].
    by rewrite stat_lookup. }
  split.
  - intros rel Hrel. rewrite lookup_insert_ne; [apply Htree|].
    unfold metadata_of. by intros ?%app_inv_head.
  - exists m, doc'. split; [done|]. split; [|by rewrite lookup_insert_eq].
    rewrite <- Hma. do 4 f_equal. rewrite Htc, Htt, Htb. done.
Qed.


End Claims.

(** * Further properties of the functions *)

#[global] Instance entries_kept_preorder : PreOrder entries_kept.
Proof.
  split.
  - intros w k v H. eauto.
  - intros w1 w2 w3 H1 H2 k v Hk.
    destruct (H1 k v Hk) as (v' & Hv' & Hd).
    destruct (H2 k v' Hv') as (v'' & Hv'' & Hd'').
    exists v''. split; [done|congruence].
Qed.

Lemma mkdir_from_keeps (pre rest : path) (fs fs' : FS) :
  mkdir_from pre rest fs = inr fs' → ∀ k v, fs !! k = Some v → fs' !! k = Some v.
Proof.
  revert pre fs. induction rest as [|n rest IH]; intros pre fs; simpl.
  - by intros [= ->].
  - destruct (fs !! (pre ++ [n])) as [[d|]|] eqn:Hq; [done|apply IH|].
    intros H k v Hk. eapply IH; [exact H|].
    rewrite lookup_insert_ne; [done|]. intros <-. congruence.
Qed.

Lemma forM__Ok_elem {A} (xs : list A) (body : A → M unit) (w w' : World) :
  forM_ xs body w = (Ok tt, w') →
  ∀ x, x ∈ xs → ∃ wx wx', body x wx = (Ok tt, wx').
Proof.
  revert w. induction xs as [|y xs IH]; simpl; intros w H x Hx.
  - by apply elem_of_nil in Hx.
  - apply bind_Ok_inv in H as ([] & w1 & Hb & Hr).
    apply elem_of_cons in Hx as [->|Hx]; eauto.
Qed.

Section Further.

Variable E : Env.

Lemma sys_Err {A} (c : syscall) (f : FS → errno + (A * FS)) (w w' : World) (e : error) :
  sys E c f w = (Err e, w') → ∃ code, e = PathError c code ∧ w' = w.
Proof.
  intros [(code & [= ->] & ->)|(? & ? & _ & _ & ? & _)]%sys_inv; [eauto|done].
Qed.

Lemma sys_keeps {A} (c : syscall) (f : FS → errno + (A * FS)) :
  (∀ fs a fs', f fs = inr (a, fs') →
     ∀ k v, fs !! k = Some v → ∃ v', fs' !! k = Some v' ∧ is_dir v' = is_dir v) →
  preserves entries_kept (sys E c f).
Proof.
  intros Hf w r w' [(code & _ & ->)|(a & fs' & _ & Hfs & _ & ->)]%sys_inv.
  - reflexivity.
  - intros k v Hk. by eapply Hf.
Qed.

Lemma os_MkdirAll_keeps (p : path) : preserves entries_kept (os_MkdirAll E p).
Proof.
  apply sys_keeps. intros fs a fs' H k v Hk.
  destruct (mkdir_from [] p fs) as [|fs1] eqn:Hm; simplify_eq.
  exists v. split; [|done]. by eapply mkdir_from_keeps.
Qed.

Lemma os_Create_inv (p : path) (w w' : World) (r : result path) :
  os_Create E p w = (r, w') →
  (∃ e, r = Err e ∧ w' = w) ∨
  (r = Ok p ∧ w' = with_fs (<[p := IFile ""]> (fs w)) w ∧
   ∀ v, fs w !! p = Some v → is_dir v = false).
Proof.
  intros [(code & -> & ->)|(a & fs' & _ & H & -> & ->)]%sys_inv; [eauto|].
  right. destruct p as [|x p]; [done|]. cbn [stat] in H.
  destruct (fs w !! (x :: p)) as [[d|]|] eqn:Hp; simplify_eq.
  - split; [done|]. split; [done|]. by intros v [= <-].
  - destruct (stat (fs w) (parent (x :: p))) as [[?|]|]; simplify_eq.
    split; [done|]. split; [done|]. done.
Qed.

Lemma copy_file_keeps (sp dp : path) :
  preserves entries_kept
    (let* srcFile := os_Open E sp in
     let* dstFile := os_Create E dp in
     io_Copy E dstFile srcFile).
Proof.
  intros w r w' H.
  apply bind_inv in H as [(a & w1 & H1 & H2)|(e & H1 & _)].
  2:{ apply os_Open_world in H1 as ->. reflexivity. }
  apply os_Open_world in H1 as ->.
  apply bind_inv in H2 as [(b & w2 & H2 & H3)|(e & H2 & _)].
  2:{ apply os_Create_inv in H2 as [(? & _ & ->)|(? & _)]; [reflexivity|done]. }
  apply os_Create_inv in H2 as [(? & ? & _)|([= ->] & -> & Hk)]; [done|].
  assert (∀ data, entries_kept w (with_fs (<[dp := IFile data]> (<[dp := IFile ""]> (fs w))) w))
    as Hfin.
  { intros data k v Hv. cbn [fs with_fs]. destruct (decide (k = dp)) as [->|Hne].
    - rewrite lookup_insert_eq. exists (IFile data). split; [done|].
      symmetry. by apply Hk.
    - rewrite !lookup_insert_ne by done. eauto. }
  apply sys_inv in H3 as [(code & _ & ->)|(u & fs' & _ & Hf & _ & ->)].
  - intros k v Hv. cbn [fs with_fs]. destruct (decide (k = dp)) as [->|Hne].
    + rewrite lookup_insert_eq. exists (IFile ""). split; [done|].
      symmetry. by apply Hk.
    + rewrite lookup_insert_ne by done. eauto.
  - cbn [fs with_fs] in Hf.
    destruct (stat _ a) as [[data|]|]; simplify_eq. apply Hfin.
Qed.

Lemma copyDir_rec_keeps (depth : nat) (src dst : path) :
  preserves entries_kept (copyDir_rec E depth src dst).
Proof.
  revert src dst. induction depth as [|depth IH]; intros src dst; cbn [copyDir_rec].
  - apply preserves_throw; apply _.
  - apply preserves_bind; [apply _| apply os_MkdirAll_keeps |]. intros _.
    apply preserves_bind; [apply _| |].
    { intros w r w' ->%os_ReadDir_world. reflexivity. }
    intros entries. apply preserves_forM_; [apply _|]. intros [n d] _.
    destruct d; cbn [fst snd]; [apply IH | apply copy_file_keeps].
Qed.

Lemma copyDir_rec_errors (depth : nat) (src dst : path) (w w' : World) (e : error) :
  (path_max E + 1 < depth + length dst)%nat → (0 < depth)%nat →
  copyDir_rec E depth src dst w = (Err e, w') →
  ∃ op code, e = PathError op code.
Proof.
  revert src dst w. induction depth as [|depth IH]; intros src dst w Hd Hpos; [lia|].
  cbn [copyDir_rec]. intros Hrun.
  apply bind_inv in Hrun as [([] & w1 & Hmk & Hrun)|(e' & Hmk & [= <-])].
  2:{ apply sys_Err in Hmk as (code & -> & _). eauto. }
  apply os_MkdirAll_depth in Hmk.
  apply bind_inv in Hrun as [(es & w2 & Hrd & Hrun)|(e' & Hrd & [= <-])].
  2:{ apply sys_Err in Hrd as (code & -> & _). eauto. }
  apply forM__Err in Hrun as ([n d] & wx & _ & Hb). cbn [fst snd] in Hb. destruct d.
  - apply (IH (src ++ [n]) (dst ++ [n]) wx); [rewrite length_app; simpl; lia | lia | done].
  - apply bind_inv in Hb as [(a & wa & _ & Hb)|(e' & Hb & [= <-])].
    2:{ apply sys_Err in Hb as (code & -> & _). eauto. }
    apply bind_inv in Hb as [(a' & wa' & _ & Hb)|(e' & Hb & [= <-])].
    2:{ apply sys_Err in Hb as (code & -> & _). eauto. }
    apply sys_Err in Hb as (code & -> & _). eauto.
Qed.

Lemma copyDir_rec_inside (depth : nat) (src dst : path) (w : World) :
  src `prefix_of` dst → src ≠ dst →
  ∃ e, (copyDir_rec E depth src dst w).1 = Err e.
Proof.
  revert src dst w. induction depth as [|depth IH]; intros src dst w [y ->] Hne.
  { cbn [copyDir_rec]. by eexists. }
  destruct y as [|y0 y']; [by rewrite app_nil_r in Hne|].
  destruct (copyDir_rec E (S depth) src (src ++ y0 :: y') w) as [[[]|e] w'] eqn:Hrun;
    [exfalso|by eexists].
  cbn [copyDir_rec] in Hrun.
  apply bind_Ok_inv in Hrun as ([] & w1 & (fs1 & Hmk & ->)%os_MkdirAll_Ok & Hrun).
  apply bind_Ok_inv in Hrun as (entries & w2 & (_ & -> & ->)%os_ReadDir_Ok & Hloop).
  cbn [fs with_fs] in Hloop.
  assert (fs1 !! (src ++ [y0]) = Some IDir) as Hy.
  { apply (mkdir_from_made [] (src ++ y0 :: y') _ _ Hmk).
    - exists y'. cbn [app]. by rewrite <- app_assoc.
    - intros Hp%prefix_nil_inv. by destruct src. }
  destruct (forM__Ok_elem _ _ _ _ Hloop (y0, true)) as (wx & wx' & Hb).
  { apply dir_entries_elem. exists IDir. done. }
  cbn [fst snd] in Hb.
  assert (copyDir_rec E depth (src ++ [y0]) ((src ++ y0 :: y') ++ [y0]) wx = (Ok tt, wx'))
    as Hb' by exact Hb.
  destruct (IH (src ++ [y0]) ((src ++ y0 :: y') ++ [y0]) wx) as [e He].
  - exists (y' ++ [y0]). by rewrite <- !app_assoc.
  - intros Heq%(f_equal length). rewrite !length_app in Heq. simpl in Heq. lia.
  - by rewrite Hb' in He.
Qed.

(** A successful [copyDir] lays the source tree over what the destination
    held. *)
Lemma copyDir_rec_overlays (depth : nat) (src dst : path) (w w' : World) :
  ¬ related src dst → tree_wf src (fs w) →
  copyDir_rec E depth src dst w = (Ok tt, w') →
  ∀ rel, fs w' !! (dst ++ rel) = overlaid src dst (fs w) rel.
Proof.
  revert src dst w w'. induction depth as [|depth IH]; intros src dst w w' Hun Hwf; [done|].
  destruct (unrelated_ne_nil _ _ Hun) as [Hsrc Hdst].
  cbn [copyDir_rec]. intros ([] & w1 & (fs1 & Hmk & ->)%os_MkdirAll_Ok & H)%bind_Ok_inv.
  apply bind_Ok_inv in H as (entries & w2 & (Hst & -> & ->)%os_ReadDir_Ok & Hloop).
  cbn [fs with_fs] in *.
  assert (∀ rel, fs1 !! (src ++ rel) = fs w !! (src ++ rel)) as Hsrc1.
  { intros rel. apply (mkdir_from_other [] dst _ _ Hmk). simpl. intros Hp.
    apply Hun. left. etrans; [|exact Hp]. by apply prefix_app_r. }
  assert (∀ rel, rel ≠ [] → fs1 !! (dst ++ rel) = fs w !! (dst ++ rel)) as Hdst1.
  { intros rel Hrel. apply (mkdir_from_other [] dst _ _ Hmk).
    simpl. intros Hp%prefix_length. rewrite length_app in Hp.
    destruct rel; [done|]. simpl in Hp. lia. }
  assert (fs1 !! dst = Some IDir) as Hd1.
  { apply (mkdir_from_made [] dst _ _ Hmk); [done|]. by intros ->%prefix_nil_inv. }
  assert (tree_wf src fs1) as Hwf1 by by apply (tree_wf_ext src (fs w)).
  rewrite stat_lookup in Hst by done.
  assert (∀ (todo : list (string * bool)) (wc : World),
    NoDup todo.*1 →
    (∀ n d, (n, d) ∈ todo → ∃ v, fs1 !! (src ++ [n]) = Some v ∧ d = is_dir v) →
    (∀ rel, fs wc !! (src ++ rel) = fs1 !! (src ++ rel)) →
    fs wc !! dst = Some IDir →
    (∀ n, n ∈ todo.*1 → ∀ rel, fs wc !! (dst ++ n :: rel) = fs1 !! (dst ++ n :: rel)) →
    forM_ todo (λ entry : string * bool,
        if entry.2 then copyDir_rec E depth (src ++ [entry.1]) (dst ++ [entry.1])
        else let* srcFile := os_Open E (src ++ [entry.1]) in
             let* dstFile := os_Create E (dst ++ [entry.1]) in
             io_Copy E dstFile srcFile) wc = (Ok tt, w') →
    fs w' !! dst = Some IDir ∧
    (∀ n rel, n ∈ todo.*1 → fs w' !! (dst ++ n :: rel) = overlaid src dst fs1 (n :: rel)) ∧
    (∀ n rel, n ∉ todo.*1 → fs w' !! (dst ++ n :: rel) = fs wc !! (dst ++ n :: rel)))
    as Hinv.
  { clear Hloop. induction todo as [|[n d] todo IHl]; intros wc Hnd Hent Hs Hd Hold; simpl.
    - intros [= <-]. split; [done|]. split; [|done]. by intros n rel ?%elem_of_nil.
    - apply NoDup_cons in Hnd as [Hn Hnd].
      intros ([] & wc' & Hbody & Hrest)%bind_Ok_inv.
      assert (only_writes_below (dst ++ [n]) wc wc') as (Hfr & _ & _).
      { destruct d.
        - by eapply copyDir_rec_preserves.
        - revert Hbody. apply preserves_bind_val with (P := λ a, a = src ++ [n]);
            [apply _ | intros ???; apply os_Open_val | apply os_Open_preserves |].
          intros ? ->. apply preserves_bind_val with (P := λ a, a = dst ++ [n]);
            [apply _ | intros ???; apply os_Create_val | apply os_Create_preserves |].
          intros ? ->. apply io_Copy_preserves. }
      assert (∀ m rel, m ≠ n → fs wc' !! (dst ++ m :: rel) = fs wc !! (dst ++ m :: rel)) as Hoth.
      { intros m rel Hm. apply (frame_unrelated (dst ++ [n])); [done|].
        by apply sibling_unrelated. }
      assert (∀ rel, fs wc' !! (src ++ rel) = fs1 !! (src ++ rel)) as Hs'.
      { intros rel. rewrite <- Hs. apply (frame_unrelated (dst ++ [n])); [done|].
        by apply unrelated_snoc_below. }
      assert (fs wc' !! dst = Some IDir) as Hd'.
      { destruct (Hfr dst) as [Heq|(_ & _ & Hnn & _)]; [|congruence..].
        intros Hp%prefix_length. rewrite length_app in Hp. simpl in Hp. lia. }
      assert (∀ rel, fs wc' !! (dst ++ n :: rel) = overlaid src dst fs1 (n :: rel)) as Hnew.
      { destruct (Hent n d) as (v & Hv & ->); [left|].
        destruct v as [data0|]; cbn [is_dir fst snd] in Hbody.
        - apply bind_Ok_inv in Hbody as (a & wa & [-> ->]%os_Open_Ok & Hbody).
          apply bind_Ok_inv in Hbody as (a & wa & [-> ->]%os_Create_Ok & Hbody).
          apply io_Copy_Ok in Hbody as (data & Hst' & ->). cbn [fs with_fs] in *.
          rewrite stat_lookup in Hst' by (destruct src; done).
          rewrite lookup_insert_ne in Hst'.
          2:{ intros [Heq _]%app_inj_tail. apply Hun. left. by rewrite Heq. }
          rewrite (Hs [n]), Hv in Hst'. injection Hst' as ->.
          intros [|m rel]; unfold overlaid.
          + by rewrite lookup_insert_eq, Hv.
          + rewrite !lookup_insert_ne.
            2,3: intros Heq%(f_equal length); rewrite !length_app in Heq; simpl in Heq; lia.
            rewrite (Hold n) by left.
            replace (fs1 !! (src ++ n :: m :: rel)) with (@None inode); [done|].
            symmetry. rewrite (snoc_cons_app src n), <- app_assoc.
            apply (tree_wf_leaf src [n] fs1 Hwf1) with (rel2 := m :: rel); [|done].
            rewrite stat_lookup by (destruct src; done). by rewrite Hv.
        - intros rel. rewrite (snoc_cons_app dst n).
          assert (copyDir_rec E depth (src ++ [n]) (dst ++ [n]) wc = (Ok tt, wc')) as Hb'
            by exact Hbody.
          rewrite (IH (src ++ [n]) (dst ++ [n]) wc wc'); [| | |done].
          + unfold overlaid. rewrite <- !app_assoc. cbn [app].
            by rewrite Hs, (Hold n) by left.
          + by apply unrelated_snoc.
          + apply tree_wf_app. by apply (tree_wf_ext src fs1). }
      destruct (IHl wc') as (Hfin1 & Hfin2 & Hfin3); [done| |done|done| |done|].
      { intros m d' Hin. apply Hent. by right. }
      { intros m Hm rel. rewrite Hoth; [apply Hold; by right|].
        intros ->. done. }
      split; [done|]. split.
      + intros m rel [->|Hm]%elem_of_cons.
        * rewrite Hfin3 by done. apply Hnew.
        * by apply Hfin2.
      + intros m rel Hm%not_elem_of_cons. destruct Hm as [Hmn Hm].
        rewrite Hfin3 by done. by apply Hoth. }
  destruct (Hinv (dir_entries fs1 src) (with_fs fs1 w)) as (Hfin1 & Hfin2 & Hfin3);
    cbn [fs with_fs].
  - apply dir_entries_NoDup.
  - intros n d. by rewrite dir_entries_elem.
  - done.
  - done.
  - done.
  - done.
  - intros [|n rel]; unfold overlaid.
    + pose proof (Hsrc1 []) as H0. rewrite !app_nil_r in *.
      by rewrite Hfin1, <- H0, Hst.
    + destruct (decide (n ∈ (dir_entries fs1 src).*1)) as [Hin|Hin].
      { rewrite Hfin2 by done. unfold overlaid. by rewrite Hsrc1, Hdst1. }
      rewrite Hfin3 by done. cbn [fs with_fs]. rewrite Hdst1 by done.
      replace (fs w !! (src ++ n :: rel)) with (@None inode); [done|].
      symmetry. rewrite <- Hsrc1.
      assert (fs1 !! (src ++ [n]) = None) as Hn.
      { destruct (fs1 !! (src ++ [n])) as [v|] eqn:Hv; [|done]. exfalso. apply Hin.
        apply list_elem_of_fmap. exists (n, is_dir v). split; [done|].
        apply dir_entries_elem. eauto. }
      destruct rel as [|m rel]; [done|].
      rewrite (snoc_cons_app src n), <- app_assoc.
      apply (tree_wf_leaf src [n] fs1 Hwf1) with (rel2 := m :: rel); [|done].
      rewrite stat_lookup by (destruct src; done). by rewrite Hn.
Qed.

Lemma copyDir_rec_missing (depth : nat) (src dst : path) (w w' : World) (r : result unit) :
  stat (fs w) src ≠ Some IDir → ¬ src `prefix_of` dst →
  copyDir_rec E (S depth) src dst w = (r, w') →
  (∃ code, r = Err (PathError (SysMkdirAll dst) code) ∧ w' = w) ∨
  (∃ code fs1, r = Err (PathError (SysReadDir src) code) ∧
     mkdir_from [] dst (fs w) = inr fs1 ∧ w' = with_fs fs1 w).
Proof.
  intros Hst Hp. cbn [copyDir_rec].
  intros [([] & w1 & (fs1 & Hmk & ->)%os_MkdirAll_Ok & H)|(e & Herr & ->)]%bind_inv.
  2:{ left. apply sys_Err in Herr as (code & -> & ->). eauto. }
  right. apply bind_inv in H as [(es & w2 & (Hs & _)%os_ReadDir_Ok & _)|(e & Herr & ->)].
  - exfalso. apply Hst. cbn [fs with_fs] in Hs. destruct src as [|x src]; [done|].
    cbn [stat] in *. rewrite <- Hs. symmetry. by apply (mkdir_from_other [] dst _ _ Hmk).
  - apply sys_Err in Herr as (code & -> & ->). eauto.
Qed.



Lemma backupTrivyDB_eq_refused (c : path) (w : World) (code : errno) :
  denied E (SysRemoveAll backupDir) = Some code →
  backupTrivyDB E c w = backup_rest E c (say [EvCall FnBackup] w).
Proof.
  intros Hd. unfold backupTrivyDB. unfold bind at 1, emit at 1.
  unfold bind at 1, try, os_RemoveAll, sys. rewrite Hd. reflexivity.
Qed.

(** A backup that succeeds has run a [copyDir] that succeeded, in a world
    that has the backup location and otherwise holds nothing new. *)
Lemma backupTrivyDB_Ok_copy (c : path) (w w' : World) (u : unit) :
  backupTrivyDB E c w = (Ok u, w') →
  ∃ w1 w2, copyDir E c backupDir w1 = (Ok tt, w2) ∧ fs w' = fs w2 ∧
    (fs w1 !! backupDir = Some IDir) ∧
    (∀ k, ¬ k `prefix_of` backupDir → fs w1 !! k = fs w !! k ∨ fs w1 !! k = None) ∧
    (denied E (SysRemoveAll backupDir) ≠ None →
       ∀ k, ¬ k `prefix_of` backupDir → fs w1 !! k = fs w !! k).
Proof.
  intros Hb.
  assert (∃ w0, backup_rest E c w0 = (Ok u, w') ∧
            (∀ k, fs w0 !! k = fs w !! k ∨ fs w0 !! k = None) ∧
            (denied E (SysRemoveAll backupDir) ≠ None → fs w0 = fs w))
    as (w0 & Hrest & Hw0 & Hw0').
  { destruct (denied E (SysRemoveAll backupDir)) as [code|] eqn:Hd.
    - rewrite (backupTrivyDB_eq_refused c w code Hd) in Hb. eexists. split; [exact Hb|].
      split; [by left|done].
    - rewrite backupTrivyDB_eq in Hb by done. eexists. split; [exact Hb|].
      split; [|done]. intros k. cbn [fs with_fs]. rewrite lookup_remove_tree.
      case_decide; [by right|by left]. }
  unfold backup_rest in Hrest.
  apply bind_Ok_inv in Hrest as ([] & wX & Hmk%wrap_Ok_inv & Htail).
  apply os_MkdirAll_Ok in Hmk as (fsX & Hmk & ->).
  apply bind_Ok_inv in Htail as ([] & w3 & Hcp%wrap_Ok_inv & Hem).
  injection Hem as _ <-. destruct u.
  exists (with_fs fsX w0), w3. split; [done|]. split; [done|]. cbn [fs with_fs].
  split; [|split].
  - apply (mkdir_from_made [] backupDir _ _ Hmk); [done|]. by intros ?%prefix_nil_inv.
  - intros k Hk. rewrite (mkdir_from_other [] backupDir _ _ Hmk) by done. apply Hw0.
  - intros Hd k Hk. rewrite (mkdir_from_other [] backupDir _ _ Hmk) by done.
    by rewrite Hw0'.
Qed.

(** The two errors of [backupTrivyDB]. *)
Lemma backupTrivyDB_Err (c : path) (w w' : World) (e : error) :
  backupTrivyDB E c w = (Err e, w') →
  ∃ msg op code, e = Errorf msg (PathError op code) ∧
    (msg = "failed to create backup directory" ∨ msg = "failed to copy directory").
Proof.
  unfold backupTrivyDB. unfold bind at 1, emit at 1.
  intros [(x & w1 & _ & H)|(e' & H1 & _)]%bind_inv.
  2:{ unfold try in H1. by destruct (os_RemoveAll _ _ _). }
  apply bind_inv in H as [([] & w2 & _ & H)|(e' & (rm & H2 & Hrm)%wrap_inv & [= <-])].
  2:{ destruct rm as [|e0]; [done|]. injection Hrm as ->.
      apply sys_Err in H2 as (code & -> & _). eauto 10. }
  apply bind_inv in H as [([] & w3 & _ & H)|(e' & (rc & H3 & Hrc)%wrap_inv & [= <-])].
  { by injection H. }
  destruct rc as [|e0]; [done|]. injection Hrc as ->.
  apply copyDir_rec_errors in H3 as (op & code & ->); [eauto 10|lia..].
Qed.

(** ** [copyDir] *)

(** X1.  A [copyDir] that succeeds lays the source tree over the
    destination: at every path below the destination there is afterwards
    the entry the source has at that path, and where the source has none,
    the entry the destination had.  What the destination held and the
    source does not have is kept: [copyDir] merges, it does not mirror.  The
    source tree itself is unchanged.  (For a source and a destination of
    which neither is inside the other, and a source tree in which every
    entry lies in a directory.) *)
Theorem X1_copyDir_lays_the_source_over_the_destination (src dst : path) (w w' : World) :
  ¬ related src dst → tree_wf src (fs w) →
  copyDir E src dst w = (Ok tt, w') →
  (∀ rel, fs w' !! (dst ++ rel) = overlaid src dst (fs w) rel) ∧
  (∀ rel, fs w' !! (src ++ rel) = fs w !! (src ++ rel)).
Proof.
  intros Hun Hwf Hcp. unfold copyDir in Hcp. split.
  - exact (copyDir_rec_overlays _ src dst w w' Hun Hwf Hcp).
  - intros rel. apply copyDir_rec_preserves in Hcp as (Hfr & _).
    apply (frame_unrelated dst); [done|]. by apply unrelated_below.
Qed.

(** X2.  Whatever [copyDir] returns, it prints nothing, does not read the
    clock, and changes nothing outside the tree below its destination,
    except that [os.MkdirAll] may have created the missing directories that
    lead to the destination. *)
Theorem X2_copyDir_writes_below_the_destination_only (src dst : path) (w : World) :
  out (copyDir E src dst w).2 = out w ∧
  ticks (copyDir E src dst w).2 = ticks w ∧
  ∀ k, ¬ dst `prefix_of` k →
    fs (copyDir E src dst w).2 !! k = fs w !! k ∨
    (k `prefix_of` dst ∧ fs w !! k = None ∧ fs (copyDir E src dst w).2 !! k = Some IDir).
Proof.
  destruct (copyDir E src dst w) as [r w'] eqn:H. cbn [snd].
  apply copyDir_rec_preserves in H as (Hfr & Ht & Ho). split; [done|]. split; [done|].
  intros k Hk. destruct (Hfr k Hk) as [?|(? & _ & ? & ?)]; [by left|by right].
Qed.

(** X3.  Whatever [copyDir] returns, it removes nothing and turns no file
    into a directory or directory into a file: every path that had an entry
    has afterwards an entry of the same kind. *)
Theorem X3_copyDir_removes_nothing (src dst : path) (w : World) (k : path) (v : inode) :
  fs w !! k = Some v →
  ∃ v', fs (copyDir E src dst w).2 !! k = Some v' ∧ is_dir v' = is_dir v.
Proof.
  intros Hk. destruct (copyDir E src dst w) as [r w'] eqn:H. cbn [snd].
  by apply (copyDir_rec_keeps _ _ _ _ _ _ H).
Qed.

(** X4.  Every error of [copyDir] is the error of one of its system calls,
    returned as it is (lines 39, 44, 53, 58, 64, 69): [copyDir] wraps
    nothing, and the bound on the nesting of its calls is never what stops
    it. *)
Theorem X4_copyDir_returns_the_error_of_a_system_call
    (src dst : path) (w : World) (e : error) :
  (copyDir E src dst w).1 = Err e → ∃ op code, e = PathError op code.
Proof.
  destruct (copyDir E src dst w) as [r w'] eqn:H. cbn [fst]. intros ->.
  apply copyDir_rec_errors in H; [done|lia..].
Qed.

(** X5.  [copyDir] into a directory that lies inside the source never
    succeeds: the destination is found among the entries of the source and
    copied into itself, one level deeper each time, until a system call
    fails. *)
Theorem X5_copyDir_into_its_own_subtree_fails (src dst : path) (w : World) :
  src `prefix_of` dst → src ≠ dst →
  ∃ op code, (copyDir E src dst w).1 = Err (PathError op code).
Proof.
  intros Hp Hne. unfold copyDir.
  destruct (copyDir_rec_inside (S (S (path_max E))) src dst w Hp Hne) as [e He].
  destruct (copyDir_rec E _ src dst w) as [r w'] eqn:H. cbn [fst] in *. subst r.
  apply copyDir_rec_errors in H as (op & code & ->); [eauto|lia..].
Qed.


(** ** [backupTrivyDB] *)

(** X7.  A [backupTrivyDB] that succeeds, after an [os.RemoveAll] that was
    not refused, leaves in the backup location the cache tree path for path,
    leaves the cache as it was, prints the line of line 90 and does not read
    the clock.  (For a cache directory that does not overlap the backup
    location, and a cache tree in which every entry lies in a directory.) *)
Theorem X7_backup_is_a_copy_of_the_cache (c : path) (w w' : World) :
  ¬ related c backupDir → tree_wf c (fs w) →
  denied E (SysRemoveAll backupDir) = None →
  backupTrivyDB E c w = (Ok tt, w') →
  (∀ rel, fs w' !! (backupDir ++ rel) = fs w !! (c ++ rel)) ∧
  (∀ rel, fs w' !! (c ++ rel) = fs w !! (c ++ rel)) ∧
  out w' = out w ++ [EvCall FnBackup; BackedUp c backupDir] ∧
  ticks w' = ticks w.
Proof.
  intros Hun Hwf Hd Hb. split_and!.
  - by apply (backupTrivyDB_copies E c w w' tt).
  - by apply (backupTrivyDB_cache E c w w' (Ok tt)).
  - by apply backupTrivyDB_out in Hb as [_ ?].
  - by apply backupTrivyDB_out in Hb as [? _].
Qed.



(** X10.  When the backup location lies inside the cache directory (a
    cache directory [/tmp] or [/]), [backupTrivyDB] always fails, with the
    error of a system call wrapped once: the copy would have to copy the
    backup location into itself. *)
Theorem X10_backup_of_a_directory_that_holds_the_backup_location_fails
    (c : path) (w : World) :
  c `prefix_of` backupDir → c ≠ backupDir →
  ∃ msg op code, (backupTrivyDB E c w).1 = Err (Errorf msg (PathError op code)).
Proof.
  intros Hp Hne. destruct (backupTrivyDB E c w) as [[[]|e] w'] eqn:Hb; cbn [fst].
  - exfalso. apply backupTrivyDB_Ok_copy in Hb as (w1 & w2 & Hcp & _).
    unfold copyDir in Hcp.
    destruct (copyDir_rec_inside (S (S (path_max E))) c backupDir w1 Hp Hne) as [e He].
    by rewrite Hcp in He.
  - apply backupTrivyDB_Err in Hb as (msg & op & code & -> & _). eauto.
Qed.

(** ** [updateMetadataNextUpdate] and [restoreTrivyDB] *)

Lemma updateMetadataNextUpdate_Err (p : path) (w w' : World) (e : error) :
  updateMetadataNextUpdate E p w = (Err e, w') →
  fs w' = fs w ∧ out w' = out w ++ [EvCall FnStamp] ∧
  ticks w' = match (readMetadata E p w).1 with
             | Ok _ => S (ticks w)
             | Err _ => ticks w
             end.
Proof.
  unfold updateMetadataNextUpdate. unfold bind at 1, emit at 1.
  rewrite <- (readMetadata_ext E p (say [EvCall FnStamp] w) w) by reflexivity.
  intros [(m & w1 & H1 & H)|(e' & H1 & _)]%bind_inv.
  2:{ pose proof (readMetadata_world E _ _ _ _ H1) as ->.
      unfold say. rewrite H1. done. }
  pose proof (readMetadata_world E _ _ _ _ H1) as ->.
  unfold say. rewrite H1. cbn [fst].
  unfold bind at 1, time_Now at 1 in H. cbn [fs ticks out] in H.
  destruct (json_Marshal E _) as [d|].
  2:{ by injection H as _ <-. }
  apply bind_inv in H as [([] & w2 & _ & H)|(e' & (rw & H2 & Hrw)%wrap_inv & _)].
  - by injection H.
  - destruct rw as [|e0]; [done|]. by apply sys_Err in H2 as (? & _ & ->).
Qed.

Lemma updateMetadataNextUpdate_frame (p : path) (w w' : World) (r : result unit) :
  updateMetadataNextUpdate E p w = (r, w') → frame p (fs w) (fs w').
Proof.
  destruct r as [u|e]; intros H.
  - apply updateMetadataNextUpdate_Ok in H as (doc & m & doc' & _ & _ & _ & _ & ->).
    by apply frame_insert.
  - apply updateMetadataNextUpdate_Err in H as (-> & _). apply frame_refl.
Qed.

(** The steps of [restoreTrivyDB], with the worlds between them. *)
Lemma restoreTrivyDB_steps (c : path) (w w' : World) (r : result unit) :
  denied E (SysRemoveAll c) = None →
  restoreTrivyDB E c w = (r, w') →
  ∃ rc w1,
    copyDir E backupDir c (with_fs (remove_tree c (fs w)) (say [EvCall FnRestore] w)) = (rc, w1) ∧
    match rc with
    | Err e => r = Err (Errorf "failed to restore from backup" e) ∧ w' = w1
    | Ok _ =>
        ∃ rs ws, updateMetadataNextUpdate E (metadata_of c) w1 = (rs, ws) ∧
          match rs with
          | Ok _ => r = Ok tt ∧ w' = say [Restored c backupDir] ws
          | Err e => r = Err (Errorf "failed to update metadata timestamp" e) ∧ w' = ws
          end
    end.
Proof.
  intros Hd. unfold restoreTrivyDB. unfold bind at 1, emit at 1.
  fold (say [EvCall FnRestore] w).
  unfold bind at 1, wrap at 1, os_RemoveAll, sys. rewrite Hd.
  intros [([] & w2 & Hcp%wrap_Ok_inv & H)|(e & (rr & Hcp & Hrr)%wrap_inv & ->)]%bind_inv.
  2:{ destruct rr as [|e0]; [done|]. injection Hrr as ->. exists (Err e0), w'. done. }
  exists (Ok tt), w2. split; [done|]. fold (metadata_of c) in H.
  apply bind_inv in H as [([] & w3 & Hup%wrap_Ok_inv & H)|(e & (rr & Hup & Hrr)%wrap_inv & ->)].
  - injection H as <- <-. exists (Ok tt), w3. done.
  - destruct rr as [|e0]; [done|]. injection Hrr as ->. exists (Err e0), w'. done.
Qed.

Lemma restoreTrivyDB_frame (c : path) (w w' : World) (r : result unit) :
  restoreTrivyDB E c w = (r, w') → frame c (fs w) (fs w').
Proof.
  unfold restoreTrivyDB. unfold bind at 1, emit at 1.
  intros [([] & w1 & (rr & H1 & _)%wrap_inv & H)|(e & (rr & H1 & _)%wrap_inv & _)]%bind_inv.
  2:{ by apply os_RemoveAll_preserves in H1 as (? & _). }
  apply os_RemoveAll_preserves in H1 as (Hf1 & _). cbn [fs] in Hf1.
  eapply frame_trans; [exact Hf1|].
  apply bind_inv in H as [([] & w2 & (rc & H2 & _)%wrap_inv & H)|(e & (rc & H2 & _)%wrap_inv & _)].
  2:{ by apply copyDir_rec_preserves in H2 as (? & _). }
  apply copyDir_rec_preserves in H2 as (Hf2 & _).
  eapply frame_trans; [exact Hf2|].
  assert (∀ rs ws, updateMetadataNextUpdate E (c ++ ["db"; "metadata.json"]) w2 = (rs, ws) →
            frame c (fs w2) (fs ws)) as Hup.
  { intros rs ws Hu%updateMetadataNextUpdate_frame.
    apply (frame_snoc c "db"), (frame_snoc (c ++ ["db"]) "metadata.json").
    by rewrite <- app_assoc. }
  apply bind_inv in H as [([] & w3 & (ru & H3 & _)%wrap_inv & H)|(e & (ru & H3 & _)%wrap_inv & _)].
  - injection H as _ <-. cbn [fs]. by eapply Hup.
  - by eapply Hup.
Qed.




(** ** [main] *)

Lemma announced_out (r : result MetadataJSON) (w : World) :
  fs (announced r w) = fs w ∧
  ∃ l, out (announced r w) = out w ++ l ∧ calls l = [].
Proof. destruct r; (split; [done|]); eexists; (split; [reflexivity|done]). Qed.


(** X15.  The functions [main] calls, in the order of the calls, are an
    initial part of: [backupTrivyDB], [runTrivyUpdateCommand],
    [restoreTrivyDB], [updateMetadataNextUpdate].  So each is called at most
    once, the restore only after the tool, the stamp only in the restore. *)
Theorem X15_main_calls_its_steps_in_order (c : path) (w : World) :
  ∃ l, out (main E c w).2 = out w ++ l ∧
       calls l `prefix_of` [FnBackup; FnRunTrivy; FnRestore; FnStamp].
Proof.
  pose proof (readMetadata_same E (metadata_of c) w) as Hr.
  destruct (due E w (readMetadata E (metadata_of c) w).1) eqn:Hdue.
  2:{ destruct (readMetadata E (metadata_of c) w).1 as [m|e] eqn:Hm; [|done].
      rewrite (main_idle E c w m Hr Hdue). cbn [snd out]. eexists. split; [reflexivity|].
      apply prefix_nil. }
  rewrite (main_cycle E c w _ Hr Hdue).
  destruct (announced_out (readMetadata E (metadata_of c) w).1 w) as (_ & la & Hla & Hca).
  destruct (backupTrivyDB _ _ _) as [[[]|eb] wb] eqn:Hb;
    apply backupTrivyDB_out in Hb as [_ Hob]; rewrite Hla in Hob.
  2:{ cbn [snd say out]. rewrite Hob. rewrite <- !app_assoc. eexists. split; [reflexivity|].
      rewrite !calls_app, Hca. by exists [FnRunTrivy; FnRestore; FnStamp]. }
  destruct (runTrivyUpdateCommand _ _ _) as [[[]|et] wt] eqn:Ht;
    apply runTrivyUpdateCommand_out in Ht as [_ Hot]; rewrite Hob in Hot.
  - rewrite (readMetadata_same E (metadata_of c) (say _ wt)).
    assert (calls (completed (readMetadata E (metadata_of c) w).1) = []) as Hcc
      by by destruct (readMetadata E (metadata_of c) w).1.
    destruct (readMetadata E (metadata_of c) (say _ wt)).1; cbn [snd say out]; rewrite Hot;
      rewrite <- !app_assoc; (eexists; split; [reflexivity|]);
      rewrite !calls_app, Hca, Hcc; by exists [FnRestore; FnStamp].
  - destruct (restoreTrivyDB _ _ _) as [[[]|er] wr] eqn:Hrs;
      apply restoreTrivyDB_out in Hrs as (l' & Ho & Hc); cbn [say out] in Ho;
      rewrite Hot in Ho; cbn [snd say out]; rewrite Ho; rewrite <- !app_assoc;
      (eexists; split; [reflexivity|]);
      rewrite !calls_app, Hca;
      change (calls (EvCall FnRestore :: ?l)) with (FnRestore :: calls l);
      rewrite ?calls_app; destruct Hc as [-> | ->];
      first [by exists [FnStamp] | by exists []].
Qed.

(** X16.  [main] leaves every entry outside the cache directory and the
    backup location as it is, when the external tool writes below the cache
    directory only. *)
Theorem X16_main_keeps_what_is_outside_the_cache_and_the_backup
    (c : path) (w : World) (k : path) (v : inode) :
  tool_confined E c →
  ¬ c `prefix_of` k → ¬ backupDir `prefix_of` k →
  fs w !! k = Some v →
  fs (main E c w).2 !! k = Some v.
Proof.
  intros Hconf Hc Hb Hk.
  assert (∀ d f f', frame d f f' → ¬ d `prefix_of` k → f !! k = Some v → f' !! k = Some v)
    as Hframe.
  { intros d f f' Hf Hd Hv. destruct (Hf k Hd) as [->|(_ & _ & ? & _)]; [done|congruence]. }
  pose proof (readMetadata_same E (metadata_of c) w) as Hr.
  destruct (due E w (readMetadata E (metadata_of c) w).1) eqn:Hdue.
  2:{ destruct (readMetadata E (metadata_of c) w).1 as [m|e] eqn:Hm; [|done].
      by rewrite (main_idle E c w m Hr Hdue). }
  rewrite (main_cycle E c w _ Hr Hdue).
  destruct (announced_out (readMetadata E (metadata_of c) w).1 w) as (Hfa & _).
  destruct (backupTrivyDB _ _ _) as [rb wb] eqn:Hbk.
  assert (fs wb !! k = Some v) as Hkb.
  { apply backupTrivyDB_preserves in Hbk as [Hf _].
    apply (Hframe _ _ _ Hf Hb). by rewrite Hfa. }
  destruct rb as [[]|eb]; [|done].
  destruct (runTrivyUpdateCommand _ _ _) as [rt wt] eqn:Ht.
  assert (fs wt !! k = Some v) as Hkt.
  { by rewrite (runTrivyUpdateCommand_confined E c _ _ _ Hconf Ht k Hc). }
  destruct rt as [[]|et].
  - rewrite (readMetadata_same E (metadata_of c) (say _ wt)).
    by destruct (readMetadata E (metadata_of c) (say _ wt)).1.
  - destruct (restoreTrivyDB _ _ _) as [rr wr] eqn:Hrs.
    apply restoreTrivyDB_frame in Hrs. cbn [fs say] in Hrs.
    pose proof (Hframe _ _ _ Hrs Hc Hkt) as Hkr.
    by destruct rr as [[]|er].
Qed.

(** X17.  [main] never removes the backup it made.  When the backup of a
    refresh succeeds, then whatever the tool and the restore do afterwards,
    the backup location holds at the end of [main] the cache tree [main]
    started with, path for path. *)
Theorem X17_main_leaves_the_backup_it_made
    (c : path) (w wb : World) (r : result MetadataJSON) :
  ¬ related c backupDir → tree_wf c (fs w) → tool_confined E c →
  denied E (SysRemoveAll backupDir) = None →
  readMetadata E (metadata_of c) w = (r, w) → refresh_due E w r →
  backupTrivyDB E c (announced r w) = (Ok tt, wb) →
  ∀ rel, fs (main E c w).2 !! (backupDir ++ rel) = fs w !! (c ++ rel).
Proof.
  intros Hun Hwf Hconf Hd Hr Hdue%due_refresh_due Hbk rel.
  destruct (announced_out r w) as (Hfa & _).
  assert (fs wb !! (backupDir ++ rel) = fs w !! (c ++ rel)) as Hkb.
  { rewrite <- Hfa. apply (backupTrivyDB_copies E c (announced r w) wb tt); [done| |done..].
    by rewrite Hfa. }
  assert (¬ c `prefix_of` backupDir ++ rel) as Hnc.
  { intros Hp. apply (unrelated_below backupDir c rel); [by apply unrelated_sym|by left]. }
  rewrite (main_cycle E c w _ Hr Hdue), Hbk.
  destruct (runTrivyUpdateCommand _ _ _) as [rt wt] eqn:Ht.
  assert (fs wt !! (backupDir ++ rel) = fs w !! (c ++ rel)) as Hkt.
  { by rewrite (runTrivyUpdateCommand_confined E c _ _ _ Hconf Ht _ Hnc). }
  destruct rt as [[]|et].
  - rewrite (readMetadata_same E (metadata_of c) (say _ wt)).
    by destruct (readMetadata E (metadata_of c) (say _ wt)).1.
  - destruct (restoreTrivyDB _ _ _) as [rr wr] eqn:Hrs.
    apply restoreTrivyDB_frame in Hrs. cbn [fs say] in Hrs.
    assert (fs wr !! (backupDir ++ rel) = fs wt !! (backupDir ++ rel)) as Hkr.
    { apply (frame_unrelated c); [done|]. apply unrelated_below. by apply unrelated_sym. }
    destruct rr as [[]|er]; cbn [snd say fs]; congruence.
Qed.

(** X18.  [main] cannot create a cache: when the cache directory is not a
    directory (on a well-formed filesystem), the metadata cannot be read, the
    backup fails for want of a directory to copy, and [main] ends there: it
    prints the two errors and never runs the tool. *)
Theorem X18_main_without_a_cache_directory (c : path) (w : World) :
  wf (fs w) → stat (fs w) c ≠ Some IDir → ¬ c `prefix_of` backupDir →
  ∃ err e,
    (readMetadata E (metadata_of c) w).1 = Err err ∧
    out (main E c w).2
      = out w ++ [ErrorReadingMetadata err; ExecutingDownload; EvCall FnBackup;
                  ErrorBackingUp e].
Proof.
  intros Hwf Hst Hp.
  pose proof (readMetadata_same E (metadata_of c) w) as Hr.
  destruct (readMetadata E (metadata_of c) w).1 as [m|err] eqn:Hm.
  { exfalso. apply readMetadata_Ok in Hr as (doc & Hdoc & _). apply Hst.
    pose proof (wf_tree_wf c _ Hwf) as Ht. unfold metadata_of in Hdoc.
    rewrite stat_lookup in Hdoc by (by destruct c).
    assert (stat (fs w) (c ++ ["db"]) = Some IDir) as Hdb.
    { apply (Ht ["db"] "metadata.json"). eexists. exact Hdoc. }
    destruct c as [|x c]; [done|]. rewrite <- (app_nil_r (x :: c)).
    apply (Ht [] "db"). exists IDir. rewrite stat_lookup in Hdb by done. exact Hdb. }
  exists err. rewrite (main_cycle E c w _ Hr eq_refl).
  destruct (backupTrivyDB _ _ _) as [[[]|eb] wb] eqn:Hb.
  - exfalso. apply backupTrivyDB_Ok_copy in Hb as (w1 & w2 & Hcp & _ & _ & Hk & _).
    unfold copyDir in Hcp.
    apply copyDir_rec_missing in Hcp as [(? & ? & _)|(? & ? & ? & _)]; [done|done| |done].
    destruct c as [|x c]; [done|]. cbn [stat] in *.
    destruct (Hk (x :: c) Hp) as [->| ->]; [|done]. done.
  - exists eb. apply backupTrivyDB_out in Hb as [_ Hob]. cbn [snd say out announced] in *.
    rewrite Hob. by rewrite <- !app_assoc.
Qed.

End Further.

(** * The codec

    [GoJSON.Unmarshal] reads back what [GoJSON.Marshal] prints. *)

Section Codec.

Import GoJSON.
Local Open Scope Z_scope.

(** ** Digits *)

Lemma digit_of_digit_char (d : Z) : digit_of (digit_char d) = Some (d mod 10).
Proof.
  unfold digit_of, digit_char. pose proof (Z.mod_pos_bound d 10 eq_refl) as Hd.
  rewrite N_ascii_embedding by lia. rewrite Z2N.id by lia.
  rewrite decide_True by lia. f_equal. lia.
Qed.

Lemma read_digits_add (j k : nat) (acc : Z) (s : list ascii) :
  read_digits (j + k) acc s = '(a, s') ← read_digits j acc s; read_digits k a s'.
Proof.
  revert acc s. induction j as [|j IH]; intros acc s; [done|].
  cbn [Nat.add read_digits]. destruct s as [|c s]; [done|].
  destruct (digit_of c) as [d|]; [|done]. cbn [mbind option_bind]. apply IH.
Qed.

Lemma read_digits_pad (k : nat) (n acc : Z) (rest : list ascii) :
  0 ≤ n < 10 ^ Z.of_nat k →
  read_digits k acc (pad k n ++ rest) = Some (acc * 10 ^ Z.of_nat k + n, rest).
Proof.
  revert n acc rest. induction k as [|k IH]; intros n acc rest Hn.
  - cbn [pad read_digits app]. f_equal. f_equal. change (10 ^ Z.of_nat 0) with 1 in *. lia.
  - replace (S k) with (k + 1)%nat at 1 by lia. rewrite read_digits_add.
    cbn [pad]. rewrite <- app_assoc.
    rewrite Nat2Z.inj_succ, Z.pow_succ_r in * by lia.
    rewrite IH by (split; [apply Z.div_pos; lia | apply Z.div_lt_upper_bound; lia]).
    cbn [mbind option_bind app read_digits]. rewrite digit_of_digit_char.
    cbn [mbind option_bind]. f_equal. f_equal.
    pose proof (Z.div_mod n 10 ltac:(lia)). lia.
Qed.

Lemma pad_length (k : nat) (n : Z) : length (pad k n) = k.
Proof.
  revert n. induction k as [|k IH]; intros n; [done|].
  cbn [pad]. rewrite length_app, IH. simpl. lia.
Qed.

Lemma pad_digits (k : nat) (n : Z) : Forall (λ c, is_Some (digit_of c)) (pad k n).
Proof.
  revert n. induction k as [|k IH]; intros n; cbn [pad]; [constructor|].
  apply Forall_app. split; [apply IH|]. constructor; [|constructor].
  rewrite digit_of_digit_char. by eexists.
Qed.

(** ** Fractions of a second *)

Lemma read_fraction_stop (k : nat) (acc : Z) (s : list ascii) :
  (k = 0%nat ∨ match s with c :: _ => digit_of c = None | [] => True end) →
  read_fraction k acc s = (acc, s).
Proof.
  intros [->|Hs]; [done|]. destruct k; [done|]. cbn [read_fraction].
  destruct s as [|c s]; [done|]. by rewrite Hs.
Qed.

Lemma read_fraction_pad (j k : nat) (q acc : Z) (rest : list ascii) :
  (j ≤ k)%nat → 0 ≤ q < 10 ^ Z.of_nat j →
  read_fraction k acc (pad j q ++ rest)
    = read_fraction (k - j) (acc + q * 10 ^ Z.of_nat (k - j)) rest.
Proof.
  revert q rest. induction j as [|j IH]; intros q rest Hj Hq.
  - cbn [pad app]. change (10 ^ Z.of_nat 0) with 1 in Hq.
    replace q with 0 by lia. rewrite Nat.sub_0_r. f_equal. lia.
  - cbn [pad]. rewrite <- app_assoc.
    rewrite Nat2Z.inj_succ, Z.pow_succ_r in Hq by lia.
    rewrite IH; [|lia|split; [apply Z.div_pos; lia | apply Z.div_lt_upper_bound; lia]].
    replace (k - j)%nat with (S (k - S j)) by lia.
    cbn [app read_fraction]. rewrite digit_of_digit_char. f_equal.
    rewrite Nat2Z.inj_succ, Z.pow_succ_r by lia.
    pose proof (Z.div_mod q 10 ltac:(lia)). nia.
Qed.

Lemma trim_zeros_pad (k : nat) (n : Z) :
  0 < n < 10 ^ Z.of_nat k →
  ∃ (j : nat) (q : Z), (1 ≤ j ≤ k)%nat ∧ 0 ≤ q < 10 ^ Z.of_nat j ∧
    trim_zeros k n = pad j q ∧ n = q * 10 ^ Z.of_nat (k - j).
Proof.
  revert n. induction k as [|k IH]; intros n Hn.
  { change (10 ^ Z.of_nat 0) with 1 in Hn. lia. }
  cbn [trim_zeros]. rewrite Nat2Z.inj_succ, Z.pow_succ_r in Hn by lia.
  case_decide as Hz.
  - pose proof (Z.div_mod n 10 ltac:(lia)) as Hdm.
    destruct (IH (n / 10)) as (j & q & Hj & Hq & Ht & Hv).
    { split; [|apply Z.div_lt_upper_bound; lia]. lia. }
    exists j, q. split; [lia|]. split; [done|]. split; [done|].
    replace (S k - j)%nat with (S (k - j)) by lia.
    rewrite Nat2Z.inj_succ, Z.pow_succ_r by lia. lia.
  - exists (S k), n. split; [lia|]. rewrite Nat2Z.inj_succ, Z.pow_succ_r by lia.
    split; [lia|]. split; [done|]. rewrite Nat.sub_diag. change (10 ^ Z.of_nat 0) with 1. lia.
Qed.

Lemma pad_cons (j : nat) (q : Z) :
  (0 < j)%nat → ∃ c s, pad j q = c :: s ∧ is_Some (digit_of c).
Proof.
  intros Hj. pose proof (pad_digits j q) as Hd. pose proof (pad_length j q) as Hl.
  destruct (pad j q) as [|c s]; [simpl in Hl; lia|].
  exists c, s. split; [done|]. by apply Forall_cons in Hd as [? _].
Qed.

(** ** The calendar *)

(** [civil_from_days] gives a date of the calendar, and [days_from_civil]
    leads back. *)
Lemma civil_round_trip (z : Z) :
  let '(y, m, d) := civil_from_days z in
  days_from_civil y m d = z ∧ 1 ≤ m ≤ 12 ∧ 1 ≤ d ≤ days_in_month y m.
Proof.
  unfold civil_from_days, days_from_civil, days_in_month. cbv zeta.
  repeat case_decide; Z.to_euclidean_division_equations; lia.
Qed.

(** ** Instants *)

Lemma expect_cons (c : ascii) (s : list ascii) : expect c (c :: s) = Some s.
Proof. unfold expect. by rewrite decide_True. Qed.

Lemma read_digits_pad2 (n : Z) (rest : list ascii) :
  0 ≤ n < 100 → read_digits 2 0 (pad 2 n ++ rest) = Some (n, rest).
Proof. intros Hn. rewrite read_digits_pad by (change (10 ^ Z.of_nat 2) with 100; lia). done. Qed.

Lemma read_digits_pad4 (n : Z) (rest : list ascii) :
  0 ≤ n < 10000 → read_digits 4 0 (pad 4 n ++ rest) = Some (n, rest).
Proof. intros Hn. rewrite read_digits_pad by (change (10 ^ Z.of_nat 4) with 10000; lia). done. Qed.

Lemma parse_zone_format (z : Z) :
  Z.abs z < 24 * 60 →
  parse_zone (if decide (z = 0) then ["Z"%char]
              else (if decide (z < 0) then "-"%char else "+"%char)
                   :: pad 2 (Z.abs z / 60) ++ [":"%char] ++ pad 2 (Z.abs z mod 60))
    = Some z.
Proof.
  intros Hz. case_decide as H0; [by subst|].
  assert (0 ≤ Z.abs z / 60 < 24 ∧ 0 ≤ Z.abs z mod 60 < 60) as [Hh Hm]
    by (Z.to_euclidean_division_equations; lia).
  assert (Z.abs z / 60 * 60 + Z.abs z mod 60 = Z.abs z) as Hsum
    by (Z.to_euclidean_division_equations; lia).
  assert (∀ sign : ascii, sign ≠ "Z"%char →
    parse_zone (sign :: pad 2 (Z.abs z / 60) ++ [":"%char] ++ pad 2 (Z.abs z mod 60))
    = if decide (sign = "+"%char) then Some (Z.abs z)
      else if decide (sign = "-"%char) then Some (- Z.abs z) else None) as Hp.
  { intros sign Hs. unfold parse_zone.
    rewrite read_digits_pad2 by lia. cbn [mbind option_bind app].
    rewrite expect_cons. cbn [mbind option_bind].
    rewrite <- (app_nil_r (pad 2 (Z.abs z mod 60))).
    rewrite read_digits_pad2 by lia. cbn [mbind option_bind].
    rewrite decide_True by (split; [done|lia]). rewrite Hsum.
    destruct sign as [[] [] [] [] [] [] [] []]; try done. }
  case_decide; rewrite Hp by done.
  - rewrite decide_False, decide_True by done. f_equal. lia.
  - rewrite decide_True by done. f_equal. lia.
Qed.

(** What [format_RFC3339Nano] prints reads back as the instant and the zone
    offset it was printed from. *)
Lemma parse_RFC3339_format (t : time_Time) (s : list ascii) :
  format_RFC3339Nano t = Some s → parse_RFC3339 s = Some t.
Proof.
  unfold format_RFC3339Nano. cbv zeta.
  set (wall := unix_ns t + zone_min t * 60 * ns_per_s).
  pose proof (civil_round_trip (wall / ns_per_s / 86400)) as Hc.
  destruct (civil_from_days (wall / ns_per_s / 86400)) as [[y m] d].
  destruct Hc as (Hdays & Hm & Hd).
  case_decide as Hok; [|done]. intros Heq. apply (inj Some) in Heq. subst s.
  destruct Hok as [Hy Hoff].
  pose proof (parse_zone_format (zone_min t) Hoff) as Hpz.
  set (ztxt := if decide (zone_min t = 0) then ["Z"%char]
               else (if decide (zone_min t < 0) then "-"%char else "+"%char)
                    :: pad 2 (Z.abs (zone_min t) / 60) ++ [":"%char]
                       ++ pad 2 (Z.abs (zone_min t) mod 60)) in *.
  assert (∃ c zs, ztxt = c :: zs ∧ (c = "Z" ∨ c = "-" ∨ c = "+")%char) as (zc & zs & Hz & Hzc).
  { subst ztxt. repeat case_decide; eexists _, _; (split; [reflexivity|]); auto. }
  set (rem := wall / ns_per_s mod 86400) in *.
  set (nanos := wall mod ns_per_s) in *.
  assert (0 ≤ rem < 86400) as Hrem by (by apply Z.mod_pos_bound).
  assert (0 ≤ nanos < 1000000000) as Hnanos by (by apply Z.mod_pos_bound).
  assert (d ≤ 31) as Hd31.
  { unfold days_in_month in Hd. repeat case_decide; lia. }
  assert (0 ≤ rem / 3600 < 24 ∧ 0 ≤ rem mod 3600 / 60 < 60 ∧ 0 ≤ rem mod 60 < 60 ∧
          rem / 3600 * 3600 + rem mod 3600 / 60 * 60 + rem mod 60 = rem) as (Hhh & Hmi & Hss & Hsum)
    by (Z.to_euclidean_division_equations; lia).
  unfold parse_RFC3339.
  rewrite read_digits_pad4 by lia. cbn [mbind option_bind app]. rewrite expect_cons.
  cbn [mbind option_bind].
  rewrite read_digits_pad2 by lia. cbn [mbind option_bind app]. rewrite expect_cons.
  cbn [mbind option_bind].
  rewrite read_digits_pad2 by lia. cbn [mbind option_bind app]. rewrite expect_cons.
  cbn [mbind option_bind].
  rewrite read_digits_pad2 by lia. cbn [mbind option_bind app]. rewrite expect_cons.
  cbn [mbind option_bind].
  rewrite read_digits_pad2 by lia. cbn [mbind option_bind app]. rewrite expect_cons.
  cbn [mbind option_bind].
  rewrite read_digits_pad2 by lia. cbn [mbind option_bind].
  assert ((match (if decide (nanos = 0) then [] else "."%char :: trim_zeros 9 nanos) ++ ztxt with
           | "."%char :: c :: s' => _ ← digit_of c; Some (read_fraction 9 0 (c :: s'))
           | _ => Some (0, (if decide (nanos = 0) then [] else "."%char :: trim_zeros 9 nanos)
                           ++ ztxt)
           end) = Some (nanos, ztxt)) as ->.
  { case_decide as Hn0.
    - rewrite Hn0, Hz. cbn [app]. by destruct Hzc as [->|[->| ->]].
    - destruct (trim_zeros_pad 9 nanos) as (j & q & Hj & Hq & -> & Hv).
      { change (10 ^ Z.of_nat 9) with 1000000000. lia. }
      destruct (pad_cons j q) as (c0 & s0 & Hpad & [dd Hdd]); [lia|].
      pose proof (read_fraction_pad j 9 q 0 ztxt) as Hrf. rewrite Hpad in *.
      cbn [app]. rewrite Hdd. cbn [mbind option_bind]. cbn [app] in Hrf.
      rewrite Hrf by lia. rewrite read_fraction_stop.
      + do 2 f_equal. lia.
      + right. rewrite Hz. by destruct Hzc as [->|[->| ->]]. }
  cbn [mbind option_bind]. rewrite Hpz. cbn [mbind option_bind].
  rewrite decide_True by lia. f_equal. destruct t as [u z]. cbn [unix_ns zone_min] in *.
  f_equal. rewrite Hdays. subst wall rem nanos. unfold ns_per_s in *.
  Z.to_euclidean_division_equations; lia.
Qed.

(** ** Texts and numbers *)

Lemma read_string_plain (l rest : list ascii) :
  Forall plain l → read_string (l ++ dq :: rest) = Some (l, rest).
Proof.
  induction 1 as [|c l (Hq & Hb & Hc) _ IH]; cbn [app read_string].
  - by rewrite decide_True.
  - rewrite decide_False by done. rewrite decide_False by (intros [?|?]; done).
    rewrite IH. done.
Qed.

Lemma digit_plain (c : ascii) : is_Some (digit_of c) → plain c.
Proof.
  intros [d Hd]. unfold digit_of in Hd. case_decide as Hr; [|done].
  unfold plain. split_and!.
  - intros ->. change (Z.of_N (N_of_ascii dq)) with 34 in Hr. lia.
  - intros ->. change (Z.of_N (N_of_ascii (ascii_of_N 92))) with 92 in Hr. lia.
  - lia.
Qed.

Lemma pad_plain (k : nat) (n : Z) : Forall plain (pad k n).
Proof. eapply Forall_impl; [apply pad_digits|]. apply digit_plain. Qed.

Lemma format_plain (t : time_Time) (s : list ascii) :
  format_RFC3339Nano t = Some s → Forall plain s.
Proof.
  unfold format_RFC3339Nano. cbv zeta.
  destruct (civil_from_days _) as [[y m] d]. case_decide; [|done].
  intros Heq. apply (inj Some) in Heq. subst s.
  pose proof (Z.mod_pos_bound (unix_ns t + zone_min t * 60 * ns_per_s) ns_per_s eq_refl)
    as Hnanos.
  set (nanos := (unix_ns t + zone_min t * 60 * ns_per_s) mod ns_per_s) in *.
  assert (Forall plain (if decide (nanos = 0) then [] else "."%char :: trim_zeros 9 nanos))
    as Hfrac.
  { case_decide as Hn; [constructor|]. constructor; [compute_done|].
    destruct (trim_zeros_pad 9 nanos) as (j & q & _ & _ & -> & _); [|apply pad_plain].
    change (10 ^ Z.of_nat 9) with ns_per_s. lia. }
  assert (∀ z, Forall plain
            (if decide (zone_min t = 0) then ["Z"%char]
             else (if decide (zone_min t < 0) then "-"%char else "+"%char)
                  :: pad 2 (z / 60) ++ [":"%char] ++ pad 2 (z mod 60))) as Hzone.
  { intros z. destruct (decide (zone_min t = 0)); [constructor; [compute_done|constructor]|].
    constructor; [destruct (decide (zone_min t < 0)); compute_done|].
    rewrite !Forall_app. split_and!; try apply pad_plain.
    constructor; [compute_done|constructor]. }
  rewrite !Forall_app. split_and!;
    first [apply pad_plain | exact Hfrac | apply Hzone
          | constructor; [compute_done|constructor]].
Qed.

Lemma read_nat_stop (acc : Z) (s : list ascii) :
  match s with c :: _ => digit_of c = None | [] => True end → read_nat acc s = (acc, s).
Proof. destruct s as [|c s]; [done|]. cbn [read_nat]. by intros ->. Qed.

Lemma read_nat_decimal_rec (fuel : nat) (n : Z) :
  0 ≤ n < 2 ^ Z.of_nat fuel →
  ∃ p, ∀ acc rest,
    read_nat acc (decimal_rec fuel n ++ rest) = read_nat (acc * p + n) rest.
Proof.
  revert n. induction fuel as [|fuel IH]; intros n Hn.
  - change (2 ^ Z.of_nat 0) with 1 in Hn. exists 1. intros acc rest. cbn [decimal_rec app].
    f_equal. lia.
  - rewrite Nat2Z.inj_succ, Z.pow_succ_r in Hn by lia. cbn [decimal_rec]. case_decide as H10.
    + exists 10. intros acc rest. cbn [app read_nat]. rewrite digit_of_digit_char.
      f_equal. rewrite Z.mod_small by lia. done.
    + destruct (IH (n / 10)) as [p Hp].
      { split; [apply Z.div_pos; lia|]. apply Z.div_lt_upper_bound; lia. }
      exists (p * 10). intros acc rest. rewrite <- app_assoc, Hp.
      cbn [app read_nat]. rewrite digit_of_digit_char. f_equal.
      pose proof (Z.div_mod n 10 ltac:(lia)). lia.
Qed.

Lemma decimal_rec_head (fuel : nat) (n : Z) :
  0 < n < 2 ^ Z.of_nat fuel →
  ∃ c s, decimal_rec fuel n = c :: s ∧ is_Some (digit_of c) ∧ c ≠ "0"%char.
Proof.
  revert n. induction fuel as [|fuel IH]; intros n Hn.
  { change (2 ^ Z.of_nat 0) with 1 in Hn. lia. }
  rewrite Nat2Z.inj_succ, Z.pow_succ_r in Hn by lia. cbn [decimal_rec]. case_decide as H10.
  - eexists _, _. split; [done|]. rewrite digit_of_digit_char. split; [by eexists|].
    intros Heq. pose proof (digit_of_digit_char n) as Hd. rewrite Heq in Hd.
    change (digit_of "0"%char) with (Some 0) in Hd.
    injection Hd as Hd. rewrite Z.mod_small in Hd by lia. lia.
  - destruct (IH (n / 10)) as (c & s & -> & Hc & Hc0).
    { split; [|apply Z.div_lt_upper_bound; lia].
      apply Z.div_str_pos. lia. }
    eexists _, _. split; [done|]. done.
Qed.

Lemma log2_fuel (n : Z) : 0 ≤ n → n < 2 ^ Z.of_nat (S (Z.to_nat (Z.log2 n))).
Proof.
  intros Hn. rewrite Nat2Z.inj_succ, Z2Nat.id by apply Z.log2_nonneg.
  destruct (decide (n = 0)) as [->|]; [done|]. apply Z.log2_spec. lia.
Qed.

Lemma ends_number (c : ascii) :
  digit_of c = None → c ≠ "."%char → c ≠ "e"%char → c ≠ "E"%char →
  ¬ (is_Some (digit_of c) ∨ c = "."%char ∨ c = "e"%char ∨ c = "E"%char).
Proof. intros Hc ? ? ? [[? H]|[?|[?|?]]]; congruence. Qed.

(** [read_int] on a text that starts with a digit, after a minus sign or
    not. *)
Lemma read_int_digit (neg : bool) (c0 : ascii) (s : list ascii) (d : Z) :
  digit_of c0 = Some d →
  read_int ((if neg then ["-"%char] else []) ++ c0 :: s) =
    (let '(n, rest) := if decide (c0 = "0"%char) then (0, s) else read_nat 0 (c0 :: s) in
     match rest with
     | c' :: _ =>
         if decide (is_Some (digit_of c') ∨ c' = "."%char ∨ c' = "e"%char ∨ c' = "E"%char)
         then None else Some (if neg then - n else n, rest)
     | [] => Some (if neg then - n else n, rest)
     end).
Proof.
  intros Hd. destruct neg; cbn [app].
  - unfold read_int. rewrite Hd. reflexivity.
  - destruct c0 as [[] [] [] [] [] [] [] []]; try (by vm_compute in Hd); reflexivity.
Qed.

(** An integer as [decimal] prints it reads back, before a character that
    ends a number. *)
Lemma read_int_decimal (n : Z) (c : ascii) (rest : list ascii) :
  digit_of c = None → c ≠ "."%char → c ≠ "e"%char → c ≠ "E"%char →
  read_int (decimal n ++ c :: rest) = Some (n, c :: rest).
Proof.
  intros Hc Hdot He HE. pose proof (ends_number c Hc Hdot He HE) as Hend.
  assert (∀ (neg : bool) k, 0 ≤ k →
    read_int ((if neg then ["-"%char] else [])
              ++ decimal_rec (S (Z.to_nat (Z.log2 k))) k ++ c :: rest)
      = Some (if neg then - k else k, c :: rest)) as Hpos.
  { intros neg k Hk. pose proof (log2_fuel k Hk) as Hf.
    destruct (decide (k = 0)) as [->|Hk0].
    - change (decimal_rec _ 0) with ["0"%char]. cbn [app].
      rewrite (read_int_digit neg "0" _ 0) by done.
      rewrite decide_True by done. by rewrite decide_False.
    - destruct (decimal_rec_head (S (Z.to_nat (Z.log2 k))) k)
        as (c0 & s0 & Hd & [d0 Hc0] & Hz); [lia|].
      destruct (read_nat_decimal_rec (S (Z.to_nat (Z.log2 k))) k) as [p Hp]; [lia|].
      specialize (Hp 0 (c :: rest)). rewrite (read_nat_stop _ (c :: rest)) in Hp by exact Hc.
      rewrite Hd in *. cbn [app] in *.
      rewrite (read_int_digit neg c0 _ d0) by done.
      rewrite decide_False by done. rewrite Hp. by rewrite decide_False. }
  unfold decimal. case_decide as Hneg.
  - rewrite <- (Z.opp_involutive n) at 3. apply (Hpos true). lia.
  - apply (Hpos false). lia.
Qed.

(** ** Values and members *)

Lemma skip_ws_cons (c : ascii) (s : list ascii) : is_ws c = false → skip_ws (c :: s) = c :: s.
Proof. intros H. cbn [skip_ws]. by rewrite H. Qed.

Lemma read_int_head (c0 : ascii) (s : list ascii) (r : Z * list ascii) :
  read_int (c0 :: s) = Some r → c0 = "-"%char ∨ is_Some (digit_of c0).
Proof.
  destruct c0 as [[] [] [] [] [] [] [] []]; intros H;
    first [ by left | by (right; eexists; reflexivity) | by vm_compute in H ].
Qed.

Lemma number_head (c0 : ascii) :
  c0 = "-"%char ∨ is_Some (digit_of c0) →
  is_ws c0 = false ∧ c0 ≠ dq ∧ c0 ≠ "n"%char ∧ c0 ≠ "t"%char ∧ c0 ≠ "f"%char.
Proof.
  destruct c0 as [[] [] [] [] [] [] [] []]; intros [H|[d H]];
    first [ done | by vm_compute in H ].
Qed.

Lemma read_value_decimal (n : Z) (c : ascii) (rest : list ascii) :
  digit_of c = None → c ≠ "."%char → c ≠ "e"%char → c ≠ "E"%char →
  skip_ws (decimal n ++ c :: rest) = decimal n ++ c :: rest ∧
  read_value (decimal n ++ c :: rest) = Some (VNum n, c :: rest).
Proof.
  intros Hc Hdot He HE. pose proof (read_int_decimal n c rest Hc Hdot He HE) as Hint.
  destruct (decimal n ++ c :: rest) as [|c0 s]; [done|].
  destruct (number_head c0 (read_int_head _ _ _ Hint)) as (Hws & Hq & Hn & Ht & Hf).
  split; [by apply skip_ws_cons|].
  unfold read_value. rewrite !decide_False by done. by rewrite Hint.
Qed.

Lemma read_value_text (l : list ascii) (rest : list ascii) :
  Forall plain l → read_value (quote l ++ rest) = Some (VStr l, rest).
Proof.
  intros Hl. unfold quote, read_value. cbn [app]. rewrite decide_True by done.
  rewrite <- app_assoc. cbn [app]. by rewrite read_string_plain.
Qed.

(** One member of an object: its name, its value, and the comma or brace
    after it. *)
Lemma read_members_step
    (fuel : nat) (name : string) (vtxt : list ascii) (v : value)
    (c : ascii) (rest : list ascii) (m m' : MetadataJSON) :
  Forall plain (String.list_ascii_of_string name) →
  skip_ws (vtxt ++ c :: rest) = vtxt ++ c :: rest →
  read_value (vtxt ++ c :: rest) = Some (v, c :: rest) →
  is_ws c = false →
  assign (String.list_ascii_of_string name) v m = Some m' →
  read_members (S fuel) (key name ++ vtxt ++ c :: rest) m =
    if decide (c = ","%char) then read_members fuel (skip_ws rest) m'
    else if decide (c = "}"%char) then Some (m', rest) else None.
Proof.
  intros Hname Hws Hval Hc Hassign. unfold key, quote. cbn [read_members app].
  rewrite expect_cons. cbn [mbind option_bind]. rewrite <- !app_assoc. cbn [app].
  rewrite read_string_plain by done. cbn [mbind option_bind].
  rewrite (skip_ws_cons ":"%char) by done. rewrite expect_cons. cbn [mbind option_bind].
  rewrite Hws, Hval. cbn [mbind option_bind]. rewrite Hassign. cbn [mbind option_bind].
  by rewrite skip_ws_cons.
Qed.

Lemma skip_ws_key (name : string) (s : list ascii) : skip_ws (key name ++ s) = key name ++ s.
Proof. unfold key, quote. cbn [app]. by apply skip_ws_cons. Qed.

Lemma read_members_more (fuel fuel' : nat) (s : list ascii) (m : MetadataJSON)
    (r : MetadataJSON * list ascii) :
  read_members fuel s m = Some r → (fuel ≤ fuel')%nat → read_members fuel' s m = Some r.
Proof.
  revert fuel' s m. induction fuel as [|fuel IH]; intros fuel' s m; [done|].
  intros H Hle. destruct fuel' as [|fuel']; [lia|]. cbn [read_members] in *.
  destruct (expect dq s) as [s1|]; [|done]. cbn [mbind option_bind] in *.
  destruct (read_string s1) as [[k s2]|]; [|done]. cbn [mbind option_bind] in *.
  destruct (expect ":"%char (skip_ws s2)) as [s3|]; [|done]. cbn [mbind option_bind] in *.
  destruct (read_value (skip_ws s3)) as [[v s4]|]; [|done]. cbn [mbind option_bind] in *.
  destruct (assign k v m) as [m1|]; [|done]. cbn [mbind option_bind] in *.
  destruct (skip_ws s4) as [|c s5]; [done|].
  case_decide; [|done]. apply IH; [done|lia].
Qed.

(** ** The round trip *)

(** What [Marshal] prints, [Unmarshal] reads back as the same record. *)
Lemma Unmarshal_Marshal (m : MetadataJSON) (doc : string) :
  - 2 ^ 63 ≤ Version m < 2 ^ 63 →
  Marshal m = Some doc → Unmarshal doc = Some m.
Proof.
  intros Hv. unfold Marshal.
  destruct (format_RFC3339Nano (NextUpdate m)) as [nu|] eqn:Hnu; [|done].
  destruct (format_RFC3339Nano (UpdatedAt m)) as [ua|] eqn:Hua; [|done].
  destruct (format_RFC3339Nano (DownloadedAt m)) as [da|] eqn:Hda; [|done].
  cbn [mbind option_bind]. intros Heq. apply (inj Some) in Heq. subst doc.
  unfold Unmarshal. rewrite String.list_ascii_of_string_of_list_ascii.
  rewrite (skip_ws_cons "{"%char) by done. rewrite expect_cons. cbn [mbind option_bind].
  set (body := key "Version" ++ _).
  assert (read_members 4 body zero = Some (m, [])) as Hrun.
  { subst body.
    destruct (read_value_decimal (Version m) ","%char
                (key "NextUpdate" ++ quote nu ++ ","%char :: key "UpdatedAt" ++ quote ua
                 ++ ","%char :: key "DownloadedAt" ++ quote da ++ ["}"%char]))
      as [Hws1 Hval1]; [done..|].
    rewrite (read_members_step 3 "Version" _ (VNum (Version m)) _ _ zero
               {| Version := Version m; NextUpdate := NextUpdate zero;
                  UpdatedAt := UpdatedAt zero; DownloadedAt := DownloadedAt zero |});
      [|compute_done|done|done|done|].
    2:{ unfold assign. change (names _ "Version") with true. cbn [as_int].
        by rewrite decide_True. }
    rewrite decide_True by done. rewrite skip_ws_key.
    rewrite (read_members_step 2 "NextUpdate" (quote nu) (VStr nu) _ _ _
               {| Version := Version m; NextUpdate := NextUpdate m;
                  UpdatedAt := UpdatedAt zero; DownloadedAt := DownloadedAt zero |});
      [|compute_done|by apply skip_ws_cons
       |apply read_value_text; by eapply format_plain|done|].
    2:{ unfold assign. change (names _ "Version") with false.
        change (names _ "NextUpdate") with true. cbn [as_time].
        by rewrite (parse_RFC3339_format _ _ Hnu). }
    rewrite decide_True by done. rewrite skip_ws_key.
    rewrite (read_members_step 1 "UpdatedAt" (quote ua) (VStr ua) _ _ _
               {| Version := Version m; NextUpdate := NextUpdate m;
                  UpdatedAt := UpdatedAt m; DownloadedAt := DownloadedAt zero |});
      [|compute_done|by apply skip_ws_cons
       |apply read_value_text; by eapply format_plain|done|].
    2:{ unfold assign. change (names _ "Version") with false.
        change (names _ "NextUpdate") with false.
        change (names _ "UpdatedAt") with true. cbn [as_time].
        by rewrite (parse_RFC3339_format _ _ Hua). }
    rewrite decide_True by done. rewrite skip_ws_key.
    rewrite (read_members_step 0 "DownloadedAt" (quote da) (VStr da) _ _ _ m);
      [|compute_done|by apply skip_ws_cons
       |apply read_value_text; by eapply format_plain|done|].
    2:{ unfold assign. change (names _ "Version") with false.
        change (names _ "NextUpdate") with false.
        change (names _ "UpdatedAt") with false.
        change (names _ "DownloadedAt") with true. cbn [as_time].
        rewrite (parse_RFC3339_format _ _ Hda). cbn [mbind option_bind]. by destruct m. }
    rewrite decide_False by done. by rewrite decide_True. }
  assert (∃ s', body = dq :: s') as [s' Hbody] by (by eexists).
  assert (4 ≤ length body)%nat as Hlen.
  { subst body. unfold key at 1, quote at 1. cbn [app length String.list_ascii_of_string]. lia. }
  clearbody body. subst body. rewrite skip_ws_cons by done.
  rewrite decide_False by done.
  rewrite (read_members_more 4 _ _ _ _ Hrun Hlen). cbn [mbind option_bind].
  by rewrite decide_True.
Qed.

(** ** The range of [Version] *)

Lemma assign_Version_range (k : list ascii) (v : value) (m m' : MetadataJSON) :
  - 2 ^ 63 ≤ Version m < 2 ^ 63 → assign k v m = Some m' →
  - 2 ^ 63 ≤ Version m' < 2 ^ 63.
Proof.
  intros Hm. unfold assign.
  destruct (names k "Version").
  { destruct v as [n| | |]; cbn [as_int mbind option_bind]; try done.
    - case_decide; [|done]. by intros [= <-].
    - by intros [= <-]. }
  destruct (names k "NextUpdate").
  { destruct (as_time v _); cbn [mbind option_bind]; [|done]. by intros [= <-]. }
  destruct (names k "UpdatedAt").
  { destruct (as_time v _); cbn [mbind option_bind]; [|done]. by intros [= <-]. }
  destruct (names k "DownloadedAt").
  { destruct (as_time v _); cbn [mbind option_bind]; [|done]. by intros [= <-]. }
  by intros [= <-].
Qed.

Lemma read_members_Version_range (fuel : nat) (s : list ascii) (m : MetadataJSON)
    (r : MetadataJSON * list ascii) :
  - 2 ^ 63 ≤ Version m < 2 ^ 63 → read_members fuel s m = Some r →
  - 2 ^ 63 ≤ Version r.1 < 2 ^ 63.
Proof.
  revert s m. induction fuel as [|fuel IH]; intros s m Hm; [done|]. cbn [read_members].
  destruct (expect dq s) as [s1|]; [|done]. cbn [mbind option_bind].
  destruct (read_string s1) as [[k s2]|]; [|done]. cbn [mbind option_bind].
  destruct (expect ":"%char (skip_ws s2)) as [s3|]; [|done]. cbn [mbind option_bind].
  destruct (read_value (skip_ws s3)) as [[v s4]|]; [|done]. cbn [mbind option_bind].
  destruct (assign k v m) as [m1|] eqn:Ha; [|done]. cbn [mbind option_bind].
  pose proof (assign_Version_range _ _ _ _ Hm Ha) as Hm1.
  destruct (skip_ws s4) as [|c s5]; [done|].
  case_decide; [by apply IH|]. case_decide; [|done]. by intros [= <-].
Qed.

(** A record that [Unmarshal] returns has a [Version] that fits in 64 bits. *)
Lemma Unmarshal_Version_range (doc : string) (m : MetadataJSON) :
  Unmarshal doc = Some m → - 2 ^ 63 ≤ Version m < 2 ^ 63.
Proof.
  unfold Unmarshal.
  destruct (expect "{"%char _) as [s|]; [|done]. cbn [mbind option_bind].
  destruct (skip_ws s) as [|c s'] eqn:Hs; [done|].
  case_decide.
  - cbn [mbind option_bind]. case_decide; [|done]. by intros [= <-].
  - destruct (read_members _ _ _) as [[m1 s1]|] eqn:Hr; [|done]. cbn [mbind option_bind].
    apply read_members_Version_range in Hr; [|done].
    case_decide; [|done]. by intros [= <-].
Qed.

End Codec.

(** ** The program with this codec *)

Section WithCodec.

Variable E : Env.

(** After a stamp, with the codec of [encoding/json], a run of [main] whose
    clock reading is not later than the new [NextUpdate] does nothing. *)
Lemma stamp_then_main (c : path) (w w1 : World) :
  json_Marshal E = GoJSON.Marshal → json_Unmarshal E = GoJSON.Unmarshal →
  updateMetadataNextUpdate E (metadata_of c) w = (Ok tt, w1) →
  (unix_ns (clock E (S (ticks w))) ≤ unix_ns (clock E (ticks w)) + 4 * time_Hour)%Z →
  ∃ m', NextUpdate m' = time_Add (clock E (ticks w)) (4 * time_Hour) ∧
        ∀ w2, fs w2 = fs w1 → ticks w2 = ticks w1 →
          main E c w2 = (Ok tt, {| fs := fs w2; ticks := S (S (ticks w));
                                   out := out w2 ++ [UpToDate; NextUpdateAt (NextUpdate m')] |}).
Proof.
  intros HM HU Hst Hclock.
  pose proof (updateMetadataNextUpdate_ticks E _ _ _ _ Hst) as Ht.
  apply updateMetadataNextUpdate_Ok in Hst as (doc & m & doc' & Hfile & Hd & Hun & Hma & Hfs).
  rewrite HU in Hun. rewrite HM in Hma.
  set (m' := set_NextUpdate (time_Add (clock E (ticks w)) (4 * time_Hour)) m) in *.
  exists m'. split; [done|]. intros w2 Hf2 Ht2.
  assert (readMetadata E (metadata_of c) w2 = (Ok m', w2)) as Hread.
  { apply (readMetadata_run E _ _ doc'); [done| |].
    - rewrite stat_lookup by (by destruct c). rewrite Hf2, Hfs. apply lookup_insert_eq.
    - rewrite HU. apply Unmarshal_Marshal; [|done].
      apply (Unmarshal_Version_range doc m Hun). }
  rewrite (main_idle E c w2 m' Hread).
  - by rewrite Ht2, Ht.
  - cbn [due]. unfold time_After. rewrite Ht2, Ht.
    cbn [NextUpdate m' set_NextUpdate time_Add unix_ns]. apply Z.ltb_ge. lia.
Qed.

(** X19.  [json.Marshal] of a [MetadataJSON] and then [json.Unmarshal] give
    the record back: its [Version], and the instant and the zone offset of
    each of its three times.  ([Marshal] fails on a year outside 0..9999 or
    a zone offset of 24 hours or more; [Version] is a Go [int], 64 bits.) *)
Theorem X19_Marshal_then_Unmarshal (m : MetadataJSON) (doc : string) :
  (- 2 ^ 63 ≤ Version m < 2 ^ 63)%Z →
  GoJSON.Marshal m = Some doc → GoJSON.Unmarshal doc = Some m.
Proof. apply Unmarshal_Marshal. Qed.

(** X20.  With the codec of [encoding/json], a stamp that succeeded reads
    back: [readMetadata] on the file [updateMetadataNextUpdate] wrote
    returns the record that was read before, with [NextUpdate] the clock
    reading plus four hours and the other three fields as they were. *)
Theorem X20_a_stamp_reads_back (p : path) (w w' : World) :
  json_Marshal E = GoJSON.Marshal → json_Unmarshal E = GoJSON.Unmarshal →
  updateMetadataNextUpdate E p w = (Ok tt, w') →
  ∃ m, readMetadata E p w = (Ok m, w) ∧
       readMetadata E p w'
         = (Ok (set_NextUpdate (time_Add (clock E (ticks w)) (4 * time_Hour)) m), w').
Proof.
  intros HM HU Hst.
  apply updateMetadataNextUpdate_Ok in Hst as (doc & m & doc' & Hfile & Hd & Hun & Hma & Hfs).
  exists m. split; [by apply (readMetadata_run E _ _ doc)|].
  apply (readMetadata_run E _ _ doc'); [done| |].
  - destruct p as [|x p]; [done|]. cbn [stat]. rewrite Hfs. apply lookup_insert_eq.
  - rewrite HU. rewrite HM in Hma. rewrite HU in Hun. apply Unmarshal_Marshal; [|done].
    apply (Unmarshal_Version_range doc m Hun).
Qed.

(** X21.  The stamp of a restore postpones the next refresh.  With the
    codec of [encoding/json], after a [restoreTrivyDB] that succeeded, a run
    of [main] whose clock reading is not later than four hours after the
    reading of the restore reads the clock, prints that the database is up
    to date, and does nothing else. *)
Theorem X21_after_a_restore_no_refresh_for_four_hours (c : path) (w w' : World) :
  json_Marshal E = GoJSON.Marshal → json_Unmarshal E = GoJSON.Unmarshal →
  restoreTrivyDB E c w = (Ok tt, w') →
  (unix_ns (clock E (S (ticks w))) ≤ unix_ns (clock E (ticks w)) + 4 * time_Hour)%Z →
  ∃ m', NextUpdate m' = time_Add (clock E (ticks w)) (4 * time_Hour) ∧
        main E c w' = (Ok tt, {| fs := fs w'; ticks := S (S (ticks w));
                                 out := out w' ++ [UpToDate; NextUpdateAt (NextUpdate m')] |}).
Proof.
  intros HM HU Hr Hclock.
  destruct (denied E (SysRemoveAll c)) as [code|] eqn:Hd.
  { exfalso. revert Hr. unfold restoreTrivyDB. unfold bind at 1, emit at 1.
    unfold bind at 1, wrap at 1, os_RemoveAll, sys. by rewrite Hd. }
  apply restoreTrivyDB_steps in Hr as (rc & w1 & Hcp & Hr); [|done].
  destruct rc as [[]|e]; [|by destruct Hr].
  destruct Hr as (rs & ws & Hst & Hr). destruct rs as [[]|e]; [|by destruct Hr].
  destruct Hr as [_ ->].
  apply copyDir_out in Hcp as [_ Ht1]. cbn [ticks with_fs say] in Ht1.
  rewrite <- Ht1 in Hclock.
  destruct (stamp_then_main c w1 ws HM HU Hst Hclock) as (m' & Hnu & Hmain).
  exists m'. rewrite <- Ht1. split; [done|]. by apply Hmain.
Qed.

End WithCodec.

(** * The claims at concrete worlds *)

Section Witnesses.

Import Demo.

Lemma tool_fails_confined (now : Z) (f : syscall → bool) (c : path) :
  tool_confined (env now f tool_fails) c.
Proof.
  intros fs k Hk. cbn [trivy env tool_fails snd].
  rewrite lookup_insert_ne, lookup_delete_ne; [done|..];
    intros <-; apply Hk; by apply prefix_app_r.
Qed.

(** C3 at [world0], one nanosecond before [NextUpdate]. *)
Lemma C3_witness :
  ∃ w', main (env (t0 - 1) no_fault tool_fails) cache world0 = (Ok tt, w') ∧
        fs w' = fs world0 ∧
        out w' = out world0 ++ [UpToDate; NextUpdateAt (NextUpdate m0)] ∧
        calls (out w') = calls (out world0).
Proof.
  apply (C3_up_to_date_is_noop (env (t0 - 1) no_fault tool_fails) cache world0 world0 m0).
  - vm_compute. reflexivity.
  - vm_compute. reflexivity.
Defined.

(** C5 at [world0]: the clock reads one nanosecond after [t0]. *)
Lemma C5_witness :
  ∃ w', updateMetadataNextUpdate (env (t0 + 1) no_fault tool_fails) meta world0 = (Ok tt, w') ∧
        fs w' = <[meta := IFile doc_stamped1]> (fs world0) ∧
        readMetadata (env (t0 + 1) no_fault tool_fails) meta w'
          = (Ok (set_NextUpdate (at_ns (t0 + 1 + 4 * time_Hour)) m0), w') ∧
        Version (set_NextUpdate (at_ns (t0 + 1 + 4 * time_Hour)) m0) = Version m0 ∧
        UpdatedAt (set_NextUpdate (at_ns (t0 + 1 + 4 * time_Hour)) m0) = UpdatedAt m0 ∧
        DownloadedAt (set_NextUpdate (at_ns (t0 + 1 + 4 * time_Hour)) m0) = DownloadedAt m0 ∧
        unix_ns (NextUpdate (set_NextUpdate (at_ns (t0 + 1 + 4 * time_Hour)) m0))
          = (unix_ns (at_ns (t0 + 1)) + 4 * 3600 * 1000000000)%Z ∧
        time_After (NextUpdate (set_NextUpdate (at_ns (t0 + 1 + 4 * time_Hour)) m0))
                   (at_ns (t0 + 1)) = true.
Proof.
  apply (C5_stamp_changes_only_NextUpdate (env (t0 + 1) no_fault tool_fails)
           meta world0 doc0 doc_stamped1 m0); vm_compute; reflexivity.
Defined.

(** C6, as amended, at [world0]: the clock reads four hours before
    [NextUpdate], and the file is the encoder's own output. *)
Lemma C6_witness :
  ∃ w', updateMetadataNextUpdate (env (t0 - 4 * time_Hour) no_fault tool_fails) meta world0
          = (Ok tt, w') ∧
        fs w' = <[meta := IFile doc0]> (fs world0) ∧
        (GoJSON.Unmarshal doc0 = Some m0 →
         readMetadata (env (t0 - 4 * time_Hour) no_fault tool_fails) meta w' = (Ok m0, w')) ∧
        (doc0 = doc0 → fs w' = fs world0).
Proof.
  apply (C6_rewrite_keeps_the_record (env (t0 - 4 * time_Hour) no_fault tool_fails)
           meta world0 doc0 doc0 m0); vm_compute; reflexivity.
Defined.

(** C6 as stated fails on a document that ends in a line feed: it reads as
    the record [m0], the record is written back as [doc0], without the line
    feed; [updateMetadataNextUpdate] with the clock four hours before
    [NextUpdate], so that the field keeps its value, leaves [doc0] in the
    file. *)
Lemma C6_counterexample :
  GoJSON.Unmarshal doc_lf = Some m0 ∧
  GoJSON.Marshal m0 = Some doc0 ∧
  doc0 ≠ doc_lf ∧
  fs world_lf !! meta = Some (IFile doc_lf) ∧
  (updateMetadataNextUpdate (env (t0 - 4 * time_Hour) no_fault tool_fails) meta world_lf).1
    = Ok tt ∧
  fs (updateMetadataNextUpdate (env (t0 - 4 * time_Hour) no_fault tool_fails) meta world_lf).2
    !! meta = Some (IFile doc0).
Proof.
  split_and!; try (vm_compute; reflexivity). compute_done.
Qed.

(** C2, as amended, at [world0], one nanosecond after [NextUpdate]. *)
Lemma C2_witness :
  ∃ w' l, main (env (t0 + 1) no_fault tool_fails) cache world0 = (Ok tt, w') ∧
    out w' = out world0 ++ l ∧
    (refresh_due (env (t0 + 1) no_fault tool_fails) world0 (Ok m0) →
       ∃ rb wb, backupTrivyDB (env (t0 + 1) no_fault tool_fails) cache
                  (announced (Ok m0) world0) = (rb, wb) ∧
         match rb with
         | Ok _ => (∃ rest, calls l = (FnBackup :: FnRunTrivy :: rest) ∧
                            (FnBackup ∉ rest) ∧ (FnRunTrivy ∉ rest))
         | Err _ => calls l = [FnBackup]
         end) ∧
    (¬ refresh_due (env (t0 + 1) no_fault tool_fails) world0 (Ok m0) → calls l = []).
Proof.
  apply (C2_refresh_attempts (env (t0 + 1) no_fault tool_fails) cache world0 (Ok m0)).
  vm_compute. reflexivity.
Defined.

(** C2 as stated fails in two ways.  When the clock reads exactly
    [NextUpdate], nothing is called.  When the metadata is absent and the
    backup fails (here there is no cache directory to copy), the backup is
    the only call. *)
Lemma C2_counterexample :
  ((readMetadata (env t0 no_fault tool_fails) meta world0).1 = Ok m0 ∧
   unix_ns (NextUpdate m0) = unix_ns (clock (env t0 no_fault tool_fails) 0) ∧
   calls (out (main (env t0 no_fault tool_fails) cache world0).2) = []) ∧
  ((readMetadata (env (t0 + 1) no_fault tool_fails) meta world_nocache).1 = Err no_metadata ∧
   calls (out (main (env (t0 + 1) no_fault tool_fails) cache world_nocache).2) = [FnBackup]).
Proof. split_and!; vm_compute; reflexivity. Qed.


(** C8, as amended, at [world0] with a tool that writes new metadata. *)
Lemma C8_witness :
  ∃ w', main (env (t0 + 1) no_fault tool_succeeds) cache world0 = (Ok tt, w') ∧
        fs w' = fs (after_tool (env (t0 + 1) no_fault tool_succeeds) (Ok m0) world0) ∧
        out w' = out (after_tool (env (t0 + 1) no_fault tool_succeeds) (Ok m0) world0)
                 ++ completed (Ok m0) ++
                   match (readMetadata (env (t0 + 1) no_fault tool_succeeds) (metadata_of cache)
                            (after_tool (env (t0 + 1) no_fault tool_succeeds) (Ok m0) world0)).1
                   with
                   | Ok newMetadata => [NextUpdateAt (NextUpdate newMetadata)]
                   | Err _ => []
                   end.
Proof.
  apply (C8_after_a_successful_update (env (t0 + 1) no_fault tool_succeeds) cache world0
           (after_backup (env (t0 + 1) no_fault tool_succeeds) (Ok m0) world0)
           (after_tool (env (t0 + 1) no_fault tool_succeeds) (Ok m0) world0)
           (Ok m0)); vm_compute; reflexivity.
Defined.

(** C8 as stated fails when the tool exits with status zero and leaves no
    metadata: the second read fails, and [main] prints nothing about it;
    the last line is the one of line 189. *)
Lemma C8_counterexample :
  (runTrivyUpdateCommand (env (t0 + 1) no_fault tool_forgets) cache
     (after_backup (env (t0 + 1) no_fault tool_forgets) (Ok m0) world0)).1 = Ok tt ∧
  (readMetadata (env (t0 + 1) no_fault tool_forgets) meta
     (after_tool (env (t0 + 1) no_fault tool_forgets) (Ok m0) world0)).1 = Err no_metadata ∧
  out (main (env (t0 + 1) no_fault tool_forgets) cache world0).2
    = [UpdatingDB; EvCall FnBackup; BackedUp cache backupDir; EvCall FnRunTrivy;
       UpdateComplete].
Proof. split_and!; vm_compute; reflexivity. Qed.



(** C1, as amended, at [world0] with a tool that fails. *)
Lemma C1_witness :
  main (env (t0 + 1) no_fault tool_fails) cache world0
    = (Ok tt, after_restore (env (t0 + 1) no_fault tool_fails) (Ok m0) world0) ∧
  (∀ rel, rel ≠ ["db"; "metadata.json"] →
     fs (after_restore (env (t0 + 1) no_fault tool_fails) (Ok m0) world0) !! (cache ++ rel)
       = fs world0 !! (cache ++ rel)) ∧
  ∃ m doc',
    Ok m0 = Ok m ∧
    GoJSON.Marshal
      (set_NextUpdate (time_Add (at_ns (t0 + 1 + 1)) (4 * time_Hour)) m) = Some doc' ∧
    fs (after_restore (env (t0 + 1) no_fault tool_fails) (Ok m0) world0) !! metadata_of cache
      = Some (IFile doc').
Proof.
  apply (C1_rollback_restores_the_cache (env (t0 + 1) no_fault tool_fails) cache world0
           (after_backup (env (t0 + 1) no_fault tool_fails) (Ok m0) world0)
           (after_tool (env (t0 + 1) no_fault tool_fails) (Ok m0) world0)
           (after_restore (env (t0 + 1) no_fault tool_fails) (Ok m0) world0)
           (Ok m0) tool_error).
  - compute_done.
  - compute_done.
  - apply tool_fails_confined.
  - vm_compute. reflexivity.
  - vm_compute. reflexivity.
  - vm_compute. reflexivity.
  - vm_compute. reflexivity.
  - vm_compute. reflexivity.
  - vm_compute. reflexivity.
Defined.

(** C1 as stated fails in two ways.  On [world_lf] the backup succeeds, the
    tool fails and the rollback succeeds, and the metadata file, which
    ended in a line feed, ends in the closing brace: it is written anew from
    the record, not changed in one field.  On [world_bootstrap], which has
    no metadata file, the backup succeeds and the tool fails, and after the
    run there is still no metadata file, so no [NextUpdate] four hours
    ahead. *)
Lemma C1_counterexample :
  ((backupTrivyDB (env (t0 + 1) no_fault tool_fails) cache (announced (Ok m0) world_lf)).1
     = Ok tt ∧
   (runTrivyUpdateCommand (env (t0 + 1) no_fault tool_fails) cache
      (after_backup (env (t0 + 1) no_fault tool_fails) (Ok m0) world_lf)).1 = Err tool_error ∧
   fs world_lf !! meta = Some (IFile doc_lf) ∧
   fs (main (env (t0 + 1) no_fault tool_fails) cache world_lf).2 !! meta
     = Some (IFile doc_stamped2) ∧
   last (String.list_ascii_of_string doc_lf) = Some (ascii_of_N 10) ∧
   last (String.list_ascii_of_string doc_stamped2) = Some "}"%char) ∧
  ((backupTrivyDB (env (t0 + 1) no_fault tool_fails) cache
      (announced (Err no_metadata) world_bootstrap)).1 = Ok tt ∧
   (runTrivyUpdateCommand (env (t0 + 1) no_fault tool_fails) cache
      (after_backup (env (t0 + 1) no_fault tool_fails) (Err no_metadata) world_bootstrap)).1
     = Err tool_error ∧
   fs (main (env (t0 + 1) no_fault tool_fails) cache world_bootstrap).2 !! meta = None).
Proof. split_and!; vm_compute; reflexivity. Qed.


End Witnesses.

(** * The further properties at concrete worlds *)

Section Examples.

Import Demo.

Lemma tool_succeeds_confined (now : Z) (f : syscall → bool) (c : path) :
  tool_confined (env now f tool_succeeds) c.
Proof.
  intros fs k Hk. cbn [trivy env tool_succeeds snd].
  rewrite !lookup_insert_ne; [done|..]; intros <-; apply Hk; by apply prefix_app_r.
Qed.

(** X1 at [world_old_backup]: the file of the earlier backup is still
    there after the copy. *)
Lemma X1_witness :
  fs (copyDir (env t0 no_fault tool_fails) cache backupDir world_old_backup).2
    !! (backupDir ++ ["old.db"]) = Some (IFile "OLD") ∧
  (∀ rel, fs (copyDir (env t0 no_fault tool_fails) cache backupDir world_old_backup).2
            !! (backupDir ++ rel) = overlaid cache backupDir (fs world_old_backup) rel) ∧
  (∀ rel, fs (copyDir (env t0 no_fault tool_fails) cache backupDir world_old_backup).2
            !! (cache ++ rel) = fs world_old_backup !! (cache ++ rel)).
Proof.
  split; [vm_compute; reflexivity|].
  apply (X1_copyDir_lays_the_source_over_the_destination (env t0 no_fault tool_fails)
           cache backupDir world_old_backup).
  - compute_done.
  - apply wf_tree_wf. compute_done.
  - vm_compute. reflexivity.
Defined.

(** X3 at [world_old_backup], for the file of the earlier backup. *)
Lemma X3_witness :
  ∃ v', fs (copyDir (env t0 no_fault tool_fails) cache backupDir world_old_backup).2
          !! (backupDir ++ ["old.db"]) = Some v' ∧
        is_dir v' = is_dir (IFile "OLD").
Proof.
  apply (X3_copyDir_removes_nothing (env t0 no_fault tool_fails) cache backupDir
           world_old_backup).
  vm_compute. reflexivity.
Defined.

(** X4 at [world0], where [fanal/fanal.db] cannot be opened. *)
Lemma X4_witness :
  ∃ op code, PathError (SysOpen (cache ++ ["fanal"; "fanal.db"])) EIO = PathError op code.
Proof.
  apply (X4_copyDir_returns_the_error_of_a_system_call (env t0 fanal_unreadable tool_fails)
           cache backupDir world0).
  vm_compute. reflexivity.
Defined.

(** X5: the cache copied into a directory of its own. *)
Lemma X5_witness :
  ∃ op code, (copyDir (env t0 no_fault tool_fails) cache (cache ++ ["copy"]) world0).1
               = Err (PathError op code).
Proof.
  apply (X5_copyDir_into_its_own_subtree_fails (env t0 no_fault tool_fails)).
  - by exists ["copy"].
  - compute_done.
Defined.


(** X7 at [world_old_backup]. *)
Lemma X7_witness :
  (∀ rel, fs (backupTrivyDB (env t0 no_fault tool_fails) cache world_old_backup).2
            !! (backupDir ++ rel) = fs world_old_backup !! (cache ++ rel)) ∧
  (∀ rel, fs (backupTrivyDB (env t0 no_fault tool_fails) cache world_old_backup).2
            !! (cache ++ rel) = fs world_old_backup !! (cache ++ rel)) ∧
  out (backupTrivyDB (env t0 no_fault tool_fails) cache world_old_backup).2
    = out world_old_backup ++ [EvCall FnBackup; BackedUp cache backupDir] ∧
  ticks (backupTrivyDB (env t0 no_fault tool_fails) cache world_old_backup).2
    = ticks world_old_backup.
Proof.
  apply (X7_backup_is_a_copy_of_the_cache (env t0 no_fault tool_fails) cache
           world_old_backup).
  - compute_done.
  - apply wf_tree_wf. compute_done.
  - vm_compute. reflexivity.
  - vm_compute. reflexivity.
Defined.



(** X10: the cache directory is [/tmp]. *)
Lemma X10_witness :
  ∃ msg op code, (backupTrivyDB (env t0 no_fault tool_fails) ["tmp"] world0).1
                   = Err (Errorf msg (PathError op code)).
Proof.
  apply (X10_backup_of_a_directory_that_holds_the_backup_location_fails
           (env t0 no_fault tool_fails)).
  - by exists ["trivy_save"].
  - compute_done.
Defined.




(** X16 at [world0], for the directory [/tmp]. *)
Lemma X16_witness :
  fs (main (env (t0 + 1) no_fault tool_fails) cache world0).2 !! ["tmp"] = Some IDir.
Proof.
  apply (X16_main_keeps_what_is_outside_the_cache_and_the_backup
           (env (t0 + 1) no_fault tool_fails) cache world0).
  - apply tool_fails_confined.
  - compute_done.
  - compute_done.
  - vm_compute. reflexivity.
Defined.

(** X17 at [world0], with a tool that succeeds. *)
Lemma X17_witness :
  fs (main (env (t0 + 1) no_fault tool_succeeds) cache world0).2
    !! (cache ++ ["db"; "trivy.db"]) = Some (IFile "DB-v2") ∧
  ∀ rel, fs (main (env (t0 + 1) no_fault tool_succeeds) cache world0).2 !! (backupDir ++ rel)
         = fs world0 !! (cache ++ rel).
Proof.
  split; [vm_compute; reflexivity|].
  apply (X17_main_leaves_the_backup_it_made (env (t0 + 1) no_fault tool_succeeds) cache
           world0 (after_backup (env (t0 + 1) no_fault tool_succeeds) (Ok m0) world0) (Ok m0)).
  - compute_done.
  - apply wf_tree_wf. compute_done.
  - apply tool_succeeds_confined.
  - vm_compute. reflexivity.
  - vm_compute. reflexivity.
  - vm_compute. reflexivity.
  - vm_compute. reflexivity.
Defined.

(** X18 at [world_nocache]. *)
Lemma X18_witness :
  ∃ err e,
    (readMetadata (env t0 no_fault tool_fails) (metadata_of cache) world_nocache).1 = Err err ∧
    out (main (env t0 no_fault tool_fails) cache world_nocache).2
      = out world_nocache ++ [ErrorReadingMetadata err; ExecutingDownload; EvCall FnBackup;
                              ErrorBackingUp e].
Proof.
  apply (X18_main_without_a_cache_directory (env t0 no_fault tool_fails) cache world_nocache).
  - compute_done.
  - compute_done.
  - compute_done.
Defined.

End Examples.

Section CodecExamples.

Import Demo.

(** X19 at the record [m0]. *)
Lemma X19_witness : GoJSON.Marshal m0 = Some doc0 ∧ GoJSON.Unmarshal doc0 = Some m0.
Proof.
  split; [vm_compute; reflexivity|].
  apply (X19_Marshal_then_Unmarshal m0 doc0).
  - compute_done.
  - vm_compute. reflexivity.
Defined.

(** X20 at [world0]. *)
Lemma X20_witness :
  ∃ m, readMetadata (env (t0 + 1) no_fault tool_fails) meta world0 = (Ok m, world0) ∧
       readMetadata (env (t0 + 1) no_fault tool_fails) meta
         (updateMetadataNextUpdate (env (t0 + 1) no_fault tool_fails) meta world0).2
         = (Ok (set_NextUpdate
                  (time_Add (clock (env (t0 + 1) no_fault tool_fails) (ticks world0))
                     (4 * time_Hour)) m),
            (updateMetadataNextUpdate (env (t0 + 1) no_fault tool_fails) meta world0).2).
Proof.
  apply (X20_a_stamp_reads_back (env (t0 + 1) no_fault tool_fails) meta world0).
  - reflexivity.
  - reflexivity.
  - vm_compute. reflexivity.
Defined.

(** X21 at [world0], after a backup, a tool that fails and the restore. *)
Lemma X21_witness :
  ∃ m', NextUpdate m'
          = time_Add (clock (env (t0 + 1) no_fault tool_fails)
                        (ticks (after_tool (env (t0 + 1) no_fault tool_fails) (Ok m0) world0)))
              (4 * time_Hour) ∧
        main (env (t0 + 1) no_fault tool_fails) cache
             (after_restore (env (t0 + 1) no_fault tool_fails) (Ok m0) world0)
          = (Ok tt,
             {| fs := fs (after_restore (env (t0 + 1) no_fault tool_fails) (Ok m0) world0);
                ticks := S (S (ticks (after_tool (env (t0 + 1) no_fault tool_fails)
                                        (Ok m0) world0)));
                out := out (after_restore (env (t0 + 1) no_fault tool_fails) (Ok m0) world0)
                       ++ [UpToDate; NextUpdateAt (NextUpdate m')] |}).
Proof.
  apply (X21_after_a_restore_no_refresh_for_four_hours (env (t0 + 1) no_fault tool_fails)
           cache
           (say [ToolError tool_error; UpdateFailedRestoring]
              (after_tool (env (t0 + 1) no_fault tool_fails) (Ok m0) world0))).
  - reflexivity.
  - reflexivity.
  - vm_compute. reflexivity.
  - vm_compute. discriminate.
Defined.

End CodecExamples.
